(** * The pattern drawer of ImHex: traversal, pagination, sorting, selection

    A shallow embedding of [plugins/builtin/source/ui/pattern_drawer.cpp].
    The drawer walks a tree of pattern nodes once per frame and talks to an
    immediate-mode toolkit (Dear ImGui).  The embedding keeps that shape:

    - a pattern node is a tagged union with one constructor per concrete
      pattern class, carrying the attributes of the [Pattern] base class;
    - every toolkit call the source makes is recorded, in order, in a trace;
    - every toolkit call whose result the source branches on reads its
      answer from an input tape that the frame's environment supplies;
    - the two members of [PatternDrawer] ([m_displayEnd], [m_sortedPatterns])
      and the toolkit's dirty flag are threaded as explicit state;
    - 64-bit unsigned arithmetic is written with its wrap-around. *)

From Stdlib Require Import ZArith NArith List String Ascii Bool Lia.
From Stdlib Require Import Permutation Sorted.
From stdpp Require Import gmap.
Import ListNotations.

Scheme All for list.

Local Open Scope N_scope.

(** ** Machine integers *)

Definition u64_modulus : N := 2 ^ 64.

(** The value of an unbounded natural after it is stored in a [u64]. *)
Definition wrap64 (x : N) : N := x mod u64_modulus.

(** [a - b] computed in [u64]: the source subtracts offsets and the
    literal [1] from unsigned quantities. *)
Definition sub64 (a b : N) : N :=
  Z.to_N ((Z.of_N a - Z.of_N b) mod Z.of_N u64_modulus).

(** [static_cast<int>] of a [u64]: the low 32 bits read as two's complement. *)
Definition to_int (x : N) : Z :=
  let r := (Z.of_N x mod 2 ^ 32)%Z in
  if (r <? 2 ^ 31)%Z then r else (r - 2 ^ 32)%Z.

(** ** Regions and the selection *)

Module Region.

(** [hex::Region]: a start address and a byte count. *)
Record t : Type := mk { address : N; size : N }.

(** Modelled from the spec: [Region::overlaps] is declared in the helper
    headers of the repository, which are not part of the sources at hand.
    The specification asks for the standard overlap test on the half-open
    ranges [address, address + size), with an empty left range never
    overlapping. *)
Definition overlaps (r other : t) : bool :=
  (0 <? size r)
  && (address r <? address other + size other)
  && (address other <? address r + size r).

End Region.

(** ** Pattern nodes *)

(** [ImGuiSortDirection], with the toolkit's three values. *)
Inductive ImGuiSortDirection : Type :=
| ImGuiSortDirection_None
| ImGuiSortDirection_Ascending
| ImGuiSortDirection_Descending.

Definition ImGuiSortDirection_eqb (a b : ImGuiSortDirection) : bool :=
match a, b with
| ImGuiSortDirection_None, ImGuiSortDirection_None
| ImGuiSortDirection_Ascending, ImGuiSortDirection_Ascending
| ImGuiSortDirection_Descending, ImGuiSortDirection_Descending => true
| _, _ => false
end.

(** The first entry of the sort specification ([sortSpecs->Specs]). *)
Record ImGuiTableColumnSortSpecs : Type := {
ColumnUserID : N;
SortDirection : ImGuiSortDirection
}.

Record ImGuiTableSortSpecs : Type := {
Specs : ImGuiTableColumnSortSpecs;
SpecsDirty : bool
}.

(** Arguments of the toolkit's formatted-text calls; the format string is
  kept next to its arguments instead of being rendered. *)
Inductive Arg : Type :=
| ArgU64 (n : N)
| ArgInt (z : Z)
| ArgStr (s : string)
| ArgLang (key : string).

Inductive TreeNodeKind : Type :=
| LeafNode       (* Leaf | NoTreePushOnOpen | SpanFullWidth | AllowItemOverlap *)
| SpanFullWidth. (* ImGuiTreeNodeFlags_SpanFullWidth *)

Inductive SelectableKind : Type :=
| SpanAllColumns               (* ImGuiSelectableFlags_SpanAllColumns *)
| SpanAllColumns_AllowOverlap. (* ... | ImGuiSelectableFlags_AllowItemOverlap *)

(** The calls the drawer makes, in the vocabulary of the source. *)
Inductive Call : Type :=
| BeginTable
| TableSetupScrollFreeze
| TableSetupColumn (label : string) (defaultSort : bool) (userId : N)
| TableGetSortSpecs
| TableHeadersRow
| EndTable
| TableNextRow
| TableNextColumn
| TreeNodeEx (label : string) (labelArgs : list Arg) (kind : TreeNodeKind)
| TreePop
| Indent
| Unindent
| SameLine
| SameLine00
| TextUnformatted (text : string)
| TextFormatted (fmt : string) (args : list Arg)
| TextFormattedColored (color : N) (fmt : string) (args : list Arg)
| ColorButton (color : N)
| PushStyleColor
| PopStyleColor
| PushIDInt (id : Z)
| PushIDStr (id : string)
| PopID
| Selectable (label : string) (labelArgs : list Arg) (kind : SelectableKind)
| IsItemHovered
| IsMouseDoubleClicked
| BeginTooltip
| EndTooltip
| SetSelection (address size : N)    (* ImHexApi::HexEditor::setSelection *)
| SortPatterns (left right : N).     (* entry into the comparator *)

Declare Scope draw_scope.
Delimit Scope draw_scope with draw.

Section Model.

(** [pl::core::Token::Literal], the type of [Pattern::getValue], and its
    two comparisons belong to the pattern language library. *)
Variable Literal : Type.
Variable Literal_gtb : Literal -> Literal -> bool.
Variable Literal_ltb : Literal -> Literal -> bool.

(** [ImGui::GetID]: the toolkit's hash of a column name. *)
Variable GetID : string -> N.

(** [PatternDrawer::ChunkSize], declared in the class header. *)
Variable ChunkSize : N.

(** The attributes every pattern exposes through the [Pattern] base class.
    [addr] is the address of the object, the key of [m_displayEnd]. *)
Record Attrs : Type := {
  addr : N;
  getOffset : N;
  getSize : N;
  getDisplayName : string;
  getVariableName : string;
  getTypeName : string;
  getFormattedName : string;
  getFormattedValue : string;
  getComment : string;
  getColor : N;
  getValue : Literal;
  isHidden : bool;
  isSealed : bool;
  isInlined : bool
}.

Inductive Pattern : Type :=
| PatternArrayDynamic (a : Attrs) (entries : list Pattern)
| PatternArrayStatic (a : Attrs) (entries : list Pattern)
| PatternBitfield (a : Attrs) (fields : list Pattern)
| PatternBitfieldField (a : Attrs) (bitOffset bitSize : N)
| PatternBoolean (a : Attrs)
| PatternCharacter (a : Attrs)
| PatternEnum (a : Attrs)
| PatternFloat (a : Attrs)
| PatternPadding (a : Attrs)
| PatternPointer (a : Attrs) (pointedAt : Pattern)
| PatternSigned (a : Attrs)
| PatternString (a : Attrs)
| PatternStruct (a : Attrs) (members : list Pattern)
| PatternUnion (a : Attrs) (members : list Pattern)
| PatternUnsigned (a : Attrs)
| PatternWideCharacter (a : Attrs)
| PatternWideString (a : Attrs).

Definition attrs (p : Pattern) : Attrs :=
  match p with
  | PatternArrayDynamic a _ | PatternArrayStatic a _ | PatternBitfield a _
  | PatternBitfieldField a _ _ | PatternBoolean a | PatternCharacter a
  | PatternEnum a | PatternFloat a | PatternPadding a | PatternPointer a _
  | PatternSigned a | PatternString a | PatternStruct a _ | PatternUnion a _
  | PatternUnsigned a | PatternWideCharacter a | PatternWideString a => a
  end.

(** ** The drawing monad *)

(** What one frame reads from outside: the current selection of the hex
    editor and the answers of the toolkit, in the order they are asked. *)
Record World : Type := {
  currSelection : option Region.t;
  answer : nat -> bool
}.

(** The state that survives a call: the drawer's two members, the
    toolkit's sort specification and the position on the input tape. *)
Record State : Type := {
  m_displayEnd : gmap N N;
  m_sortedPatterns : list Pattern;
  sortSpecs : ImGuiTableSortSpecs;
  asked : nat
}.

(** A computation reads the world, updates the state and appends to the
    trace; [None] stands for a loop that does not come to an end. *)
Definition Draw (A : Type) : Type :=
  World -> State -> option (A * State * list Call).

Definition ret {A} (x : A) : Draw A := fun _ s => Some (x, s, []).

Definition bind {A B} (m : Draw A) (f : A -> Draw B) : Draw B :=
  fun w s =>
    match m w s with
    | None => None
    | Some (x, s1, t1) =>
        match f x w s1 with
        | None => None
        | Some (y, s2, t2) => Some (y, s2, t1 ++ t2)
        end
    end.

Definition call (c : Call) : Draw unit := fun _ s => Some (tt, s, [c]).

(** A toolkit call that returns a [bool]: the call is recorded and its
    result is the next answer on the tape. *)
Definition query (c : Call) : Draw bool :=
  fun w s =>
    Some (answer w (asked s),
          {| m_displayEnd := m_displayEnd s;
             m_sortedPatterns := m_sortedPatterns s;
             sortSpecs := sortSpecs s;
             asked := S (asked s) |},
          [c]).

(** A computation whose result the source throws away. *)
Definition ignore {A} (m : Draw A) : Draw unit :=
  fun w s =>
    match m w s with
    | None => None
    | Some (_, s1, t1) => Some (tt, s1, t1)
    end.

Definition diverge {A} : Draw A := fun _ _ => None.

Definition ask : Draw World := fun w s => Some (w, s, []).
Definition get : Draw State := fun _ s => Some (s, s, []).
Definition put (s : State) : Draw unit := fun _ _ => Some (tt, s, []).

Definition when (b : bool) (m : Draw unit) : Draw unit :=
  if b then m else ret tt.

(** The result of dereferencing [o]; a missing object has no behaviour. *)
Definition deref {A} (o : option A) : Draw A :=
  match o with
  | Some x => ret x
  | None => diverge
  end.

Notation "x <- m ;; k" := (bind m (fun x => k))
  (at level 100, m at next level, right associativity) : draw_scope.
Notation "m ;; k" := (bind m (fun _ => k))
  (at level 100, right associativity) : draw_scope.
Local Open Scope draw_scope.

(** ** Anonymous namespace: constants and row helpers *)

Definition DisplayEndDefault : N := 50.
Definition DisplayEndStep : N := 50.

Definition isPatternSelected (address size : N) : Draw bool :=
  fun w s =>
    match currSelection w with
    | None => Some (false, s, [])
    | Some sel => Some (Region.overlaps (Region.mk address size) sel, s, [])
    end.

Definition highlightWhenSelected {A} (address size : N) (callback : Draw A)
  : Draw A :=
  selected <- isPatternSelected address size ;;
  when selected (call PushStyleColor) ;;
  result <- callback ;;
  when selected (call PopStyleColor) ;;
  ret result.

(** The overload that takes the pattern itself. *)
Definition highlightWhenSelected_pattern {A} (pattern : Attrs)
    (callback : Draw A) : Draw A :=
  highlightWhenSelected (getOffset pattern) (getSize pattern) callback.

Definition createLeafNode (pattern : Attrs) : Draw unit :=
  call (TreeNodeEx (getDisplayName pattern) [] LeafNode).

Definition createTreeNode (pattern : Attrs) : Draw bool :=
  if isSealed pattern then
    call Indent ;;
    highlightWhenSelected_pattern pattern
      (call (TextUnformatted (getDisplayName pattern))) ;;
    call Unindent ;;
    ret false
  else
    highlightWhenSelected_pattern pattern
      (query (TreeNodeEx (getDisplayName pattern) [] SpanFullWidth)).

Definition drawTypenameColumn (pattern : Attrs) (pattern_name : string)
  : Draw unit :=
  call (TextFormattedColored 0xFFD69C56 pattern_name []) ;;
  call SameLine ;;
  call (TextUnformatted (getTypeName pattern)) ;;
  call TableNextColumn.

Definition drawNameColumn (pattern : Attrs) : Draw unit :=
  highlightWhenSelected_pattern pattern
    (call (TextUnformatted (getDisplayName pattern))) ;;
  call TableNextColumn.

Definition drawColorColumn (pattern : Attrs) : Draw unit :=
  call (ColorButton (getColor pattern)) ;;
  call TableNextColumn.

Definition drawOffsetColumn (pattern : Attrs) : Draw unit :=
  call (TextFormatted "0x{0:08X} : 0x{1:08X}"
          [ArgU64 (getOffset pattern);
           ArgU64 (sub64 (wrap64 (getOffset pattern + getSize pattern))
                         (if getSize pattern =? 0 then 0 else 1))]) ;;
  call TableNextColumn.

Definition drawSizeColumn (pattern : Attrs) : Draw unit :=
  call (TextFormatted "0x{0:04X}" [ArgU64 (getSize pattern)]) ;;
  call TableNextColumn.

Definition drawCommentTooltip (pattern : Attrs) : Draw unit :=
  hovered <- query IsItemHovered ;;
  if hovered then
    if String.eqb (getComment pattern) "" then ret tt
    else
      call BeginTooltip ;;
      call (TextUnformatted (getComment pattern)) ;;
      call EndTooltip
  else ret tt.

Definition makeSelectable (pattern : Attrs) : Draw unit :=
  call (PushIDInt (to_int (getOffset pattern))) ;;
  call (PushIDStr (getVariableName pattern)) ;;
  clicked <- query (Selectable "##PatternLine" [] SpanAllColumns_AllowOverlap) ;;
  when clicked (call (SetSelection (getOffset pattern) (getSize pattern))) ;;
  call SameLine00 ;;
  call PopID ;;
  call PopID.

Definition createDefaultEntry (pattern : Attrs) : Draw unit :=
  call TableNextRow ;;
  createLeafNode pattern ;;
  call TableNextColumn ;;
  makeSelectable pattern ;;
  drawCommentTooltip pattern ;;
  call SameLine ;;
  drawNameColumn pattern ;;
  drawColorColumn pattern ;;
  drawOffsetColumn pattern ;;
  drawSizeColumn pattern ;;
  call (TextFormattedColored 0xFF9BC64D "{}"
          [ArgStr (if String.eqb (getFormattedName pattern) ""
                   then getTypeName pattern
                   else getFormattedName pattern)]) ;;
  call TableNextColumn ;;
  call (TextFormatted "{}" [ArgStr (getFormattedValue pattern)]).

(** ** The disclosure table *)

Definition set_displayEnd (s : State) (m : gmap N N) : State :=
  {| m_displayEnd := m;
     m_sortedPatterns := m_sortedPatterns s;
     sortSpecs := sortSpecs s;
     asked := asked s |}.

(** [getDisplayEnd] returns a reference into [m_displayEnd]; reading through
    it is the value returned here, and creates the entry when it is missing. *)
Definition getDisplayEnd (pattern : Attrs) : Draw N :=
  fun _ s =>
    match m_displayEnd s !! addr pattern with
    | Some value => Some (value, s, [])
    | None =>
        Some (DisplayEndDefault,
              set_displayEnd s (<[addr pattern := DisplayEndDefault]> (m_displayEnd s)),
              [])
    end.

(** Writing through the reference that [getDisplayEnd] returned. *)
Definition assignDisplayEnd (pattern : Attrs) (value : N) : Draw unit :=
  fun _ s =>
    Some (tt, set_displayEnd s (<[addr pattern := value]> (m_displayEnd s)), []).

(** ** Iteration over the entries of a composite *)

Definition getEntryCount (entries : list Pattern) : N :=
  N.of_nat (length entries).

Definition getEntry (entries : list Pattern) (index : N) : option Pattern :=
  entries !! N.to_nat index.

Section Iteration.

(** The callback of the loop over entries, and the callback of the array
    loop ([this->draw] in both places). *)
Variable fn : Pattern -> Draw unit.

(** [forEachEntry(start, end, fn)]: [fn] on the entries whose index lies in
    [start, end), in order; [index] is the index of the head of [entries]. *)
Fixpoint forEachEntry_from (start end_ : N) (index : N)
    (entries : list Pattern) : Draw unit :=
  match entries with
  | [] => ret tt
  | entry :: rest =>
      when ((start <=? index) && (index <? end_)) (fn entry) ;;
      forEachEntry_from start end_ (index + 1) rest
  end.

Definition forEachEntry (entries : list Pattern) (start end_ : N)
  : Draw unit :=
  forEachEntry_from start end_ 0 entries.

(** ** Arrays: header row and paginated chunks *)

(** The placeholder row at the end of the revealed chunks: the body of
    [if (chunkCount > displayEnd)], up to its [break]. *)
Definition drawArray_placeholder (pattern : Attrs) (displayEnd : N)
  : Draw unit :=
  call (Selectable "... ({})"
          [ArgLang "hex.builtin.pattern_drawer.double_click"]
          SpanAllColumns) ;;
  hovered <- query IsItemHovered ;;
  clicked <- (if hovered then query IsMouseDoubleClicked else ret false) ;;
  when clicked
    (assignDisplayEnd pattern (wrap64 (displayEnd + DisplayEndStep))).

(** The summary row of the chunk that starts at entry [i], and the entries
    of the chunk when the row is open: the [else] branch. *)
Definition drawArray_chunk (pattern : Attrs) (entries : list Pattern)
    (i : N) : Draw unit :=
  let endIndex := N.min (getEntryCount entries) (wrap64 (i + ChunkSize)) in
  first <- deref (getEntry entries i) ;;
  last <- deref (getEntry entries (sub64 endIndex 1)) ;;
  let startOffset := getOffset (attrs first) in
  let endOffset := getOffset (attrs last) in
  let endSize := getSize (attrs last) in
  let chunkSize := wrap64 (sub64 endOffset startOffset + endSize) in
  chunkOpen <-
    highlightWhenSelected startOffset
      (sub64 (sub64 (wrap64 (endOffset + endSize)) startOffset) 1)
      (query (TreeNodeEx "[{} ... {}]"
                [ArgU64 i; ArgU64 (sub64 endIndex 1)] SpanFullWidth)) ;;
  call TableNextColumn ;;
  drawColorColumn pattern ;;
  call (TextFormatted "0x{0:08X} : 0x{1:08X}"
          [ArgU64 startOffset;
           ArgU64 (sub64 (wrap64 (startOffset + chunkSize))
                         (if getSize pattern =? 0 then 0 else 1))]) ;;
  call TableNextColumn ;;
  call (TextFormatted "0x{0:04X}" [ArgU64 chunkSize]) ;;
  call TableNextColumn ;;
  call (TextFormattedColored 0xFF9BC64D "{0}" [ArgStr (getTypeName pattern)]) ;;
  call SameLine00 ;;
  call (TextUnformatted "[") ;;
  call SameLine00 ;;
  call (TextFormattedColored 0xFF00FF00 "{0}" [ArgU64 (sub64 endIndex i)]) ;;
  call SameLine00 ;;
  call (TextUnformatted "]") ;;
  call TableNextColumn ;;
  call (TextFormatted "[ ... ]" []) ;;
  if chunkOpen then
    forEachEntry entries i endIndex ;;
    call TreePop
  else ret tt.

(** The [for] loop of [drawArray]; [fuel] bounds the number of iterations
    the model follows. *)
Fixpoint drawArray_loop (pattern : Attrs) (entries : list Pattern)
    (fuel : nat) (i chunkCount : N) : Draw unit :=
  if i <? getEntryCount entries then
    match fuel with
    | O => diverge
    | S fuel' =>
        call TableNextRow ;;
        call TableNextColumn ;;
        let chunkCount := wrap64 (chunkCount + 1) in
        displayEnd <- getDisplayEnd pattern ;;
        if displayEnd <? chunkCount then
          drawArray_placeholder pattern displayEnd
        else
          drawArray_chunk pattern entries i ;;
          drawArray_loop pattern entries fuel'
            (wrap64 (i + ChunkSize)) chunkCount
    end
  else ret tt.

(** The header row of an array; the result is [open]. *)
Definition drawArray_header (pattern : Attrs) (entries : list Pattern)
    (isInlined : bool) : Draw bool :=
  if negb isInlined then
    call TableNextRow ;;
    call TableNextColumn ;;
    open <- createTreeNode pattern ;;
    call TableNextColumn ;;
    makeSelectable pattern ;;
    drawCommentTooltip pattern ;;
    (if isSealed pattern then drawColorColumn pattern
     else call TableNextColumn) ;;
    drawOffsetColumn pattern ;;
    drawSizeColumn pattern ;;
    call (TextFormattedColored 0xFF9BC64D "{0}"
            [ArgStr (getTypeName pattern)]) ;;
    call SameLine00 ;;
    call (TextUnformatted "[") ;;
    call SameLine00 ;;
    call (TextFormattedColored 0xFF00FF00 "{0}"
            [ArgU64 (getEntryCount entries)]) ;;
    call SameLine00 ;;
    call (TextUnformatted "]") ;;
    call TableNextColumn ;;
    call (TextFormatted "{}" [ArgStr (getFormattedValue pattern)]) ;;
    ret open
  else ret true.

Definition drawArray (pattern : Attrs) (entries : list Pattern)
    (isInlined : bool) : Draw unit :=
  if getEntryCount entries =? 0 then ret tt
  else
    open <- drawArray_header pattern entries isInlined ;;
    if open then
      drawArray_loop pattern entries (S (length entries)) 0 0 ;;
      when (negb isInlined) (call TreePop)
    else ret tt.

End Iteration.

(** ** The visitor *)

Definition visit_PatternBitfieldField (pattern : Attrs)
    (getBitOffset getBitSize : N) : Draw unit :=
  call TableNextRow ;;
  createLeafNode pattern ;;
  call TableNextColumn ;;
  makeSelectable pattern ;;
  drawCommentTooltip pattern ;;
  call SameLine ;;
  drawNameColumn pattern ;;
  drawColorColumn pattern ;;
  let byteAddr := wrap64 (getOffset pattern + getBitOffset / 8) in
  let firstBitIdx := (Z.of_N getBitOffset mod 8)%Z in
  let lastBitIdx := (firstBitIdx + (Z.of_N getBitSize - 1))%Z in
  (if (firstBitIdx =? lastBitIdx)%Z then
     call (TextFormatted "0x{0:08X} bit {1}"
             [ArgU64 byteAddr; ArgInt firstBitIdx])
   else
     call (TextFormatted "0x{0:08X} bits {1} - {2}"
             [ArgU64 byteAddr; ArgInt firstBitIdx; ArgInt lastBitIdx])) ;;
  call TableNextColumn ;;
  (if getBitSize =? 1 then call (TextFormatted "{0} bit" [ArgU64 getBitSize])
   else call (TextFormatted "{0} bits" [ArgU64 getBitSize])) ;;
  call TableNextColumn ;;
  call (TextFormattedColored 0xFF9BC64D "bits" []) ;;
  call TableNextColumn ;;
  call (TextFormatted "{}" [ArgStr (getFormattedValue pattern)]).

Definition visit_PatternEnum (pattern : Attrs) : Draw unit :=
  call TableNextRow ;;
  createLeafNode pattern ;;
  drawCommentTooltip pattern ;;
  call TableNextColumn ;;
  makeSelectable pattern ;;
  call SameLine ;;
  drawNameColumn pattern ;;
  drawColorColumn pattern ;;
  drawOffsetColumn pattern ;;
  drawSizeColumn pattern ;;
  drawTypenameColumn pattern "enum" ;;
  call (TextFormatted "{}" [ArgStr (getFormattedValue pattern)]).

(** The header row of a bitfield; the result is [open]. *)
Definition header_PatternBitfield (pattern : Attrs) : Draw bool :=
  if negb (isInlined pattern) then
    call TableNextRow ;;
    call TableNextColumn ;;
    open <- createTreeNode pattern ;;
    call TableNextColumn ;;
    makeSelectable pattern ;;
    drawCommentTooltip pattern ;;
    drawColorColumn pattern ;;
    drawOffsetColumn pattern ;;
    drawSizeColumn pattern ;;
    drawTypenameColumn pattern "bitfield" ;;
    call (TextFormatted "{}" [ArgStr (getFormattedValue pattern)]) ;;
    ret open
  else ret true.

(** The header row of a pointer. *)
Definition header_PatternPointer (pattern : Attrs) : Draw bool :=
  if negb (isInlined pattern) then
    call TableNextRow ;;
    call TableNextColumn ;;
    open <- createTreeNode pattern ;;
    call TableNextColumn ;;
    makeSelectable pattern ;;
    drawCommentTooltip pattern ;;
    drawColorColumn pattern ;;
    drawOffsetColumn pattern ;;
    drawSizeColumn pattern ;;
    call (TextFormattedColored 0xFF9BC64D "{}"
            [ArgStr (getFormattedName pattern)]) ;;
    call TableNextColumn ;;
    call (TextFormatted "{}" [ArgStr (getFormattedValue pattern)]) ;;
    ret open
  else ret true.

(** The header row of a struct ([keyword] is "struct") and of a union
    ([keyword] is "union"): the two visits differ in this word only. *)
Definition header_PatternStruct (pattern : Attrs) (keyword : string)
  : Draw bool :=
  if negb (isInlined pattern) then
    call TableNextRow ;;
    call TableNextColumn ;;
    open <- createTreeNode pattern ;;
    call TableNextColumn ;;
    makeSelectable pattern ;;
    drawCommentTooltip pattern ;;
    (if isSealed pattern then drawColorColumn pattern
     else call TableNextColumn) ;;
    drawOffsetColumn pattern ;;
    drawSizeColumn pattern ;;
    drawTypenameColumn pattern keyword ;;
    call (TextFormatted "{}" [ArgStr (getFormattedValue pattern)]) ;;
    ret open
  else ret true.

(** [pattern.accept(visitor)]: the dispatch on the concrete class, with the
    bodies of the [visit] overloads.  [draw] is [this->draw]. *)
Fixpoint accept (pattern : Pattern) : Draw unit :=
  let draw (p : Pattern) : Draw unit :=
    if isHidden (attrs p) then ret tt else accept p in
  let drawArray := drawArray draw in
  let forEachEntry := forEachEntry draw in
  match pattern with
  | PatternArrayDynamic a entries => drawArray a entries (isInlined a)
  | PatternArrayStatic a entries => drawArray a entries (isInlined a)
  | PatternBitfieldField a bitOffset bitSize =>
      visit_PatternBitfieldField a bitOffset bitSize
  | PatternBitfield a fields =>
      open <- header_PatternBitfield a ;;
      if open then
        forEachEntry fields 0 (getEntryCount fields) ;;
        when (negb (isInlined a)) (call TreePop)
      else ret tt
  | PatternBoolean a => createDefaultEntry a
  | PatternCharacter a => createDefaultEntry a
  | PatternEnum a => visit_PatternEnum a
  | PatternFloat a => createDefaultEntry a
  | PatternPadding a => ret tt
  | PatternPointer a pointedAt =>
      open <- header_PatternPointer a ;;
      if open then
        accept pointedAt ;;
        when (negb (isInlined a)) (call TreePop)
      else ret tt
  | PatternSigned a => createDefaultEntry a
  | PatternString a =>
      if 0 <? getSize a then createDefaultEntry a else ret tt
  | PatternStruct a members =>
      open <- header_PatternStruct a "struct" ;;
      if open then
        forEachEntry members 0 (getEntryCount members) ;;
        when (negb (isInlined a)) (call TreePop)
      else ret tt
  | PatternUnion a members =>
      open <- header_PatternStruct a "union" ;;
      if open then
        forEachEntry members 0 (getEntryCount members) ;;
        when (negb (isInlined a)) (call TreePop)
      else ret tt
  | PatternUnsigned a => createDefaultEntry a
  | PatternWideCharacter a => createDefaultEntry a
  | PatternWideString a =>
      if 0 <? getSize a then createDefaultEntry a else ret tt
  end.

(** [PatternDrawer::draw(pl::ptrn::Pattern&)]. *)
Definition draw (pattern : Pattern) : Draw unit :=
  if isHidden (attrs pattern) then ret tt else accept pattern.

(** ** Sorting *)

(** [operator>] and [operator<] of [std::string]: lexicographic on the
    character codes. *)
Definition string_gtb (a b : string) : bool := String.ltb b a.
Definition string_ltb (a b : string) : bool := String.ltb a b.

Definition sortPatterns (sortSpecs : ImGuiTableSortSpecs)
    (left right : Attrs) : bool :=
  let ColumnUserID := ColumnUserID (Specs sortSpecs) in
  let ascending :=
    ImGuiSortDirection_eqb (SortDirection (Specs sortSpecs))
      ImGuiSortDirection_Ascending in
  if ColumnUserID =? GetID "name" then
    if ascending then string_gtb (getDisplayName left) (getDisplayName right)
    else string_ltb (getDisplayName left) (getDisplayName right)
  else if ColumnUserID =? GetID "offset" then
    if ascending then getOffset right <? getOffset left
    else getOffset left <? getOffset right
  else if ColumnUserID =? GetID "size" then
    if ascending then getSize right <? getSize left
    else getSize left <? getSize right
  else if ColumnUserID =? GetID "value" then
    if ascending then Literal_gtb (getValue left) (getValue right)
    else Literal_ltb (getValue left) (getValue right)
  else if ColumnUserID =? GetID "type" then
    if ascending then string_gtb (getTypeName left) (getTypeName right)
    else string_ltb (getTypeName left) (getTypeName right)
  else if ColumnUserID =? GetID "color" then
    if ascending then getColor right <? getColor left
    else getColor left <? getColor right
  else false.

(** The lambda handed to [std::sort] and to [Pattern::sort]: a call of
    [sortPatterns], which the trace records. *)
Definition comparator (sortSpecs : ImGuiTableSortSpecs)
    (left right : Pattern) : Draw bool :=
  call (SortPatterns (addr (attrs left)) (addr (attrs right))) ;;
  ret (sortPatterns sortSpecs (attrs left) (attrs right)).

Section Sorting.

Variable comp : Pattern -> Pattern -> Draw bool.

(** [std::sort] leaves its algorithm to the library.  The model follows
    libstdc++, where [std::sort] on a range of at most sixteen elements is
    [__insertion_sort]; longer ranges, which the library partitions first,
    are sorted by insertion here as well.  [comp x y] true places [x]
    before [y]. *)

(** [__unguarded_linear_insert]: [val] moves towards the front past every
    element it comes before.  [before] holds the elements in front of
    [val], the nearest first, and [behind] those it has passed.  The loop
    does not test for the front of the range: a comparator that sends
    [val] past the first element has no behaviour. *)
Fixpoint unguarded_linear_insert (val : Pattern)
    (before behind : list Pattern) : Draw (list Pattern) :=
  match before with
  | [] => diverge
  | next :: before' =>
      less <- comp val next ;;
      if less then unguarded_linear_insert val before' (next :: behind)
      else ret (rev_append before (val :: behind))
  end.

(** The loop of [__insertion_sort]: [sorted] is the range in front of the
    iterator [i], and [rest] the range from [i] on.  An element that comes
    before the first one is moved to the front; any other is inserted
    without the guard. *)
Fixpoint insertion_sort (sorted rest : list Pattern) : Draw (list Pattern) :=
  match rest with
  | [] => ret sorted
  | val :: rest' =>
      first <- deref (head sorted) ;;
      less <- comp val first ;;
      sorted' <- (if less then ret (val :: sorted)
                  else unguarded_linear_insert val (rev sorted) []) ;;
      insertion_sort sorted' rest'
  end.

Definition std_sort (range : list Pattern) : Draw (list Pattern) :=
  match range with
  | [] => ret []
  | first :: rest => insertion_sort [first] rest
  end.

Section ForEach.

Variable A : Type.
Variable f : Pattern -> Draw A.

(** A range-based [for] that collects what each step returns. *)
Fixpoint for_each (range : list Pattern) : Draw (list A) :=
  match range with
  | [] => ret []
  | x :: rest =>
      y <- f x ;;
      ys <- for_each rest ;;
      ret (y :: ys)
  end.

End ForEach.

(** Modelled from the spec: [Pattern::sort] belongs to the pattern language
    library.  The specification has the comparator pushed down recursively
    into every struct, union and array, each of which sorts its own
    children with it; the node that comes back is the object after that
    in-place update.  A pointer hands the comparator on to the node it
    points at and a bitfield to its fields, neither sorts anything of its
    own, so that a struct, union or array below them is reached. *)
Fixpoint Pattern_sort (pattern : Pattern) : Draw Pattern :=
  match pattern with
  | PatternStruct a members =>
      members' <- for_each Pattern Pattern_sort members ;;
      sorted <- std_sort members' ;;
      ret (PatternStruct a sorted)
  | PatternUnion a members =>
      members' <- for_each Pattern Pattern_sort members ;;
      sorted <- std_sort members' ;;
      ret (PatternUnion a sorted)
  | PatternArrayDynamic a entries =>
      entries' <- for_each Pattern Pattern_sort entries ;;
      sorted <- std_sort entries' ;;
      ret (PatternArrayDynamic a sorted)
  | PatternArrayStatic a entries =>
      entries' <- for_each Pattern Pattern_sort entries ;;
      sorted <- std_sort entries' ;;
      ret (PatternArrayStatic a sorted)
  | PatternPointer a pointee =>
      pointee' <- Pattern_sort pointee ;;
      ret (PatternPointer a pointee')
  | PatternBitfield a fields =>
      fields' <- for_each Pattern Pattern_sort fields ;;
      ret (PatternBitfield a fields')
  | _ => ret pattern
  end.

End Sorting.

(** ** The table and the top-level draw *)

Definition set_sorted (s : State) (sorted : list Pattern) (dirty : bool)
  : State :=
  {| m_displayEnd := m_displayEnd s;
     m_sortedPatterns := sorted;
     sortSpecs := {| Specs := Specs (sortSpecs s); SpecsDirty := dirty |};
     asked := asked s |}.

Definition is_empty (patterns : list Pattern) : bool :=
  match patterns with
  | [] => true
  | _ :: _ => false
  end.

(** The columns of the table, in the order they are set up: the key of the
    localised label, whether the column is the default sort, and its name. *)
Definition setupColumns : Draw unit :=
  call (TableSetupColumn "hex.builtin.pattern_drawer.var_name" false
          (GetID "name")) ;;
  call (TableSetupColumn "hex.builtin.pattern_drawer.color" false
          (GetID "color")) ;;
  call (TableSetupColumn "hex.builtin.pattern_drawer.offset" true
          (GetID "offset")) ;;
  call (TableSetupColumn "hex.builtin.pattern_drawer.size" false
          (GetID "size")) ;;
  call (TableSetupColumn "hex.builtin.pattern_drawer.type" false
          (GetID "type")) ;;
  call (TableSetupColumn "hex.builtin.pattern_drawer.value" false
          (GetID "value")).

(** [m_sortedPatterns] holds pointers into [patterns]; after a rebuild the
    model stores the nodes as [Pattern::sort] left them. *)
Definition beginPatternTable (patterns : list Pattern) : Draw bool :=
  begun <- query BeginTable ;;
  if begun then
    call TableSetupScrollFreeze ;;
    setupColumns ;;
    call TableGetSortSpecs ;;
    s <- get ;;
    (if is_empty patterns then
       put (set_sorted s [] (SpecsDirty (sortSpecs s)))
     else ret tt) ;;
    s <- get ;;
    (if negb (is_empty patterns)
        && (SpecsDirty (sortSpecs s) || is_empty (m_sortedPatterns s)) then
       sorted <- std_sort (comparator (sortSpecs s)) patterns ;;
       sorted' <- for_each Pattern
                    (Pattern_sort (comparator (sortSpecs s))) sorted ;;
       s' <- get ;;
       put (set_sorted s' sorted' false)
     else ret tt) ;;
    ret true
  else ret false.

(** [PatternDrawer::draw(patterns, height)].  The height only sizes the
    table and is not part of the recorded [BeginTable] call. *)
Definition draw_patterns (patterns : list Pattern) : Draw unit :=
  begun <- beginPatternTable patterns ;;
  if begun then
    call TableHeadersRow ;;
    s <- get ;;
    ignore (for_each unit draw (m_sortedPatterns s)) ;;
    call EndTable
  else ret tt.

End Model.

Arguments Build_Attrs {Literal}.
Arguments addr {Literal}.
Arguments getOffset {Literal}.
Arguments getSize {Literal}.
Arguments getDisplayName {Literal}.
Arguments getVariableName {Literal}.
Arguments getTypeName {Literal}.
Arguments getFormattedName {Literal}.
Arguments getFormattedValue {Literal}.
Arguments getComment {Literal}.
Arguments getColor {Literal}.
Arguments getValue {Literal}.
Arguments isHidden {Literal}.
Arguments isSealed {Literal}.
Arguments isInlined {Literal}.
Arguments PatternArrayDynamic {Literal}.
Arguments PatternArrayStatic {Literal}.
Arguments PatternBitfield {Literal}.
Arguments PatternBitfieldField {Literal}.
Arguments PatternBoolean {Literal}.
Arguments PatternCharacter {Literal}.
Arguments PatternEnum {Literal}.
Arguments PatternFloat {Literal}.
Arguments PatternPadding {Literal}.
Arguments PatternPointer {Literal}.
Arguments PatternSigned {Literal}.
Arguments PatternString {Literal}.
Arguments PatternStruct {Literal}.
Arguments PatternUnion {Literal}.
Arguments PatternUnsigned {Literal}.
Arguments PatternWideCharacter {Literal}.
Arguments PatternWideString {Literal}.
Arguments attrs {Literal}.
Arguments Build_State {Literal}.
Arguments m_displayEnd {Literal}.
Arguments m_sortedPatterns {Literal}.
Arguments sortSpecs {Literal}.
Arguments asked {Literal}.
Arguments ret {Literal A}.
Arguments bind {Literal A B}.
Arguments call {Literal}.
Arguments query {Literal}.
Arguments ignore {Literal A}.
Arguments diverge {Literal A}.
Arguments ask {Literal}.
Arguments get {Literal}.
Arguments put {Literal}.
Arguments when {Literal}.
Arguments deref {Literal A}.
Arguments isPatternSelected {Literal}.
Arguments highlightWhenSelected {Literal A}.
Arguments highlightWhenSelected_pattern {Literal A}.
Arguments createLeafNode {Literal}.
Arguments createTreeNode {Literal}.
Arguments drawTypenameColumn {Literal}.
Arguments drawNameColumn {Literal}.
Arguments drawColorColumn {Literal}.
Arguments drawOffsetColumn {Literal}.
Arguments drawSizeColumn {Literal}.
Arguments drawCommentTooltip {Literal}.
Arguments makeSelectable {Literal}.
Arguments createDefaultEntry {Literal}.
Arguments set_displayEnd {Literal}.
Arguments getDisplayEnd {Literal}.
Arguments assignDisplayEnd {Literal}.
Arguments getEntryCount {Literal}.
Arguments getEntry {Literal}.
Arguments forEachEntry_from {Literal}.
Arguments forEachEntry {Literal}.
Arguments drawArray_placeholder {Literal}.
Arguments drawArray_chunk {Literal}.
Arguments drawArray_loop {Literal}.
Arguments drawArray_header {Literal}.
Arguments drawArray {Literal}.
Arguments visit_PatternBitfieldField {Literal}.
Arguments visit_PatternEnum {Literal}.
Arguments header_PatternBitfield {Literal}.
Arguments header_PatternPointer {Literal}.
Arguments header_PatternStruct {Literal}.
Arguments accept {Literal}.
Arguments draw {Literal}.
Arguments sortPatterns {Literal}.
Arguments comparator {Literal}.
Arguments unguarded_linear_insert {Literal}.
Arguments insertion_sort {Literal}.
Arguments std_sort {Literal}.
Arguments for_each {Literal A}.
Arguments Pattern_sort {Literal}.
Arguments set_sorted {Literal}.
Arguments is_empty {Literal}.
Arguments setupColumns {Literal}.
Arguments beginPatternTable {Literal}.
Arguments draw_patterns {Literal}.

Notation "x <- m ;; k" := (bind m (fun x => k))
  (at level 100, m at next level, right associativity) : draw_scope.
Notation "m ;; k" := (bind m (fun _ => k))
  (at level 100, right associativity) : draw_scope.

(** ** Observations on traces *)

Definition isRow (c : Call) : bool :=
  match c with
  | TableNextRow => true
  | _ => false
  end.

(** The number of table rows a trace starts. *)
Definition rows (t : list Call) : nat := length (filter isRow t).

Definition isColorButton (c : Call) : bool :=
  match c with
  | ColorButton _ => true
  | _ => false
  end.

(** Whether a trace draws a colour swatch. *)
Definition hasSwatch (t : list Call) : bool := existsb isColorButton t.

Definition isSortPatterns (c : Call) : bool :=
  match c with
  | SortPatterns _ _ => true
  | _ => false
  end.

(** The number of times a trace enters the comparator. *)
Definition comparisons (t : list Call) : nat :=
  length (filter isSortPatterns t).

Definition isPlaceholder (c : Call) : bool :=
  match c with
  | Selectable _ _ SpanAllColumns => true
  | _ => false
  end.

(** The number of placeholder rows in a trace. *)
Definition placeholders (t : list Call) : nat :=
  length (filter isPlaceholder t).

(** The paging row a call starts, if any: [Some (i, j)] for the tree node
    of the chunk-summary row of the entries [i] to [j], [None] for the
    selectable of a placeholder row. *)
Definition pager (c : Call) : option (option (N * N)) :=
  match c with
  | TreeNodeEx _ [ArgU64 i; ArgU64 j] SpanFullWidth => Some (Some (i, j))
  | Selectable _ _ SpanAllColumns => Some None
  | _ => None
  end.

(** The paging rows of a trace, in the order they are drawn. *)
Definition pagers (t : list Call) : list (option (N * N)) := omap pager t.

(** A call that starts no paging row. *)
Definition plain (c : Call) : Prop := pager c = None.

(** The unformatted texts of a trace, in order: the names of the rows. *)
Definition texts (t : list Call) : list string :=
  flat_map (fun c => match c with
                     | TextUnformatted text => [text]
                     | _ => []
                     end) t.

(** The parts of a result. *)
Definition returned {S A} (r : option (A * S * list Call)) : bool :=
  match r with
  | Some _ => true
  | None => false
  end.

Definition trace_of {S A} (r : option (A * S * list Call)) : list Call :=
  match r with
  | Some (_, _, t) => t
  | None => []
  end.

Definition state_of {S A} (r : option (A * S * list Call)) (s : S) : S :=
  match r with
  | Some (_, s', _) => s'
  | None => s
  end.

(** The addresses of a node and of everything below it: the keys of
    [m_displayEnd] a draw of the node can touch. *)
Fixpoint nodes {Literal} (p : Pattern Literal) : gset N :=
  match p with
  | PatternArrayDynamic a l | PatternArrayStatic a l | PatternBitfield a l
  | PatternStruct a l | PatternUnion a l =>
      {[ addr a ]} ∪ ⋃ (map nodes l)
  | PatternPointer a q => {[ addr a ]} ∪ nodes q
  | _ => {[ addr (attrs p) ]}
  end.

(** An entry count is a [u64] in the source and a list length here.
    [headroom] says that the count leaves room below [2^64] for the loop
    index of [drawArray] to step past the end and for one more reveal
    step, so that neither wraps around. *)
Definition headroom {Literal} (ChunkSize : N)
    (entries : list (Pattern Literal)) : Prop :=
  getEntryCount entries + ChunkSize + DisplayEndStep <= u64_modulus.

Definition headroomb {Literal} (ChunkSize : N)
    (entries : list (Pattern Literal)) : bool :=
  getEntryCount entries + ChunkSize + DisplayEndStep <=? u64_modulus.

(** Whether every array at or below a node has [headroom]. *)
Fixpoint fits {Literal} (ChunkSize : N) (p : Pattern Literal) : bool :=
  match p with
  | PatternArrayDynamic _ l | PatternArrayStatic _ l =>
      headroomb ChunkSize l && forallb (fits ChunkSize) l
  | PatternBitfield _ l | PatternStruct _ l | PatternUnion _ l =>
      forallb (fits ChunkSize) l
  | PatternPointer _ q => fits ChunkSize q
  | _ => true
  end.

(** The side condition under which the loops below a node come to an end
    and the 64-bit counters stay in range. *)
Definition bounded {Literal} (ChunkSize : N) (p : Pattern Literal) : Prop :=
  0 < ChunkSize /\ fits ChunkSize p = true.

(** Whether the visit of a node shows no paging row: the node is no array
    with entries, and neither is what the visit draws below it, which are
    the children that are not hidden and the target of a pointer, hidden
    or not. *)
Fixpoint arrayless {Literal} (p : Pattern Literal) : bool :=
  match p with
  | PatternArrayDynamic _ l | PatternArrayStatic _ l => is_empty l
  | PatternBitfield _ l | PatternStruct _ l | PatternUnion _ l =>
      forallb (fun e => isHidden (attrs e) || arrayless e) l
  | PatternPointer _ q => arrayless q
  | _ => true
  end.

(** Whether the draw of a node shows no paging row. *)
Definition pagerless {Literal} (p : Pattern Literal) : bool :=
  isHidden (attrs p) || arrayless p.

Section Vocabulary.

Context {Literal : Type}.
Variable ChunkSize : N.

Implicit Types (s : State Literal) (w : World) (t : list Call) (K : gset N).

(** [grows v v']: [v'] is [v] after some number of reveal steps. *)
Definition grows (v v' : N) : Prop := exists j, v' = v + DisplayEndStep * j.

(** [Inv K s s' t]: between [s] and [s'] the sorted order and the sort
    specification are untouched, the tape only moves forward, the
    comparator is not entered, entries of [m_displayEnd] outside [K] are
    untouched, no entry is removed, and an entry only ever appears with the
    default and changes by reveal steps. *)
Record Inv K s s' t : Prop := {
  inv_sorted : m_sortedPatterns s' = m_sortedPatterns s;
  inv_specs : sortSpecs s' = sortSpecs s;
  inv_asked : (asked s <= asked s')%nat;
  inv_comparisons : comparisons t = 0%nat;
  inv_frame : forall k, k ∉ K -> m_displayEnd s' !! k = m_displayEnd s !! k;
  inv_step : forall k v, m_displayEnd s !! k = Some v ->
    exists v', m_displayEnd s' !! k = Some v' /\ grows v v';
  inv_fresh : forall k, m_displayEnd s !! k = None ->
    m_displayEnd s' !! k = None \/
    exists v', m_displayEnd s' !! k = Some v' /\ grows DisplayEndDefault v'
}.

(** What holds of every run that returns, whatever the input: the sorted
    order and the sort specification are as they were and the comparator
    was not entered. *)
Record Keeps s s' t : Prop := {
  kept_sorted : m_sortedPatterns s' = m_sortedPatterns s;
  kept_specs : sortSpecs s' = sortSpecs s;
  kept_comparisons : comparisons t = 0%nat
}.

Definition keeps {A} (m : Draw Literal A) : Prop :=
  forall w s x s' t, m w s = Some (x, s', t) -> Keeps s s' t.

(** Under the side condition [G], the computation [m] returns from every
    world and state, and has respected [Inv K]. *)
Definition sound (G : Prop) K {A} (m : Draw Literal A) : Prop :=
  G -> forall w s, exists x s' t, m w s = Some (x, s', t) /\ Inv K s s' t.

Definition spec (G : Prop) K {A} (m : Draw Literal A) : Prop :=
  keeps m /\ sound G K m.

(** [m] returns a value that satisfies [P] and leaves the state as it
    found it. *)
Definition returns {A} (P : A -> Prop) (m : Draw Literal A) : Prop :=
  forall w s, exists x t, m w s = Some (x, s, t) /\ P x.

(** Two nodes that differ in the order of children only, as far as the
    properties below need it: the same attributes and the same bounds. *)
Definition reordered (p p' : Pattern Literal) : Prop :=
  attrs p' = attrs p /\ fits ChunkSize p' = fits ChunkSize p.

(** The number of chunks of an entry collection: the count of entries over
    [ChunkSize], rounded up. *)
Definition chunkTotal (entries : list (Pattern Literal)) : N :=
  (getEntryCount entries + ChunkSize - 1) / ChunkSize.

Local Open Scope draw_scope.

(** The loop of [drawArray] unrolled, for a node whose disclosure count
    is [d]: the body of the [else] branch [count] times, starting with
    chunk number [k], then the body of the [if] branch if there are more
    chunks than [d], and nothing after it. *)
Fixpoint paginate (fn : Pattern Literal -> Draw Literal unit)
    (pattern : Attrs Literal) (entries : list (Pattern Literal)) (d : N)
    (count : nat) (k : N) : Draw Literal unit :=
  match count with
  | O =>
      when (d <? chunkTotal entries)
        (call TableNextRow ;;
         call TableNextColumn ;;
         drawArray_placeholder pattern d)
  | S count' =>
      call TableNextRow ;;
      call TableNextColumn ;;
      drawArray_chunk ChunkSize fn pattern entries (k * ChunkSize) ;;
      paginate fn pattern entries d count' (k + 1)
  end.

(** What [std::sort] promises about its result, whatever its algorithm:
    no element is followed by one that the comparator places before it. *)
Fixpoint is_sorted {A} (comp : A -> A -> bool) (range : list A) : bool :=
  match range with
  | x :: ((y :: _) as rest) => negb (comp y x) && is_sorted comp rest
  | _ => true
  end.

(** The disclosure count of a node: what [getDisplayEnd] returns for it. *)
Definition revealed s (pattern : Attrs Literal) : N :=
  match m_displayEnd s !! addr pattern with
  | Some value => value
  | None => DisplayEndDefault
  end.

(** A world in which every question is answered yes: every tree node is
    open, and every row is hovered, clicked and double-clicked. *)
Definition eager w : Prop := forall n, answer w n = true.

(** A callback that draws nothing: the loop of [drawArray] run with it
    shows the rows the loop itself starts. *)
Definition silent (entry : Pattern Literal) : Draw Literal unit := ret tt.

(** The same node drawn once per frame, in the worlds of [frames]. *)
Fixpoint draw_repeat (p : Pattern Literal) (frames : list World) s
  : option (State Literal) :=
  match frames with
  | [] => Some s
  | w :: rest =>
      match draw ChunkSize p w s with
      | Some (_, s', _) => draw_repeat p rest s'
      | None => None
      end
  end.

(** Computations that start no table row. *)
Definition rowless {A} (m : Draw Literal A) : Prop :=
  forall w s x s' t, m w s = Some (x, s', t) -> rows t = 0%nat.

(** The outcome of [beginPatternTable], case by case. *)
Definition table_outcome (patterns : list (Pattern Literal)) w s s' t
  : Prop :=
  if answer w (asked s) then
    match patterns with
    | [] =>
        m_sortedPatterns s' = []
        /\ SpecsDirty (sortSpecs s') = SpecsDirty (sortSpecs s)
        /\ comparisons t = 0%nat
    | _ :: _ =>
        if SpecsDirty (sortSpecs s) || is_empty (m_sortedPatterns s) then
          SpecsDirty (sortSpecs s') = false
          /\ length (m_sortedPatterns s') = length patterns
          /\ forallb (fits ChunkSize) (m_sortedPatterns s')
             = forallb (fits ChunkSize) patterns
        else
          m_sortedPatterns s' = m_sortedPatterns s
          /\ sortSpecs s' = sortSpecs s
          /\ comparisons t = 0%nat
    end
  else
    m_sortedPatterns s' = m_sortedPatterns s
    /\ sortSpecs s' = sortSpecs s
    /\ comparisons t = 0%nat.

(** The side condition of the array loop: that of its callback, a positive
    chunk size and [headroom]. *)
Definition loop_guard (G : Prop) (entries : list (Pattern Literal)) : Prop :=
  G /\ 0 < ChunkSize /\ headroom ChunkSize entries.

(** ** The pagination of the specification *)

(** The definitions of this part follow the words of the specification,
    not the loop of [drawArray]; the properties below compare the two. *)

(** The entries of chunk number [k]: [ChunkSize] entries from entry
    [k * ChunkSize] on, or as many as are left. *)
Definition specified_chunkEntries (entries : list (Pattern Literal)) (k : N)
  : list (Pattern Literal) :=
  take (N.to_nat ChunkSize) (drop (N.to_nat (k * ChunkSize)) entries).

(** The chunk-summary row of chunk number [k] of the node [pattern], whose
    entries are [chunk]: a tree node labelled with the indices of the
    first and of the last entry of the chunk, the colour swatch, the byte
    range from the offset of the first entry to the end of the last one,
    the size of that range, the type name with the number of entries of
    the chunk in brackets, and the value [[ ... ]].  The row is expandable
    on its own: when it is open, every entry of the chunk is drawn through
    the dispatcher [fn], and the tree node is popped.  Offsets and sizes
    are 64-bit, as in the source. *)
Definition specified_chunkSummaryRow
    (fn : Pattern Literal -> Draw Literal unit) (pattern : Attrs Literal)
    (k : N) (chunk : list (Pattern Literal)) : Draw Literal unit :=
  match chunk with
  | [] => ret tt
  | first :: _ =>
      let last := List.last chunk first in
      let firstIndex := k * ChunkSize in
      let lastIndex := firstIndex + N.of_nat (length chunk) - 1 in
      let startOffset := getOffset (attrs first) in
      let endOffset := getOffset (attrs last) in
      let endSize := getSize (attrs last) in
      let rangeSize := wrap64 (sub64 endOffset startOffset + endSize) in
      call TableNextRow ;;
      call TableNextColumn ;;
      open <-
        highlightWhenSelected startOffset
          (sub64 (sub64 (wrap64 (endOffset + endSize)) startOffset) 1)
          (query (TreeNodeEx "[{} ... {}]"
                    [ArgU64 firstIndex; ArgU64 lastIndex] SpanFullWidth)) ;;
      call TableNextColumn ;;
      call (ColorButton (getColor pattern)) ;;
      call TableNextColumn ;;
      call (TextFormatted "0x{0:08X} : 0x{1:08X}"
              [ArgU64 startOffset;
               ArgU64 (sub64 (wrap64 (startOffset + rangeSize))
                             (if getSize pattern =? 0 then 0 else 1))]) ;;
      call TableNextColumn ;;
      call (TextFormatted "0x{0:04X}" [ArgU64 rangeSize]) ;;
      call TableNextColumn ;;
      call (TextFormattedColored 0xFF9BC64D "{0}"
              [ArgStr (getTypeName pattern)]) ;;
      call SameLine00 ;;
      call (TextUnformatted "[") ;;
      call SameLine00 ;;
      call (TextFormattedColored 0xFF00FF00 "{0}"
              [ArgU64 (N.of_nat (length chunk))]) ;;
      call SameLine00 ;;
      call (TextUnformatted "]") ;;
      call TableNextColumn ;;
      call (TextFormatted "[ ... ]" []) ;;
      when open
        (ignore (for_each fn chunk) ;;
         call TreePop)
  end.

(** The chunk-summary rows of [count] chunks, from chunk number [k] on. *)
Fixpoint specified_chunkSummaryRows
    (fn : Pattern Literal -> Draw Literal unit) (pattern : Attrs Literal)
    (entries : list (Pattern Literal)) (count : nat) (k : N)
  : Draw Literal unit :=
  match count with
  | O => ret tt
  | S count' =>
      specified_chunkSummaryRow fn pattern k
        (specified_chunkEntries entries k) ;;
      specified_chunkSummaryRows fn pattern entries count' (k + 1)
  end.

(** The terminal placeholder row of a node that reveals [d] chunks: a
    double-click on it, which takes the row to be hovered, increments the
    disclosure count of the node by the step. *)
Definition specified_placeholderRow (pattern : Attrs Literal) (d : N)
  : Draw Literal unit :=
  call TableNextRow ;;
  call TableNextColumn ;;
  call (Selectable "... ({})"
          [ArgLang "hex.builtin.pattern_drawer.double_click"]
          SpanAllColumns) ;;
  hovered <- query IsItemHovered ;;
  doubleClicked <- (if hovered then query IsMouseDoubleClicked
                    else ret false) ;;
  when doubleClicked (assignDisplayEnd pattern (d + DisplayEndStep)).

(** The rows below the header of an open array: with [d] the disclosure
    count of the node, read and created with the default if the node has
    none, the chunk-summary rows of the first [min (chunks, d)] chunks,
    then the placeholder row if there are more than [d] chunks, and
    nothing past it. *)
Definition specified_pagination (fn : Pattern Literal -> Draw Literal unit)
    (pattern : Attrs Literal) (entries : list (Pattern Literal))
  : Draw Literal unit :=
  d <- getDisplayEnd pattern ;;
  let chunks := chunkTotal entries in
  specified_chunkSummaryRows fn pattern entries
    (N.to_nat (N.min chunks d)) 0 ;;
  when (d <? chunks) (specified_placeholderRow pattern d).

(** The paging rows the specification has for [count] entries of which
    [d] chunks are revealed: the chunks [0] to [min (chunks, d) - 1] with
    the indices of their first and last entry, then the placeholder if
    there are more than [d] chunks. *)
Definition chunkBounds (count k : N) : N * N :=
  (k * ChunkSize, N.min count ((k + 1) * ChunkSize) - 1).

Definition expectedPagers (entries : list (Pattern Literal)) (d : N)
  : list (option (N * N)) :=
  let chunks := chunkTotal entries in
  map (fun k => Some (chunkBounds (getEntryCount entries) (N.of_nat k)))
    (seq 0 (N.to_nat (N.min chunks d)))
  ++ (if d <? chunks then [None] else []).

End Vocabulary.

(** Between two frames the toolkit may replace the sort specification. *)
Definition set_sortSpecs {Literal} (s : State Literal)
    (specs : ImGuiTableSortSpecs) : State Literal :=
  {| m_displayEnd := m_displayEnd s;
     m_sortedPatterns := m_sortedPatterns s;
     sortSpecs := specs;
     asked := asked s |}.

(** One frame of the application: the world, the sort specification the
    toolkit presents and the root nodes handed to the drawer. *)
Record Frame (Literal : Type) : Type := {
  frame_world : World;
  frame_specs : ImGuiTableSortSpecs;
  frame_patterns : list (Pattern Literal)
}.
Arguments frame_world {Literal}.
Arguments frame_specs {Literal}.
Arguments frame_patterns {Literal}.

Section Frames.

Context {Literal : Type}.
Variable Literal_gtb : Literal -> Literal -> bool.
Variable Literal_ltb : Literal -> Literal -> bool.
Variable GetID : string -> N.
Variable ChunkSize : N.

(** The top-level draw, frame after frame, on one drawer instance. *)
Fixpoint draw_frames (frames : list (Frame Literal)) (s : State Literal)
  : option (State Literal) :=
  match frames with
  | [] => Some s
  | f :: rest =>
      match draw_patterns Literal_gtb Literal_ltb GetID ChunkSize
              (frame_patterns f) (frame_world f)
              (set_sortSpecs s (frame_specs f)) with
      | Some (_, s', _) => draw_frames rest s'
      | None => None
      end
  end.

End Frames.

(** ** The toolkit's stacks *)

(** An entry of the toolkit's ID stack: pushed by [PushID], or pushed by a
    tree node that was open. *)
Inductive IdFrame : Type :=
| IdPushed
| TreePushed.

(** The stacks the drawer pushes to and pops from: the ID stack, and the
    depths of the style colour stack, of the open tooltips and of the open
    tables. *)
Record Stacks : Type := {
  ids : list IdFrame;
  colors : nat;
  tooltips : nat;
  tables : nat
}.

(** The calls whose [bool] result the drawer reads. *)
Definition asks (c : Call) : bool :=
  match c with
  | BeginTable
  | TreeNodeEx _ _ SpanFullWidth
  | Selectable _ _ SpanAllColumns_AllowOverlap
  | IsItemHovered
  | IsMouseDoubleClicked => true
  | _ => false
  end.

(** The stacks with one more open tree node, if [open]. *)
Definition treeOpened (open : bool) (k : Stacks) : Stacks :=
  if open
  then {| ids := TreePushed :: ids k; colors := colors k;
          tooltips := tooltips k; tables := tables k |}
  else k.

(** The stacks with one more open table, if [yes]. *)
Definition tableBegun (yes : bool) (k : Stacks) : Stacks :=
  if yes
  then {| ids := ids k; colors := colors k;
          tooltips := tooltips k; tables := S (tables k) |}
  else k.

(** What a call does to the stacks, given the answer the toolkit gave to
    it; [None] is a pop that finds nothing of its kind to pop.  A tree
    node pushes when it is open, unless it is a leaf drawn with
    [NoTreePushOnOpen]; a table is begun when [BeginTable] says so. *)
Definition effect (c : Call) (yes : bool) (k : Stacks) : option Stacks :=
  match c with
  | BeginTable => Some (tableBegun yes k)
  | EndTable =>
      match tables k with
      | S n => Some {| ids := ids k; colors := colors k;
                       tooltips := tooltips k; tables := n |}
      | O => None
      end
  | TreeNodeEx _ _ SpanFullWidth => Some (treeOpened yes k)
  | TreePop =>
      match ids k with
      | TreePushed :: rest =>
          Some {| ids := rest; colors := colors k;
                  tooltips := tooltips k; tables := tables k |}
      | _ => None
      end
  | PushIDInt _ | PushIDStr _ =>
      Some {| ids := IdPushed :: ids k; colors := colors k;
              tooltips := tooltips k; tables := tables k |}
  | PopID =>
      match ids k with
      | IdPushed :: rest =>
          Some {| ids := rest; colors := colors k;
                  tooltips := tooltips k; tables := tables k |}
      | _ => None
      end
  | PushStyleColor =>
      Some {| ids := ids k; colors := S (colors k);
              tooltips := tooltips k; tables := tables k |}
  | PopStyleColor =>
      match colors k with
      | S n => Some {| ids := ids k; colors := n;
                       tooltips := tooltips k; tables := tables k |}
      | O => None
      end
  | BeginTooltip =>
      Some {| ids := ids k; colors := colors k;
              tooltips := S (tooltips k); tables := tables k |}
  | EndTooltip =>
      match tooltips k with
      | S n => Some {| ids := ids k; colors := colors k;
                       tooltips := n; tables := tables k |}
      | O => None
      end
  | _ => Some k
  end.

(** The stacks after the calls of a trace, made in a world whose tape
    stands at question [n]; the result carries the position the tape has
    reached. *)
Fixpoint replay (w : World) (t : list Call) (n : nat) (k : Stacks)
  : option (nat * Stacks) :=
  match t with
  | [] => Some (n, k)
  | c :: rest =>
      match effect c (answer w n) k with
      | Some k' => replay w rest (if asks c then S n else n) k'
      | None => None
      end
  end.

(** A call that asks nothing and leaves the stacks alone. *)
Definition quiet (c : Call) : Prop :=
  asks c = false /\ forall yes k, effect c yes k = Some k.

(** ** Reveal-more actions *)

(** The position the tape has reached after the calls of a trace that
    began at position [n]. *)
Fixpoint tape (t : list Call) (n : nat) : nat :=
  match t with
  | [] => n
  | c :: rest => tape rest (if asks c then S n else n)
  end.

(** For every placeholder row of a trace that began at position [n] of
    the tape, in order: whether the row was double-clicked, that is,
    whether the toolkit answered yes to the two questions that follow the
    row, is it hovered and was the mouse double-clicked. *)
Fixpoint doubleClicks (w : World) (t : list Call) (n : nat) : list bool :=
  match t with
  | [] => []
  | c :: rest =>
      if isPlaceholder c
      then (answer w n && answer w (S n)) :: doubleClicks w rest n
      else doubleClicks w rest (if asks c then S n else n)
  end.

Section Reveals.

Context {Literal : Type}.
Variable ChunkSize : N.

(** Whether the frame that drew the array [pattern] over [entries] from
    the state [s] in the world [w], with the trace [t], saw a reveal-more
    action on the node: the node has more chunks than it reveals, and its
    placeholder row, which is the last placeholder row of the frame, was
    double-clicked. *)
Definition revealAction (pattern : Attrs Literal)
    (entries : list (Pattern Literal)) (w : World) (s : State Literal)
    (t : list Call) : bool :=
  (revealed s pattern <? chunkTotal ChunkSize entries)
  && List.last (doubleClicks w t (asked s)) false.

(** The number of reveal-more actions on the node over the frames in which
    [p] is drawn, one frame per world. *)
Fixpoint revealActions (p : Pattern Literal) (pattern : Attrs Literal)
    (entries : list (Pattern Literal)) (frames : list World)
    (s : State Literal) : nat :=
  match frames with
  | [] => 0
  | w :: rest =>
      match draw ChunkSize p w s with
      | Some (_, s', t) =>
          ((if revealAction pattern entries w s t then 1 else 0)
           + revealActions p pattern entries rest s')%nat
      | None => 0%nat
      end
  end.

End Reveals.

(** ** Further observations *)

(** The byte ranges of a node and of everything below it, as pairs of an
    offset and a size. *)
Fixpoint ranges {Literal} (p : Pattern Literal) : list (N * N) :=
  (getOffset (attrs p), getSize (attrs p))
  :: match p with
     | PatternArrayDynamic _ l | PatternArrayStatic _ l | PatternBitfield _ l
     | PatternStruct _ l | PatternUnion _ l => flat_map ranges l
     | PatternPointer _ q => ranges q
     | _ => []
     end.

(** A call that, if it sets the selection of the editor, sets it to one
    of the ranges [allowed]. *)
Definition selectsWithin (allowed : list (N * N)) (c : Call) : Prop :=
  forall address size,
    c = SetSelection address size -> In (address, size) allowed.


Definition isTreePop (c : Call) : bool :=
  match c with
  | TreePop => true
  | _ => false
  end.

(** The composite nodes that carry [a]: a struct, a union and a bitfield
    over [children], a pointer to [child], and the two arrays over
    [child :: children]. *)
Definition composites {Literal} (a : Attrs Literal)
    (child : Pattern Literal) (children : list (Pattern Literal))
  : list (Pattern Literal) :=
  [PatternStruct a children; PatternUnion a children;
   PatternBitfield a children; PatternPointer a child;
   PatternArrayDynamic a (child :: children);
   PatternArrayStatic a (child :: children)].

(** What [std::sort] requires of its comparator: a strict weak ordering,
    that is, no element comes before itself, coming before is transitive,
    and so is being unordered either way. *)
Record StrictWeakOrder {A} (lt : A -> A -> bool) : Prop := {
  swo_irreflexive : forall x, lt x x = false;
  swo_transitive : forall x y z,
    lt x y = true -> lt y z = true -> lt x z = true;
  swo_equivalence : forall x y z,
    lt x y = false -> lt y x = false ->
    lt y z = false -> lt z y = false ->
    lt x z = false /\ lt z x = false
}.

(** The columns the table sorts by number, with the attribute each one
    compares. *)
Definition numberColumns {Literal} : list (string * (Attrs Literal -> N)) :=
  [("offset"%string, getOffset); ("size"%string, getSize);
   ("color"%string, getColor)].

(** The names the table gives to [ImGui::GetID], in the order
    [sortPatterns] tests them. *)
Definition columnNames : list string :=
  ["name"; "offset"; "size"; "value"; "type"; "color"]%string.

Section Tracking.

Context {Literal : Type}.

(** [tracks pre post m]: a run of [m] that starts with the stacks at
    [pre k] pops nothing that is not there and ends with them at
    [post x k], [x] being its result. *)
Definition tracks {A} (pre : Stacks -> Stacks) (post : A -> Stacks -> Stacks)
    (m : Draw Literal A) : Prop :=
  forall w s x s' t, m w s = Some (x, s', t) ->
    forall k, replay w t (asked s) (pre k) = Some (asked s', post x k).

(** A computation that leaves every stack as it found it. *)
Definition balanced {A} (m : Draw Literal A) : Prop :=
  forall pre, tracks pre (fun _ => pre) m.

(** A computation that returns whether a tree node was opened, and has
    pushed it then. *)
Definition opens (m : Draw Literal bool) : Prop :=
  forall pre, tracks pre (fun open k => treeOpened open (pre k)) m.

(** A computation all of whose calls satisfy [P]. *)
Definition emits (P : Call -> Prop) {A} (m : Draw Literal A) : Prop :=
  forall w s x s' t, m w s = Some (x, s', t) -> Forall P t.

(** Two computations with the same outcome in every world and state. *)
Definition same {A} (m m' : Draw Literal A) : Prop :=
  forall w s, m w s = m' w s.

(** [pages l m]: the paging rows of every run of [m] are [l]. *)
Definition pages {A} (l : list (option (N * N))) (m : Draw Literal A)
  : Prop :=
  forall w s x s' t, m w s = Some (x, s', t) -> pagers t = l.

End Tracking.

(** ** Fixtures *)

(** A stand-in for the toolkit's hash, to run the model on examples: the
    characters of the name folded into a multiplicative hash. *)
Definition example_GetID (name : string) : N :=
  fold_left (fun h c => (h * 31 + N.of_nat (nat_of_ascii c)) mod 2 ^ 32)
    (list_ascii_of_string name) 7.

(** A node whose value is an integer literal. *)
Definition example_node (address offset size : N) (name : string)
  : Attrs Z :=
  {| addr := address;
     getOffset := offset;
     getSize := size;
     getDisplayName := name;
     getVariableName := name;
     getTypeName := "u8";
     getFormattedName := "";
     getFormattedValue := "0";
     getComment := "";
     getColor := 0xFF0000FF;
     getValue := 0%Z;
     isHidden := false;
     isSealed := false;
     isInlined := false |}.

Definition with_flags (a : Attrs Z) (hidden sealed inlined : bool)
  : Attrs Z :=
  {| addr := addr a;
     getOffset := getOffset a;
     getSize := getSize a;
     getDisplayName := getDisplayName a;
     getVariableName := getVariableName a;
     getTypeName := getTypeName a;
     getFormattedName := getFormattedName a;
     getFormattedValue := getFormattedValue a;
     getComment := getComment a;
     getColor := getColor a;
     getValue := getValue a;
     isHidden := hidden;
     isSealed := sealed;
     isInlined := inlined |}.

(** Entries [first .. first + count - 1] of an array of bytes that starts
    at offset [base]; entry [i] lives at address [1000 + i]. *)
Fixpoint example_entries (base first : N) (count : nat)
  : list (Pattern Z) :=
  match count with
  | O => []
  | S count' =>
      PatternUnsigned (example_node (1000 + first) (base + first) 1 "entry")
      :: example_entries base (first + 1) count'
  end.

(** A world with no selection in which the only yes is the answer to
    question number [shown]: when that is the question of [BeginTable],
    the table is shown, every tree node is closed and nothing is hovered. *)
Definition example_idle_from (shown : nat) : World :=
  {| currSelection := None; answer := fun n => Nat.eqb n shown |}.

Definition example_idle : World := example_idle_from 0.

(** A world with no selection in which every question is answered yes:
    every tree node is open and every row is hovered and double-clicked. *)
Definition example_clicking : World :=
  {| currSelection := None; answer := fun _ => true |}.

Definition example_selecting (address size : N) : World :=
  {| currSelection := Some (Region.mk address size);
     answer := fun _ => false |}.

Definition example_specs (column : string) (direction : ImGuiSortDirection)
    (dirty : bool) : ImGuiTableSortSpecs :=
  {| Specs := {| ColumnUserID := example_GetID column;
                 SortDirection := direction |};
     SpecsDirty := dirty |}.

(** A drawer that has drawn nothing yet. *)
Definition example_start (specs : ImGuiTableSortSpecs) : State Z :=
  {| m_displayEnd := ∅;
     m_sortedPatterns := [];
     sortSpecs := specs;
     asked := 0 |}.

Definition example_state (displayEnd : gmap N N) : State Z :=
  {| m_displayEnd := displayEnd;
     m_sortedPatterns := [];
     sortSpecs := example_specs "offset" ImGuiSortDirection_Ascending false;
     asked := 0 |}.

(** The nodes, specifications and frames of the instances below. *)

Definition example_a10 : Attrs Z := example_node 1 10 1 "a".
Definition example_a5 : Attrs Z := example_node 2 5 1 "b".
Definition example_a20 : Attrs Z := example_node 3 20 1 "c".

Definition example_roots : list (Pattern Z) :=
  [PatternUnsigned example_a10; PatternUnsigned example_a5;
   PatternUnsigned example_a20].

Definition example_ascending : ImGuiTableSortSpecs :=
  example_specs "offset" ImGuiSortDirection_Ascending true.

Definition example_array : Attrs Z := example_node 1 0 120 "data".
Definition example_120 : list (Pattern Z) := example_entries 0 0 120.

Definition example_hidden_struct : Pattern Z :=
  PatternStruct (with_flags (example_node 1 0 2 "header") true false false)
    [PatternUnsigned (example_node 2 0 1 "x");
     PatternUnsigned (example_node 3 1 1 "y")].

Definition example_header : Attrs Z := example_node 1 0 16 "header".

Definition example_hidden_target : Pattern Z :=
  PatternUnsigned (with_flags (example_node 2 64 4 "target") true false false).

Definition example_pointer (inlined : bool) : Pattern Z :=
  PatternPointer (with_flags (example_node 1 0 8 "ptr") false false inlined)
    example_hidden_target.

Definition example_paged : Pattern Z :=
  PatternArrayDynamic example_array example_120.

Definition example_frame : Frame Z :=
  {| frame_world := example_idle;
     frame_specs := example_ascending;
     frame_patterns := [example_paged] |}.

(** A struct over a byte and an array of three bytes. *)
Definition example_tree : Pattern Z :=
  PatternStruct example_header
    [PatternUnsigned example_a10;
     PatternArrayStatic (example_node 4 11 3 "bytes") (example_entries 11 0 3)].

(** A struct that is drawn in the place of its parent. *)
Definition example_inlined : Attrs Z :=
  with_flags example_header false false true.

(** The byte at the highest address a [u64] can hold. *)
Definition example_last : Attrs Z :=
  example_node 5 (u64_modulus - 1) 1 "last".

(** The stacks before the first call of a frame. *)
Definition example_stacks : Stacks :=
  {| ids := []; colors := 0; tooltips := 0; tables := 0 |}.

(** An array of three bytes, all hidden. *)
Definition example_hidden_bytes : list (Pattern Z) :=
  [PatternUnsigned (with_flags (example_node 11 0 1 "h0") true false false);
   PatternUnsigned (with_flags (example_node 12 1 1 "h1") true false false);
   PatternUnsigned (with_flags (example_node 13 2 1 "h2") true false false)].

(** * Properties *)

Section Properties.

Context {Literal : Type}.
Variable ChunkSize : N.

Local Open Scope draw_scope.

Implicit Types (s : State Literal) (w : World) (t : list Call) (K : gset N).

(** ** What a draw may do to the state *)

Lemma comparisons_app t1 t2 :
  comparisons (t1 ++ t2) = (comparisons t1 + comparisons t2)%nat.
Proof. unfold comparisons. now rewrite filter_app, length_app. Qed.

Lemma rows_app t1 t2 : rows (t1 ++ t2) = (rows t1 + rows t2)%nat.
Proof. unfold rows. now rewrite filter_app, length_app. Qed.

Lemma grows_refl v : grows v v.
Proof. exists 0. lia. Qed.

Lemma grows_trans v1 v2 v3 : grows v1 v2 -> grows v2 v3 -> grows v1 v3.
Proof. intros [j ->] [j' ->]. exists (j + j'). lia. Qed.

Lemma grows_one v : grows v (v + DisplayEndStep).
Proof. exists 1. lia. Qed.

Lemma grows_le v v' : grows v v' -> v <= v'.
Proof. intros [j ->]. lia. Qed.

Lemma Inv_same K s t : comparisons t = 0%nat -> Inv K s s t.
Proof.
  intros Ht. split; auto.
  intros k v H. exists v. split; [exact H | apply grows_refl].
Qed.

Lemma Inv_refl K s : Inv K s s [].
Proof. now apply Inv_same. Qed.

Lemma Inv_trans K s1 s2 s3 t1 t2 :
  Inv K s1 s2 t1 -> Inv K s2 s3 t2 -> Inv K s1 s3 (t1 ++ t2).
Proof.
  intros [a1 b1 c1 d1 e1 f1 g1] [a2 b2 c2 d2 e2 f2 g2]. split.
  - congruence.
  - congruence.
  - lia.
  - rewrite comparisons_app. lia.
  - intros k Hk. rewrite e2, e1; auto.
  - intros k v Hv. destruct (f1 k v Hv) as (v' & Hv' & G1).
    destruct (f2 k v' Hv') as (v'' & Hv'' & G2).
    exists v''. split; [exact Hv'' | eapply grows_trans; eauto].
  - intros k Hk. destruct (g1 k Hk) as [Hn | (v' & Hv' & G1)].
    + apply g2, Hn.
    + right. destruct (f2 k v' Hv') as (v'' & Hv'' & G2).
      exists v''. split; [exact Hv'' | eapply grows_trans; eauto].
Qed.

Lemma Inv_mono K K' s s' t : K ⊆ K' -> Inv K s s' t -> Inv K' s s' t.
Proof.
  intros HK [a b c d e f g]. split; auto.
Qed.

(** A state that differs from [s] in the tape position only. *)
Lemma Inv_asked K s n t :
  comparisons t = 0%nat -> (asked s <= n)%nat ->
  Inv K s {| m_displayEnd := m_displayEnd s;
             m_sortedPatterns := m_sortedPatterns s;
             sortSpecs := sortSpecs s;
             asked := n |} t.
Proof.
  intros Ht Hn. split; cbn; auto.
  intros k v H. exists v. split; [exact H | apply grows_refl].
Qed.

(** A reveal step on an entry that holds [d]. *)
Lemma Inv_reveal K (a : Attrs Literal) d s n t :
  addr a ∈ K -> m_displayEnd s !! addr a = Some d ->
  (asked s <= n)%nat -> comparisons t = 0%nat ->
  Inv K s
    (set_displayEnd
       {| m_displayEnd := m_displayEnd s;
          m_sortedPatterns := m_sortedPatterns s;
          sortSpecs := sortSpecs s;
          asked := n |}
       (<[addr a := d + DisplayEndStep]> (m_displayEnd s))) t.
Proof.
  intros HK Hd Hn Ht. split; cbn; auto.
  - intros k Hk. apply lookup_insert_ne. set_solver.
  - intros k v Hv. destruct (decide (k = addr a)) as [-> | Hne].
    + rewrite lookup_insert_eq. eexists. split; [reflexivity |].
      replace v with d by congruence. apply grows_one.
    + exists v. rewrite lookup_insert_ne by congruence.
      split; [exact Hv | apply grows_refl].
  - intros k Hk. left. rewrite lookup_insert_ne; congruence.
Qed.

(** ** Specifications of computations *)

Lemma Keeps_same s t : comparisons t = 0%nat -> Keeps s s t.
Proof. now split. Qed.

Lemma Keeps_trans s1 s2 s3 t1 t2 :
  Keeps s1 s2 t1 -> Keeps s2 s3 t2 -> Keeps s1 s3 (t1 ++ t2).
Proof.
  intros [a1 b1 c1] [a2 b2 c2]. split; [congruence | congruence |].
  rewrite comparisons_app. lia.
Qed.

Lemma Inv_Keeps K s s' t : Inv K s s' t -> Keeps s s' t.
Proof. intros [a b c d e f g]. now split. Qed.

Lemma spec_weaken (G G' : Prop) K K' {A} (m : Draw Literal A) :
  (G' -> G) -> K ⊆ K' -> spec G K m -> spec G' K' m.
Proof.
  intros HG HK [Hk H]. split; [exact Hk |]. intros g w s.
  destruct (H (HG g) w s) as (x & s' & t & E & I).
  exists x, s', t. split; [exact E | eapply Inv_mono; eauto].
Qed.

Lemma spec_ret G K {A} (x : A) : spec G K (ret (Literal:=Literal) x).
Proof.
  split.
  - intros w s y s' t [= <- <- <-]. now apply Keeps_same.
  - intros _ w s. exists x, s, []. split; [reflexivity | apply Inv_refl].
Qed.

Lemma spec_call G K c :
  isSortPatterns c = false -> spec G K (call (Literal:=Literal) c).
Proof.
  intros Hc.
  assert (Ht : comparisons [c] = 0%nat).
  { unfold comparisons; cbn. now rewrite Hc. }
  split.
  - intros w s y s' t [= <- <- <-]. now apply Keeps_same.
  - intros _ w s. exists tt, s, [c]. split; [reflexivity |].
    now apply Inv_same.
Qed.

Lemma spec_query G K c :
  isSortPatterns c = false -> spec G K (query (Literal:=Literal) c).
Proof.
  intros Hc.
  assert (Ht : comparisons [c] = 0%nat).
  { unfold comparisons; cbn. now rewrite Hc. }
  split.
  - intros w s y s' t [= <- <- <-]. now split.
  - intros _ w s. eexists _, _, _. split; [reflexivity |].
    apply Inv_asked; [exact Ht | lia].
Qed.

Lemma spec_diverge K {A} : spec False K (@diverge Literal A).
Proof. split; [discriminate | intros []]. Qed.

Lemma spec_bind G K {A B} (m : Draw Literal A) (f : A -> Draw Literal B) :
  spec G K m -> (forall x, spec G K (f x)) -> spec G K (bind m f).
Proof.
  intros [Km Hm] Hf. split.
  - intros w s y s' t. unfold bind.
    destruct (m w s) as [[[x s1] t1] |] eqn:E1; [| discriminate].
    destruct (f x w s1) as [[[y' s2] t2] |] eqn:E2; [| discriminate].
    intros [= <- <- <-].
    eapply Keeps_trans; [eapply Km; eauto | eapply (proj1 (Hf x)); eauto].
  - intros g w s. unfold bind.
    destruct (Hm g w s) as (x & s1 & t1 & E1 & I1). rewrite E1.
    destruct (proj2 (Hf x) g w s1) as (y & s2 & t2 & E2 & I2). rewrite E2.
    exists y, s2, (t1 ++ t2). split; [reflexivity | eapply Inv_trans; eauto].
Qed.

Lemma spec_ignore G K {A} (m : Draw Literal A) :
  spec G K m -> spec G K (ignore m).
Proof.
  intros [Km Hm]. split.
  - intros w s y s' t. unfold ignore.
    destruct (m w s) as [[[x s1] t1] |] eqn:E1; [| discriminate].
    intros [= <- <- <-]. eauto.
  - intros g w s. unfold ignore.
    destruct (Hm g w s) as (x & s1 & t1 & E1 & I1). rewrite E1.
    now exists tt, s1, t1.
Qed.

Lemma spec_when G K b (m : Draw Literal unit) :
  spec G K m -> spec G K (when b m).
Proof. intros H. destruct b; [exact H | apply spec_ret]. Qed.

Lemma spec_deref (G : Prop) K {A} (o : option A) :
  (G -> is_Some o) -> spec G K (deref (Literal:=Literal) o).
Proof.
  intros H. destruct o as [x |]; cbn.
  - apply spec_ret.
  - split; [discriminate |]. intros g. destruct (H g) as [? [=]].
Qed.

Create HintDb spec.

Ltac spec_step :=
  first
    [ apply spec_ret
    | apply spec_call; reflexivity
    | apply spec_query; reflexivity
    | apply spec_ignore
    | apply spec_when
    | solve [auto with spec]
    | apply spec_bind; [| intros ?]
    | match goal with
      | |- spec _ _ (if ?b then _ else _) => destruct b
      end ].

Ltac spec_auto := repeat spec_step.

Lemma spec_isPatternSelected G K address size :
  spec G K (isPatternSelected (Literal:=Literal) address size).
Proof.
  split.
  - intros w s x s' t. unfold isPatternSelected.
    destruct (currSelection w); intros [= <- <- <-]; now apply Keeps_same.
  - intros _ w s. unfold isPatternSelected.
    destruct (currSelection w); eexists _, _, _;
      (split; [reflexivity | apply Inv_refl]).
Qed.
#[local] Hint Resolve spec_isPatternSelected : spec.

Lemma spec_highlightWhenSelected G K {A} address size
    (callback : Draw Literal A) :
  spec G K callback -> spec G K (highlightWhenSelected address size callback).
Proof. intros H. unfold highlightWhenSelected. spec_auto. Qed.

Lemma spec_createLeafNode G K (a : Attrs Literal) : spec G K (createLeafNode a).
Proof. unfold createLeafNode. spec_auto. Qed.

Lemma spec_createTreeNode G K (a : Attrs Literal) : spec G K (createTreeNode a).
Proof. unfold createTreeNode. destruct (isSealed a); spec_auto. Qed.

Lemma spec_drawTypenameColumn G K (a : Attrs Literal) name :
  spec G K (drawTypenameColumn a name).
Proof. unfold drawTypenameColumn. spec_auto. Qed.

Lemma spec_drawNameColumn G K (a : Attrs Literal) : spec G K (drawNameColumn a).
Proof. unfold drawNameColumn. spec_auto. Qed.

Lemma spec_drawColorColumn G K (a : Attrs Literal) :
  spec G K (drawColorColumn a).
Proof. unfold drawColorColumn. spec_auto. Qed.

Lemma spec_drawOffsetColumn G K (a : Attrs Literal) :
  spec G K (drawOffsetColumn a).
Proof. unfold drawOffsetColumn. spec_auto. Qed.

Lemma spec_drawSizeColumn G K (a : Attrs Literal) : spec G K (drawSizeColumn a).
Proof. unfold drawSizeColumn. spec_auto. Qed.

Lemma spec_drawCommentTooltip G K (a : Attrs Literal) :
  spec G K (drawCommentTooltip a).
Proof. unfold drawCommentTooltip. spec_auto. Qed.

Lemma spec_makeSelectable G K (a : Attrs Literal) : spec G K (makeSelectable a).
Proof. unfold makeSelectable. spec_auto. Qed.

#[local] Hint Resolve spec_createLeafNode spec_createTreeNode
  spec_drawTypenameColumn spec_drawNameColumn spec_drawColorColumn
  spec_drawOffsetColumn spec_drawSizeColumn spec_drawCommentTooltip
  spec_makeSelectable : spec.

Lemma spec_createDefaultEntry G K (a : Attrs Literal) :
  spec G K (createDefaultEntry a).
Proof. unfold createDefaultEntry. spec_auto. Qed.

Lemma spec_visit_PatternBitfieldField G K (a : Attrs Literal) o z :
  spec G K (visit_PatternBitfieldField a o z).
Proof. unfold visit_PatternBitfieldField. spec_auto. Qed.

Lemma spec_visit_PatternEnum G K (a : Attrs Literal) :
  spec G K (visit_PatternEnum a).
Proof. unfold visit_PatternEnum. spec_auto. Qed.

Lemma spec_header_PatternBitfield G K (a : Attrs Literal) :
  spec G K (header_PatternBitfield a).
Proof. unfold header_PatternBitfield. spec_auto. Qed.

Lemma spec_header_PatternPointer G K (a : Attrs Literal) :
  spec G K (header_PatternPointer a).
Proof. unfold header_PatternPointer. spec_auto. Qed.

Lemma spec_header_PatternStruct G K (a : Attrs Literal) keyword :
  spec G K (header_PatternStruct a keyword).
Proof. unfold header_PatternStruct. spec_auto. Qed.

Lemma spec_drawArray_header G K (a : Attrs Literal) entries inlined :
  spec G K (drawArray_header a entries inlined).
Proof. unfold drawArray_header. spec_auto. Qed.

#[local] Hint Resolve spec_createDefaultEntry spec_visit_PatternBitfieldField
  spec_visit_PatternEnum spec_header_PatternBitfield
  spec_header_PatternPointer spec_header_PatternStruct
  spec_drawArray_header : spec.

(** ** Machine arithmetic in range *)

Lemma wrap64_small x : x < u64_modulus -> wrap64 x = x.
Proof. apply N.mod_small. Qed.

Lemma sub64_small a b : b <= a -> a < u64_modulus -> sub64 a b = a - b.
Proof.
  intros Hb Ha. unfold sub64.
  rewrite Z.mod_small by lia. lia.
Qed.

(** [k] chunks do not exhaust the entries exactly when [k] is below the
    number of chunks. *)
Lemma chunkTotal_lt (entries : list (Pattern Literal)) k :
  0 < ChunkSize ->
  k * ChunkSize < getEntryCount entries <-> k < chunkTotal ChunkSize entries.
Proof.
  intros HC. unfold chunkTotal.
  set (n := getEntryCount entries). split; intros H.
  - apply N.lt_le_trans with (k + 1); [lia |].
    apply N.div_le_lower_bound; lia.
  - pose proof (N.Div0.mul_div_le (n + ChunkSize - 1) ChunkSize). nia.
Qed.

Lemma chunkTotal_le (entries : list (Pattern Literal)) :
  0 < ChunkSize -> chunkTotal ChunkSize entries <= getEntryCount entries.
Proof.
  intros HC. unfold chunkTotal.
  set (n := getEntryCount entries).
  destruct (N.eq_dec n 0) as [-> | Hn].
  - rewrite N.add_0_l. rewrite N.div_small; lia.
  - apply N.lt_succ_r, N.Div0.div_lt_upper_bound. nia.
Qed.

(** ** The disclosure table *)

Lemma getDisplayEnd_result (a : Attrs Literal) w s :
  exists d s1,
    getDisplayEnd a w s = Some (d, s1, [])
    /\ m_displayEnd s1 !! addr a = Some d
    /\ Inv {[ addr a ]} s s1 []
    /\ (forall d0, m_displayEnd s !! addr a = Some d0 -> d = d0 /\ s1 = s)
    /\ (m_displayEnd s !! addr a = None -> d = DisplayEndDefault).
Proof.
  unfold getDisplayEnd.
  destruct (m_displayEnd s !! addr a) as [d |] eqn:E.
  - exists d, s. split; [reflexivity |]. split; [exact E |].
    split; [apply Inv_refl |]. split; [| discriminate].
    intros d0 [= ->]. now split.
  - eexists _, _. split; [reflexivity |]. cbn.
    split; [apply lookup_insert_eq |]. split; [| split; [discriminate | auto]].
    split; cbn; auto.
    + intros k Hk. apply lookup_insert_ne. set_solver.
    + intros k v Hv. exists v. split; [| apply grows_refl].
      rewrite lookup_insert_ne; congruence.
    + intros k Hk. destruct (decide (k = addr a)) as [-> | Hne].
      * right. exists DisplayEndDefault.
        split; [apply lookup_insert_eq | apply grows_refl].
      * left. rewrite lookup_insert_ne; congruence.
Qed.

Lemma getDisplayEnd_present (a : Attrs Literal) d w s :
  m_displayEnd s !! addr a = Some d -> getDisplayEnd a w s = Some (d, s, []).
Proof. intros H. unfold getDisplayEnd. now rewrite H. Qed.

Lemma spec_getDisplayEnd G K (a : Attrs Literal) :
  addr a ∈ K -> spec G K (getDisplayEnd a).
Proof.
  intros HK. split.
  - intros w s x s' t E.
    destruct (getDisplayEnd_result a w s) as (d & s1 & E1 & _ & I & _).
    rewrite E1 in E. injection E as <- <- <-. eapply Inv_Keeps, I.
  - intros _ w s.
    destruct (getDisplayEnd_result a w s) as (d & s1 & E1 & _ & I & _).
    exists d, s1, []. split; [exact E1 |].
    eapply Inv_mono; [| exact I]. set_solver.
Qed.

(** The placeholder row, spelled out: it always asks whether the row is
    hovered, asks about the double click only then, and takes a reveal
    step only when both answers are yes. *)
Lemma drawArray_placeholder_result (a : Attrs Literal) d w s :
  let hovered := answer w (asked s) in
  let clicked := hovered && answer w (S (asked s)) in
  let n := if hovered then S (S (asked s)) else S (asked s) in
  let s1 := {| m_displayEnd := m_displayEnd s;
               m_sortedPatterns := m_sortedPatterns s;
               sortSpecs := sortSpecs s;
               asked := n |} in
  exists t,
    drawArray_placeholder a d w s
    = Some (tt,
            (if clicked
             then set_displayEnd s1
                    (<[addr a := wrap64 (d + DisplayEndStep)]> (m_displayEnd s))
             else s1),
            t)
    /\ comparisons t = 0%nat /\ rows t = 0%nat.
Proof.
  unfold drawArray_placeholder, bind, ignore, query, when, ret,
    assignDisplayEnd.
  cbn.
  destruct (answer w (asked s)); cbn;
    [destruct (answer w (S (asked s))); cbn |];
    eexists; (split; [reflexivity | split; reflexivity]).
Qed.

Lemma drawArray_placeholder_Inv K (a : Attrs Literal) d w s :
  addr a ∈ K -> m_displayEnd s !! addr a = Some d ->
  d + DisplayEndStep < u64_modulus ->
  exists s' t, drawArray_placeholder a d w s = Some (tt, s', t)
               /\ Inv K s s' t.
Proof.
  intros HK Hd Hr.
  destruct (drawArray_placeholder_result a d w s) as (t & E & Ht & _).
  cbv zeta in E. eexists _, t. split; [exact E |].
  rewrite wrap64_small by exact Hr.
  destruct (answer w (asked s)); cbn;
    [destruct (answer w (S (asked s))); cbn |].
  - apply Inv_reveal; auto.
  - apply Inv_asked; [exact Ht | lia].
  - apply Inv_asked; [exact Ht | lia].
Qed.

(** The read of the entry followed by the test of the loop. *)
Lemma spec_displayEnd_branch (G : Prop) K (a : Attrs Literal) chunkCount
    (rest : Draw Literal unit) :
  addr a ∈ K -> (G -> chunkCount + DisplayEndStep <= u64_modulus) ->
  spec G K rest ->
  spec G K (displayEnd <- getDisplayEnd a ;;
            if displayEnd <? chunkCount
            then drawArray_placeholder a displayEnd
            else rest).
Proof.
  intros HK Hc [Kr Hr]. split.
  - intros w s x s' t. unfold bind.
    destruct (getDisplayEnd_result a w s) as (d & s1 & E1 & Hd & I & _).
    rewrite E1. destruct (d <? chunkCount).
    + destruct (drawArray_placeholder_result a d w s1) as (t2 & E2 & C2 & _).
      rewrite E2. intros [= <- <- <-].
      eapply (Keeps_trans s s1 _ [] t2); [eapply Inv_Keeps, I |].
      split; [| | exact C2]; destruct (_ && _); reflexivity.
    + destruct (rest w s1) as [[[u s2] t2] |] eqn:E2; [| discriminate].
      intros [= <- <- <-].
      eapply (Keeps_trans s s1 s2 [] t2); [eapply Inv_Keeps, I | eauto].
  - intros g w s. unfold bind.
    destruct (getDisplayEnd_result a w s) as (d & s1 & E1 & Hd & I & _).
    rewrite E1. destruct (N.ltb_spec d chunkCount) as [Hlt | Hge].
    + destruct (drawArray_placeholder_Inv K a d w s1)
        as (s2 & t2 & E2 & I2); auto.
      { specialize (Hc g). lia. }
      rewrite E2. exists tt, s2, ([] ++ t2). split; [reflexivity |].
      eapply Inv_trans; [| exact I2].
      eapply Inv_mono; [| exact I]. set_solver.
    + destruct (Hr g w s1) as (u & s2 & t2 & E2 & I2). rewrite E2.
      exists u, s2, ([] ++ t2). split; [reflexivity |].
      eapply Inv_trans; [| exact I2].
      eapply Inv_mono; [| exact I]. set_solver.
Qed.

(** ** Loops over entries *)

Lemma getEntry_Some (entries : list (Pattern Literal)) i :
  i < getEntryCount entries -> is_Some (getEntry entries i).
Proof.
  unfold getEntry, getEntryCount. intros H.
  apply lookup_lt_is_Some. lia.
Qed.

Section Entries.

Variable fn : Pattern Literal -> Draw Literal unit.
Variable G : Prop.
Variable K : gset N.

Lemma spec_forEachEntry_from start end_ entries :
  (forall e, In e entries -> spec G K (fn e)) ->
  forall index, spec G K (forEachEntry_from fn start end_ index entries).
Proof.
  induction entries as [| e rest IH]; intros H index; cbn.
  - apply spec_ret.
  - apply spec_bind.
    + apply spec_when, H. now left.
    + intros _. apply IH. intros e' He'. apply H. now right.
Qed.

Lemma spec_forEachEntry start end_ entries :
  (forall e, In e entries -> spec G K (fn e)) ->
  spec G K (forEachEntry fn entries start end_).
Proof. intros H. now apply spec_forEachEntry_from. Qed.

Variable a : Attrs Literal.
Variable entries : list (Pattern Literal).

Hypothesis fn_spec : forall e, In e entries -> spec G K (fn e).
Hypothesis a_in_K : addr a ∈ K.


Lemma spec_drawArray_chunk i :
  i < getEntryCount entries ->
  spec (loop_guard ChunkSize G entries) K (drawArray_chunk ChunkSize fn a entries i).
Proof using fn_spec.
  intros Hi. unfold drawArray_chunk.
  apply spec_bind; [apply spec_deref; intros _; now apply getEntry_Some |].
  intros first.
  apply spec_bind.
  { apply spec_deref. intros (_ & HC & HN). apply getEntry_Some.
    unfold headroom, DisplayEndStep in HN.
    rewrite wrap64_small by lia. rewrite sub64_small; lia. }
  intros last. cbn zeta.
  assert (spec (loop_guard ChunkSize G entries) K
            (forEachEntry fn entries i
               (N.min (getEntryCount entries) (wrap64 (i + ChunkSize))))).
  { eapply spec_weaken; [| | apply spec_forEachEntry, fn_spec];
      [unfold loop_guard; tauto | reflexivity]. }
  spec_auto.
Qed.

Lemma spec_drawArray_loop fuel : forall i chunkCount,
  spec (loop_guard ChunkSize G entries
        /\ getEntryCount entries <= i + N.of_nat fuel * ChunkSize
        /\ chunkCount <= i)
    K (drawArray_loop ChunkSize fn a entries fuel i chunkCount).
Proof using fn_spec a_in_K.
  induction fuel as [| fuel IH]; intros i chunkCount; cbn [drawArray_loop];
    destruct (N.ltb_spec i (getEntryCount entries)) as [Hi | Hi];
    try apply spec_ret.
  - eapply spec_weaken; [| reflexivity | apply spec_diverge]. lia.
  - apply spec_bind; [spec_auto |]. intros _.
    apply spec_bind; [spec_auto |]. intros _.
    assert (Hw : loop_guard ChunkSize G entries
                 /\ getEntryCount entries
                    <= i + N.of_nat (S fuel) * ChunkSize
                 /\ chunkCount <= i ->
                 wrap64 (chunkCount + 1) = chunkCount + 1
                 /\ wrap64 (i + ChunkSize) = i + ChunkSize).
    { intros ((_ & HC & HN) & _ & Hcc).
      unfold headroom, DisplayEndStep in HN.
      split; apply wrap64_small; lia. }
    apply spec_displayEnd_branch; [exact a_in_K | |].
    + intros g. destruct (Hw g) as [-> _].
      destruct g as ((_ & HC & HN) & _ & Hcc). unfold headroom in HN. lia.
    + apply spec_bind.
      * eapply spec_weaken; [| reflexivity | apply spec_drawArray_chunk, Hi].
        unfold loop_guard. tauto.
      * intros _. split; [apply (proj1 (IH _ _)) |].
        intros g. destruct (Hw g) as [-> ->]. apply (proj2 (IH _ _)).
        destruct g as (HGA & Hf & Hcc). split; [exact HGA |].
        destruct HGA as (_ & HC & _). lia.
Qed.

Lemma spec_drawArray inlined :
  spec (loop_guard ChunkSize G entries) K
    (drawArray ChunkSize fn a entries inlined).
Proof using fn_spec a_in_K.
  unfold drawArray. destruct (getEntryCount entries =? 0); [apply spec_ret |].
  apply spec_bind; [spec_auto |]. intros open.
  destruct open; [| apply spec_ret].
  apply spec_bind; [| intros _; spec_auto].
  eapply spec_weaken; [| reflexivity | apply spec_drawArray_loop].
  intros HGA. split; [exact HGA |]. destruct HGA as (_ & HC & _).
  unfold getEntryCount. nia.
Qed.

End Entries.

(** ** The visitor as a whole *)

Lemma list_all_In (P : Pattern Literal -> Prop) l :
  list_all (Pattern Literal) P l -> forall e, In e l -> P e.
Proof.
  induction 1 as [| e He l Hl IH]; intros e' [].
  - now subst.
  - now apply IH.
Qed.

Lemma nodes_In (e : Pattern Literal) l : In e l -> nodes e ⊆ ⋃ (map nodes l).
Proof.
  induction l as [| x l IH]; intros []; cbn.
  - subst. set_solver.
  - specialize (IH H). set_solver.
Qed.

Lemma fits_In (e : Pattern Literal) l :
  forallb (fits ChunkSize) l = true -> In e l -> fits ChunkSize e = true.
Proof. intros H He. rewrite forallb_forall in H. now apply H. Qed.

Lemma spec_draw_of_accept (p : Pattern Literal) :
  spec (bounded ChunkSize p) (nodes p) (accept ChunkSize p) ->
  spec (bounded ChunkSize p) (nodes p) (draw ChunkSize p).
Proof.
  intros H. unfold draw.
  destruct (isHidden (attrs p)); [apply spec_ret | exact H].
Qed.

Lemma spec_children (G : Prop) K (l : list (Pattern Literal)) :
  list_all (Pattern Literal)
    (fun p => spec (bounded ChunkSize p) (nodes p) (accept ChunkSize p)) l ->
  (G -> 0 < ChunkSize /\ forallb (fits ChunkSize) l = true) ->
  ⋃ (map nodes l) ⊆ K ->
  forall e, In e l -> spec G K (draw ChunkSize e).
Proof.
  intros IH HG HK e He.
  eapply spec_weaken; [| | apply spec_draw_of_accept, (list_all_In _ _ IH e He)].
  - intros g. destruct (HG g) as (HC & Hf).
    split; [exact HC |]. exact (fits_In e l Hf He).
  - transitivity (⋃ (map nodes l)); [apply nodes_In, He | exact HK].
Qed.

Lemma bounded_array (p : Pattern Literal) a entries :
  p = PatternArrayDynamic a entries \/ p = PatternArrayStatic a entries ->
  bounded ChunkSize p ->
  0 < ChunkSize /\ headroom ChunkSize entries
  /\ forallb (fits ChunkSize) entries = true.
Proof.
  intros [-> | ->] [HC Hf]; cbn in Hf; apply andb_prop in Hf as [Hn Hf];
    (split; [exact HC |]; split; [now apply N.leb_le | exact Hf]).
Qed.

Lemma spec_accept (p : Pattern Literal) :
  spec (bounded ChunkSize p) (nodes p) (accept ChunkSize p).
Proof.
  induction p using Pattern_ind; cbn [accept];
    change (fun p0 : Pattern Literal =>
              if isHidden (attrs p0) then ret tt else accept ChunkSize p0)
      with (draw (Literal:=Literal) ChunkSize);
    try solve [spec_auto].
  - (* PatternArrayDynamic *)
    eapply spec_weaken;
      [| reflexivity
       | apply (spec_drawArray (draw ChunkSize)
                  (bounded ChunkSize (PatternArrayDynamic a entries))
                  (nodes (PatternArrayDynamic a entries)) a entries)].
    + intros HB. split; [exact HB |].
      eapply bounded_array in HB as (HC & HN & _); eauto.
    + apply spec_children; [exact X | | cbn; set_solver].
      intros HB. eapply bounded_array in HB as (HC & _ & Hf); eauto.
    + cbn. set_solver.
  - (* PatternArrayStatic *)
    eapply spec_weaken;
      [| reflexivity
       | apply (spec_drawArray (draw ChunkSize)
                  (bounded ChunkSize (PatternArrayStatic a entries))
                  (nodes (PatternArrayStatic a entries)) a entries)].
    + intros HB. split; [exact HB |].
      eapply bounded_array in HB as (HC & HN & _); eauto.
    + apply spec_children; [exact X | | cbn; set_solver].
      intros HB. eapply bounded_array in HB as (HC & _ & Hf); eauto.
    + cbn. set_solver.
  - (* PatternBitfield *)
    apply spec_bind; [spec_auto |]. intros open.
    destruct open; [| apply spec_ret].
    apply spec_bind; [| intros _; spec_auto].
    apply spec_forEachEntry, spec_children; [exact X | | cbn; set_solver].
    intros [HC Hf]. now split.
  - (* PatternPointer *)
    apply spec_bind; [spec_auto |]. intros open.
    destruct open; [| apply spec_ret].
    apply spec_bind; [| intros _; spec_auto].
    eapply spec_weaken; [| | exact IHp].
    + intros [HC Hf]. now split.
    + cbn. set_solver.
  - (* PatternStruct *)
    apply spec_bind; [spec_auto |]. intros open.
    destruct open; [| apply spec_ret].
    apply spec_bind; [| intros _; spec_auto].
    apply spec_forEachEntry, spec_children; [exact X | | cbn; set_solver].
    intros [HC Hf]. now split.
  - (* PatternUnion *)
    apply spec_bind; [spec_auto |]. intros open.
    destruct open; [| apply spec_ret].
    apply spec_bind; [| intros _; spec_auto].
    apply spec_forEachEntry, spec_children; [exact X | | cbn; set_solver].
    intros [HC Hf]. now split.
Qed.

Lemma spec_draw (p : Pattern Literal) :
  spec (bounded ChunkSize p) (nodes p) (draw ChunkSize p).
Proof. apply spec_draw_of_accept, spec_accept. Qed.

(** ** Rows of single nodes *)

(** Runs a straight-line row routine on every answer the toolkit and the
    selection can give. *)
Ltac run_row :=
  cbn;
  repeat match goal with
         | |- context [answer ?w ?n] => destruct (answer w n); cbn
         | |- context [currSelection ?w] => destruct (currSelection w); cbn
         | |- context [Region.overlaps ?r ?o] =>
             destruct (Region.overlaps r o); cbn
         | |- context [String.eqb ?x ?y] => destruct (String.eqb x y); cbn
         | |- context [isSealed ?a] => destruct (isSealed a); cbn
         end.


(** C3: a node flagged hidden makes the per-node draw return at once: no
    call reaches the toolkit, no question is asked, and the disclosure
    table is as it was, so nothing below the node was visited, whatever
    the flags of the nodes below.  As an entry of a parent's iteration the
    node is passed over: the parent draws exactly what it draws for the
    entries after it. *)
Theorem draw_hidden_emits_nothing (p : Pattern Literal) w s :
  isHidden (attrs p) = true ->
  draw ChunkSize p w s = Some (tt, s, [])
  /\ forall start end_ index rest,
       forEachEntry_from (draw ChunkSize) start end_ index (p :: rest) w s
       = forEachEntry_from (draw ChunkSize) start end_ (index + 1) rest w s.
Proof.
  intros H.
  assert (E : draw ChunkSize p w s = Some (tt, s, []))
    by (unfold draw; now rewrite H).
  split; [exact E |].
  intros start end_ index rest. cbn [forEachEntry_from].
  unfold bind, when.
  destruct (_ && _); [rewrite E | cbn [ret]];
    destruct (forEachEntry_from _ _ _ _ _ _ _) as [[[[] ?] ?] |];
    reflexivity.
Qed.

(** C10: an array without entries draws nothing at all, not even its
    header row, whether it is inlined, sealed or selected, and whether it
    is a dynamic or a static array. *)
Theorem drawArray_empty_emits_nothing (a : Attrs Literal) fn inlined w s :
  drawArray ChunkSize fn a [] inlined w s = Some (tt, s, [])
  /\ accept ChunkSize (PatternArrayDynamic a []) w s = Some (tt, s, [])
  /\ accept ChunkSize (PatternArrayStatic a []) w s = Some (tt, s, [])
  /\ draw ChunkSize (PatternArrayDynamic a []) w s = Some (tt, s, [])
  /\ draw ChunkSize (PatternArrayStatic a []) w s = Some (tt, s, []).
Proof.
  repeat split; try reflexivity; unfold draw; cbn [attrs];
    destruct (isHidden a); reflexivity.
Qed.



(** The header rows of the five composite kinds, run on every answer. *)
Ltac run_header :=
  unfold header_PatternStruct, header_PatternBitfield, header_PatternPointer,
    drawArray_header, createTreeNode, makeSelectable, drawCommentTooltip,
    drawTypenameColumn, drawColorColumn, drawOffsetColumn, drawSizeColumn,
    highlightWhenSelected_pattern, highlightWhenSelected, isPatternSelected,
    bind, call, query, ignore, when, ret;
  run_row; eexists _, _, _; (split; [reflexivity | split; reflexivity]).

(** C7, as the code has it: the header row of a struct, of a union and of
    an array that is not inlined is one row that holds a colour swatch
    exactly when the node is sealed; the header row of a bitfield and of a
    pointer that is not inlined is one row that always holds the swatch. *)
Theorem header_swatch (a : Attrs Literal) keyword entries w s :
  isInlined a = false ->
  (exists open s' t,
     header_PatternStruct a keyword w s = Some (open, s', t)
     /\ rows t = 1%nat /\ hasSwatch t = isSealed a)
  /\ (exists open s' t,
        drawArray_header a entries (isInlined a) w s = Some (open, s', t)
        /\ rows t = 1%nat /\ hasSwatch t = isSealed a)
  /\ (exists open s' t,
        header_PatternBitfield a w s = Some (open, s', t)
        /\ rows t = 1%nat /\ hasSwatch t = true)
  /\ (exists open s' t,
        header_PatternPointer a w s = Some (open, s', t)
        /\ rows t = 1%nat /\ hasSwatch t = true).
Proof.
  intros Hin. repeat split.
  - unfold header_PatternStruct. rewrite Hin. run_header.
  - rewrite Hin. run_header.
  - unfold header_PatternBitfield. rewrite Hin. run_header.
  - unfold header_PatternPointer. rewrite Hin. run_header.
Qed.

(** ** Pagination *)

Lemma bind_call {B} c (f : unit -> Draw Literal B) w s :
  bind (call c) f w s
  = match f tt w s with
    | Some (y, s2, t2) => Some (y, s2, c :: t2)
    | None => None
    end.
Proof. reflexivity. Qed.

Lemma bind_eq {A B} (m : Draw Literal A) (f : A -> Draw Literal B)
    w s x s1 t1 :
  m w s = Some (x, s1, t1) ->
  bind m f w s
  = match f x w s1 with
    | Some (y, s2, t2) => Some (y, s2, t1 ++ t2)
    | None => None
    end.
Proof. intros E. unfold bind. now rewrite E. Qed.


Lemma rowless_bind {A B} (m : Draw Literal A) (f : A -> Draw Literal B) :
  rowless m -> (forall x, rowless (f x)) -> rowless (bind m f).
Proof.
  intros Hm Hf w s y s' t. unfold bind.
  destruct (m w s) as [[[x s1] t1] |] eqn:E1; [| discriminate].
  destruct (f x w s1) as [[[y' s2] t2] |] eqn:E2; [| discriminate].
  intros [= <- <- <-]. rewrite rows_app.
  now rewrite (Hm _ _ _ _ _ E1), (Hf _ _ _ _ _ _ E2).
Qed.

Lemma rowless_stateless {A} (m : Draw Literal A) :
  (forall w s, exists x s' t, m w s = Some (x, s', t) /\ rows t = 0%nat) ->
  rowless m.
Proof.
  intros H w s x s' t E. destruct (H w s) as (x' & s1 & t1 & E1 & R).
  congruence.
Qed.

Lemma rowless_forEachEntry_silent start end_ entries : forall index,
  rowless (forEachEntry_from (Literal:=Literal) silent
             start end_ index entries).
Proof.
  induction entries as [| e rest IH]; intros index; cbn.
  - now intros w s x s' t [= <- <- <-].
  - apply rowless_bind; [| intros _; apply IH].
    destruct (_ && _); now intros w s x s' t [= <- <- <-].
Qed.

Lemma rowless_drawArray_chunk_silent (a : Attrs Literal) entries i :
  rowless (drawArray_chunk ChunkSize silent a entries i).
Proof.
  unfold drawArray_chunk.
  apply rowless_bind; [destruct (getEntry _ _); cbn; [| discriminate];
                       now intros w s x s' t [= <- <- <-] |].
  intros first.
  apply rowless_bind; [destruct (getEntry _ _); cbn; [| discriminate];
                       now intros w s x s' t [= <- <- <-] |].
  intros last. cbn zeta.
  apply rowless_bind.
  { apply rowless_stateless. intros w s.
    unfold highlightWhenSelected, isPatternSelected, bind, call, query,
      when, ret.
    run_row; eexists _, _, _; (split; reflexivity). }
  intros chunkOpen.
  repeat (apply rowless_bind;
          [ apply rowless_stateless; intros w s; unfold drawColorColumn,
              bind, call; cbn; eexists _, _, _; (split; reflexivity)
          | intros _ ]).
  destruct chunkOpen.
  - apply rowless_bind; [apply rowless_forEachEntry_silent |].
    intros _. now intros w s x s' t [= <- <- <-].
  - now intros w s x s' t [= <- <- <-].
Qed.

Section Pagination.

Variable fn : Pattern Literal -> Draw Literal unit.
Variable K : gset N.
Variable a : Attrs Literal.
Variable entries : list (Pattern Literal).
Variable d : N.

Hypothesis ChunkSize_pos : 0 < ChunkSize.
Hypothesis entries_headroom : headroom ChunkSize entries.
Hypothesis fn_spec : forall e, In e entries -> spec True K (fn e).
Hypothesis a_outside : addr a ∉ K.

(** A chunk, drawn from a state in which the node reveals [d] chunks,
    returns in a state in which it still reveals [d]. *)
Lemma drawArray_chunk_keeps i w s :
  i < getEntryCount entries ->
  m_displayEnd s !! addr a = Some d ->
  exists s' t,
    drawArray_chunk ChunkSize fn a entries i w s = Some (tt, s', t)
    /\ m_displayEnd s' !! addr a = Some d.
Proof using ChunkSize_pos entries_headroom fn_spec a_outside.
  intros Hi Hd.
  destruct (proj2 (spec_drawArray_chunk fn True K a entries fn_spec i Hi))
    with w s as ([] & s' & t & E & I); [unfold loop_guard; tauto |].
  exists s', t. split; [exact E |].
  rewrite (inv_frame _ _ _ _ I) by exact a_outside. exact Hd.
Qed.

Lemma drawArray_loop_paginate count : forall k fuel w s,
  m_displayEnd s !! addr a = Some d ->
  k + N.of_nat count = N.min (chunkTotal ChunkSize entries) d ->
  getEntryCount entries <= k * ChunkSize + N.of_nat fuel * ChunkSize ->
  drawArray_loop ChunkSize fn a entries fuel (k * ChunkSize) k w s
  = paginate ChunkSize fn a entries d count k w s.
Proof using ChunkSize_pos entries_headroom fn_spec a_outside.
  pose proof (chunkTotal_le entries ChunkSize_pos) as Hle.
  unfold headroom, DisplayEndStep in entries_headroom.
  induction count as [| count IH]; intros k fuel w s Hd Hk Hf;
    cbn [paginate].
  - destruct (N.ltb_spec d (chunkTotal ChunkSize entries)) as [Hlt | Hge].
    + assert (k = d) by lia. subst k.
      apply chunkTotal_lt in Hlt as Hi; [| exact ChunkSize_pos].
      destruct fuel as [| fuel]; [lia |]. cbn [drawArray_loop].
      apply N.ltb_lt in Hi as ->.
      unfold when. rewrite !bind_call.
      rewrite (bind_eq _ _ _ _ _ _ _ (getDisplayEnd_present a d w s Hd)).
      rewrite wrap64_small by lia.
      replace (d <? d + 1) with true by (symmetry; apply N.ltb_lt; lia).
      destruct (drawArray_placeholder a d w s) as [[[u s2] t2] |];
        reflexivity.
    + assert (k = chunkTotal ChunkSize entries) by lia. subst k.
      assert (Hi : ~ chunkTotal ChunkSize entries * ChunkSize
                     < getEntryCount entries).
      { rewrite chunkTotal_lt by exact ChunkSize_pos. lia. }
      apply N.ltb_nlt in Hi.
      destruct fuel; cbn [drawArray_loop]; rewrite Hi; reflexivity.
  - assert (Hlt : k < chunkTotal ChunkSize entries) by lia.
    apply chunkTotal_lt in Hlt as Hi; [| exact ChunkSize_pos].
    destruct fuel as [| fuel]; [lia |]. cbn [drawArray_loop].
    apply N.ltb_lt in Hi as Hi'. rewrite Hi'.
    rewrite !bind_call.
    rewrite (bind_eq _ _ _ _ _ _ _ (getDisplayEnd_present a d w s Hd)).
    rewrite !wrap64_small by lia.
    replace (d <? k + 1) with false by (symmetry; apply N.ltb_ge; lia).
    destruct (drawArray_chunk_keeps (k * ChunkSize) w s Hi Hd)
      as (s2 & t2 & E2 & Hd2).
    rewrite !(bind_eq _ _ _ _ _ _ _ E2).
    replace (k * ChunkSize + ChunkSize) with ((k + 1) * ChunkSize) by lia.
    rewrite (IH (k + 1) fuel w s2 Hd2) by lia.
    destruct (paginate _ _ a entries d count _ w s2) as [[[u3 s3] t3] |];
      reflexivity.
Qed.

(** The rows of a pagination whose entries draw nothing. *)
Lemma paginate_rows count : forall k w s x s' t,
  paginate ChunkSize silent a entries d count k w s
  = Some (x, s', t) ->
  rows t
  = (count + if (d <? chunkTotal ChunkSize entries)%N then 1 else 0)%nat.
Proof.
  induction count as [| count IH]; intros k w s x s' t; cbn [paginate].
  - destruct (d <? chunkTotal ChunkSize entries); unfold when.
    + destruct (drawArray_placeholder_result a d w s) as (t' & E & _ & R).
      rewrite !bind_call, E. intros [= <- <- <-].
      change (TableNextRow :: TableNextColumn :: t')
        with ([TableNextRow; TableNextColumn] ++ t').
      rewrite rows_app, R. reflexivity.
    + now intros [= <- <- <-].
  - rewrite !bind_call. unfold bind.
    destruct (drawArray_chunk _ _ a entries _ w s) as [[[u1 s1] t1] |] eqn:E1;
      [| discriminate].
    destruct (paginate _ _ a entries d count _ w s1) as [[[u3 s3] t3] |] eqn:E3;
      [| discriminate].
    intros [= <- <- <-].
    apply IH in E3. apply rowless_drawArray_chunk_silent in E1.
    change (TableNextRow :: TableNextColumn :: t1 ++ t3)
      with ([TableNextRow; TableNextColumn] ++ t1 ++ t3).
    rewrite !rows_app, E1, E3. reflexivity.
Qed.

(** When the placeholder is shown and double-clicked, the pagination ends
    with one reveal step on the node. *)
Lemma paginate_reveals w : eager w -> forall count k s,
  m_displayEnd s !! addr a = Some d ->
  d < chunkTotal ChunkSize entries ->
  k + N.of_nat count <= d ->
  exists s' t,
    paginate ChunkSize fn a entries d count k w s = Some (tt, s', t)
    /\ m_displayEnd s' !! addr a = Some (d + DisplayEndStep).
Proof using ChunkSize_pos entries_headroom fn_spec a_outside.
  intros Hw.
  pose proof (chunkTotal_le entries ChunkSize_pos) as Hle.
  induction count as [| count IH]; intros k s Hd Hlt Hk; cbn [paginate].
  - pose proof Hlt as Hlt'. apply N.ltb_lt in Hlt' as ->.
    unfold when. rewrite !bind_call.
    destruct (drawArray_placeholder_result a d w s) as (t & E & _).
    cbv zeta in E. rewrite !Hw in E. cbn [andb] in E. rewrite E.
    eexists _, _. split; [reflexivity |]. cbn.
    rewrite lookup_insert_eq. f_equal. apply wrap64_small.
    unfold headroom in entries_headroom. lia.
  - assert (Hi : k * ChunkSize < getEntryCount entries).
    { apply chunkTotal_lt; [exact ChunkSize_pos | lia]. }
    rewrite !bind_call.
    destruct (drawArray_chunk_keeps (k * ChunkSize) w s Hi Hd)
      as (s2 & t2 & E2 & Hd2).
    rewrite (bind_eq _ _ _ _ _ _ _ E2).
    destruct (IH (k + 1) s2 Hd2 Hlt) as (s' & t & E & Hd'); [lia |].
    rewrite E. eexists _, _. split; [reflexivity | exact Hd'].
Qed.

(** The first read of the entry creates it; the loop behaves as if the
    entry had been there with the default. *)
Lemma drawArray_loop_fresh fuel w s :
  0 < getEntryCount entries ->
  m_displayEnd s !! addr a = None ->
  drawArray_loop ChunkSize fn a entries (S fuel) 0 0 w s
  = drawArray_loop ChunkSize fn a entries (S fuel) 0 0 w
      (set_displayEnd s (<[addr a := DisplayEndDefault]> (m_displayEnd s))).
Proof.
  intros Hpos Hnone. cbn [drawArray_loop].
  apply N.ltb_lt in Hpos as ->.
  rewrite !bind_call. unfold bind, getDisplayEnd.
  cbn [m_displayEnd set_displayEnd].
  rewrite Hnone, lookup_insert_eq. reflexivity.
Qed.

(** One draw of the loop in which the placeholder is shown and
    double-clicked is one reveal step. *)
Lemma drawArray_loop_reveals w s :
  eager w -> revealed s a = d -> d < chunkTotal ChunkSize entries ->
  exists s' t,
    drawArray_loop ChunkSize fn a entries (S (length entries)) 0 0 w s
    = Some (tt, s', t)
    /\ m_displayEnd s' !! addr a = Some (d + DisplayEndStep).
Proof using ChunkSize_pos entries_headroom fn_spec a_outside.
  intros Hw Hr Hlt.
  pose proof (chunkTotal_le entries ChunkSize_pos) as Hle.
  assert (Hfuel : getEntryCount entries
                  <= 0 * ChunkSize + N.of_nat (S (length entries)) * ChunkSize).
  { unfold getEntryCount. nia. }
  assert (Hcount : 0 + N.of_nat (N.to_nat d)
                   = N.min (chunkTotal ChunkSize entries) d) by lia.
  assert (Main : forall s0, m_displayEnd s0 !! addr a = Some d ->
            exists s' t,
              drawArray_loop ChunkSize fn a entries (S (length entries))
                0 0 w s0 = Some (tt, s', t)
              /\ m_displayEnd s' !! addr a = Some (d + DisplayEndStep)).
  { intros s0 Hd.
    pose proof (drawArray_loop_paginate (N.to_nat d) 0 _ w s0 Hd Hcount Hfuel)
      as P.
    change (0 * ChunkSize) with 0 in P. rewrite P.
    apply paginate_reveals; auto. lia. }
  unfold revealed in Hr.
  destruct (m_displayEnd s !! addr a) as [v |] eqn:E.
  - subst v. now apply Main.
  - rewrite drawArray_loop_fresh by (exact E || lia).
    apply Main. cbn. rewrite lookup_insert_eq. now subst d.
Qed.

End Pagination.

(** The loop as [drawArray] starts it returns. *)
Lemma drawArray_loop_returns fn K (a : Attrs Literal) entries w s :
  0 < ChunkSize -> headroom ChunkSize entries ->
  (forall e, In e entries -> spec True K (fn e)) ->
  exists s' t,
    drawArray_loop ChunkSize fn a entries (S (length entries)) 0 0 w s
    = Some (tt, s', t)
    /\ Inv ({[ addr a ]} ∪ K) s s' t.
Proof.
  intros HC HN Hfn.
  assert (Hfn' : forall e, In e entries ->
                           spec True ({[ addr a ]} ∪ K) (fn e)).
  { intros e He. eapply spec_weaken; [| | apply (Hfn e He)];
      [tauto | set_solver]. }
  assert (Ha : addr a ∈ {[ addr a ]} ∪ K) by set_solver.
  destruct (proj2 (spec_drawArray_loop fn True _ a entries Hfn' Ha
                     (S (length entries)) 0 0)) with w s
    as ([] & s' & t & E & I).
  - repeat split; try assumption; unfold getEntryCount; nia.
  - now exists s', t.
Qed.


(** ** Reveal steps *)

Lemma drawArray_header_eager (a : Attrs Literal) entries inlined w s :
  eager w -> inlined || negb (isSealed a) = true ->
  exists s1 t1,
    drawArray_header a entries inlined w s = Some (true, s1, t1)
    /\ m_displayEnd s1 = m_displayEnd s.
Proof.
  intros Hw Hopen. unfold drawArray_header.
  destruct inlined; cbn [negb].
  { now exists s, []. }
  cbn in Hopen. apply negb_true_iff in Hopen.
  unfold createTreeNode, makeSelectable, drawCommentTooltip,
    drawColorColumn, drawOffsetColumn, drawSizeColumn,
    highlightWhenSelected_pattern, highlightWhenSelected, isPatternSelected,
    bind, call, query, ignore, when, ret.
  rewrite Hopen.
  destruct (currSelection w) as [sel |];
    [destruct (Region.overlaps _ sel) |];
    cbn; rewrite !Hw; cbn;
    destruct (String.eqb (getComment a) ""); cbn;
    eexists _, _; (split; reflexivity).
Qed.

(** One frame in which the placeholder of an array is shown and
    double-clicked raises the disclosure count of the array by one step. *)
Lemma draw_array_reveals (p : Pattern Literal) a entries w s :
  p = PatternArrayDynamic a entries \/ p = PatternArrayStatic a entries ->
  isHidden a = false ->
  isInlined a || negb (isSealed a) = true ->
  bounded ChunkSize p ->
  addr a ∉ ⋃ (map nodes entries) ->
  eager w ->
  revealed s a < chunkTotal ChunkSize entries ->
  exists s' t,
    draw ChunkSize p w s = Some (tt, s', t)
    /\ revealed s' a = revealed s a + DisplayEndStep.
Proof.
  intros Hp Hvis Hopen Hb Hout Hw Hlt.
  destruct (bounded_array p a entries Hp Hb) as (HC & HN & Hfits).
  pose proof (chunkTotal_le entries HC) as Hle.
  assert (Hspec : forall e, In e entries ->
            spec True (⋃ (map nodes entries)) (draw ChunkSize e)).
  { intros e He. eapply spec_weaken; [| apply nodes_In, He | apply spec_draw].
    intros _. split; [exact HC | exact (fits_In e entries Hfits He)]. }
  assert (E : draw ChunkSize p w s
              = drawArray ChunkSize (draw ChunkSize) a entries (isInlined a)
                  w s).
  { unfold draw. destruct Hp as [-> | ->]; cbn [attrs]; now rewrite Hvis. }
  rewrite E. unfold drawArray.
  replace (getEntryCount entries =? 0) with false
    by (symmetry; apply N.eqb_neq; lia).
  destruct (drawArray_header_eager a entries (isInlined a) w s Hw Hopen)
    as (s1 & t1 & E1 & Hm1).
  rewrite (bind_eq _ _ _ _ _ _ _ E1).
  destruct (drawArray_loop_reveals (draw ChunkSize) (⋃ (map nodes entries))
              a entries (revealed s a) HC HN Hspec Hout w s1 Hw)
    as (s2 & t2 & E2 & Hd2); [| exact Hlt |].
  { unfold revealed. now rewrite Hm1. }
  rewrite (bind_eq _ _ _ _ _ _ _ E2).
  destruct (negb (isInlined a)); cbn; eexists _, _;
    (split; [reflexivity | unfold revealed at 1; now rewrite Hd2]).
Qed.

(** ** Sorting and the table *)

Lemma returns_ret {A} (P : A -> Prop) (x : A) :
  P x -> returns P (ret (Literal:=Literal) x).
Proof. intros H w s. now exists x, []. Qed.

Lemma returns_bind {A B} (P : A -> Prop) (Q : B -> Prop)
    (m : Draw Literal A) (f : A -> Draw Literal B) :
  returns P m -> (forall x, P x -> returns Q (f x)) -> returns Q (bind m f).
Proof.
  intros Hm Hf w s. unfold bind.
  destruct (Hm w s) as (x & t1 & E1 & Hx). rewrite E1.
  destruct (Hf x Hx w s) as (y & t2 & E2 & Hy). rewrite E2.
  now exists y, (t1 ++ t2).
Qed.

Lemma returns_weaken {A} (P Q : A -> Prop) (m : Draw Literal A) :
  (forall x, P x -> Q x) -> returns P m -> returns Q m.
Proof.
  intros H Hm w s. destruct (Hm w s) as (x & t & E & Hx).
  exists x, t. auto.
Qed.

Section Sorted.

Variable comp : Pattern Literal -> Pattern Literal -> Draw Literal bool.
Variable lt : Pattern Literal -> Pattern Literal -> bool.

(** The comparator answers [lt], whatever the world and the state. *)
Hypothesis comp_returns :
  forall x y, returns (fun less => less = lt x y) (comp x y).

(** The unguarded insertion comes to an end at the latest at an element
    that [val] does not come before. *)
Lemma returns_unguarded_linear_insert val before :
  forall behind,
    (exists next, In next before /\ lt val next = false) ->
    returns (fun l => Permutation (val :: before ++ behind) l)
      (unguarded_linear_insert comp val before behind).
Proof using comp_returns.
  induction before as [| next before' IH]; intros behind (y & Hy & Hlt).
  - destruct Hy.
  - cbn [unguarded_linear_insert].
    eapply returns_bind; [apply comp_returns |]. intros less ->.
    destruct (lt val next) eqn:E.
    + destruct Hy as [-> | Hy]; [congruence |].
      eapply returns_weaken; [| apply IH; now exists y].
      intros l Hl. rewrite <- Hl. apply perm_skip.
      cbn. apply Permutation_middle.
    + apply returns_ret. rewrite rev_append_rev.
      rewrite <- Permutation_middle. apply perm_skip.
      apply Permutation_app_tail, Permutation_rev.
Qed.

Lemma returns_insertion_sort rest : forall sorted,
  sorted <> [] ->
  returns (fun l => Permutation (sorted ++ rest) l)
    (insertion_sort comp sorted rest).
Proof using comp_returns.
  induction rest as [| val rest' IH]; intros sorted Hne;
    cbn [insertion_sort].
  - apply returns_ret. now rewrite app_nil_r.
  - destruct sorted as [| first sorted0]; [congruence |].
    cbn [head deref].
    eapply (returns_bind (fun x => x = first)); [now apply returns_ret |].
    intros ? ->.
    eapply returns_bind; [apply comp_returns |]. intros less ->.
    eapply returns_bind with
      (P := fun l => l <> [] /\ Permutation (val :: first :: sorted0) l).
    + destruct (lt val first) eqn:E.
      * apply returns_ret. split; [discriminate | reflexivity].
      * eapply returns_weaken;
          [| apply (returns_unguarded_linear_insert val
                      (rev (first :: sorted0)) []);
             exists first; split; [apply in_rev; rewrite rev_involutive;
                                   now left | exact E]].
        intros l Hl.
        assert (HP : Permutation (val :: first :: sorted0) l).
        { rewrite <- Hl, app_nil_r. apply perm_skip, Permutation_rev. }
        split; [| exact HP].
        intros ->. apply Permutation_sym, Permutation_nil in HP.
        discriminate.
    + intros sorted' [Hne' HP].
      eapply returns_weaken; [| apply IH; exact Hne'].
      intros l Hl. rewrite <- Hl, <- HP.
      symmetry. rewrite <- Permutation_middle. reflexivity.
Qed.

Lemma returns_std_sort range :
  returns (fun l => Permutation range l) (std_sort comp range).
Proof using comp_returns.
  destruct range as [| first rest]; cbn [std_sort].
  - now apply returns_ret.
  - apply (returns_insertion_sort rest [first]). discriminate.
Qed.

Lemma returns_for_each {A} (R : Pattern Literal -> A -> Prop)
    (f : Pattern Literal -> Draw Literal A) range :
  (forall e, In e range -> returns (R e) (f e)) ->
  returns (Forall2 R range) (for_each f range).
Proof.
  induction range as [| x rest IH]; intros H; cbn.
  - now apply returns_ret.
  - eapply returns_bind; [apply H; now left |]. intros y Hy.
    eapply returns_bind; [apply IH; intros e He; apply H; now right |].
    intros ys Hys. apply returns_ret. now constructor.
Qed.

Lemma forallb_Permutation {A} (f : A -> bool) l l' :
  Permutation l l' -> forallb f l = forallb f l'.
Proof.
  induction 1; cbn; try congruence.
  now rewrite !andb_assoc, (andb_comm (f y)).
Qed.

Lemma forallb_reordered (l l' : list (Pattern Literal)) :
  Forall2 (reordered ChunkSize) l l' ->
  forallb (fits ChunkSize) l' = forallb (fits ChunkSize) l.
Proof.
  induction 1 as [| p p' l l' [_ Hp] _ IH]; cbn; congruence.
Qed.

(** Children that were reordered below themselves and then sorted among
    themselves have the bounds they had. *)
Lemma reordered_children (l l' l'' : list (Pattern Literal)) :
  Forall2 (reordered ChunkSize) l l' -> Permutation l' l'' ->
  forallb (fits ChunkSize) l'' = forallb (fits ChunkSize) l
  /\ headroomb ChunkSize l'' = headroomb ChunkSize l.
Proof.
  intros HF HP. split.
  - rewrite <- (forallb_Permutation _ _ _ HP). now apply forallb_reordered.
  - unfold headroomb, getEntryCount.
    rewrite <- (Permutation_length HP), <- (Forall2_length _ _ _ HF). reflexivity.
Qed.

Lemma returns_Pattern_sort (p : Pattern Literal) :
  returns (reordered ChunkSize p) (Pattern_sort comp p).
Proof using comp_returns.
  induction p using Pattern_ind; cbn [Pattern_sort];
    try (apply returns_ret; now split).
  1, 2, 5, 6: eapply returns_bind;
    [apply returns_for_each; exact (list_all_In _ _ X) |];
    intros l' HF;
    (eapply returns_bind; [apply returns_std_sort |]);
    intros l'' HP; apply returns_ret;
    destruct (reordered_children _ _ _ HF HP) as [Hf Hh];
    split; [reflexivity | cbn; congruence].
  - eapply returns_bind;
      [apply returns_for_each; exact (list_all_In _ _ X) |].
    intros l' HF. apply returns_ret.
    split; [reflexivity | cbn; now apply forallb_reordered].
  - eapply returns_bind; [exact IHp |].
    intros q [_ Hq]. apply returns_ret. split; [reflexivity | exact Hq].
Qed.

End Sorted.

Section Table.

Variable Literal_gtb : Literal -> Literal -> bool.
Variable Literal_ltb : Literal -> Literal -> bool.
Variable GetID : string -> N.

Local Abbreviation comparator :=
  (comparator Literal_gtb Literal_ltb GetID).
Local Abbreviation beginPatternTable :=
  (beginPatternTable Literal_gtb Literal_ltb GetID).
Local Abbreviation draw_patterns :=
  (draw_patterns Literal_gtb Literal_ltb GetID ChunkSize).

Lemma returns_comparator specs x y :
  returns
    (fun less =>
       less = sortPatterns Literal_gtb Literal_ltb GetID specs
                (attrs x) (attrs y))
    (comparator specs x y).
Proof. intros w s. eexists _, _. split; reflexivity. Qed.

(** What a rebuild of the sorted order returns. *)
Lemma rebuild_returns specs patterns :
  returns (fun sorted =>
             length sorted = length patterns
             /\ forallb (fits ChunkSize) sorted
                = forallb (fits ChunkSize) patterns)
    (sorted <- std_sort (comparator specs) patterns ;;
     for_each (Pattern_sort (comparator specs)) sorted).
Proof.
  eapply returns_bind;
    [eapply returns_std_sort; intros x y; apply returns_comparator |].
  intros sorted HP.
  eapply returns_weaken;
    [| apply returns_for_each; intros e _;
       eapply returns_Pattern_sort; intros x y; apply returns_comparator].
  intros sorted' HF. split.
  - rewrite <- (Forall2_length _ _ _ HF). symmetry. now apply Permutation_length.
  - rewrite (forallb_reordered _ _ HF). symmetry.
    now apply forallb_Permutation.
Qed.


Lemma beginPatternTable_result patterns w s :
  exists s' t,
    beginPatternTable patterns w s = Some (answer w (asked s), s', t)
    /\ m_displayEnd s' = m_displayEnd s
    /\ Specs (sortSpecs s') = Specs (sortSpecs s)
    /\ asked s' = S (asked s)
    /\ table_outcome ChunkSize patterns w s s' t.
Proof.
  unfold beginPatternTable, table_outcome, setupColumns, bind, call, query,
    get, put, ret.
  cbn -[std_sort for_each Pattern_sort forallb].
  destruct (answer w (asked s)).
  2: { eexists _, _. split; [reflexivity |]. repeat split. }
  destruct patterns as [| p patterns].
  { eexists _, _. split; [reflexivity |]. repeat split. }
  cbn -[std_sort for_each Pattern_sort forallb].
  destruct (SpecsDirty (sortSpecs s) || is_empty (m_sortedPatterns s)).
  2: { eexists _, _. split; [reflexivity |]. repeat split. }
  match goal with
  | |- context [std_sort ?c ?l ?w0 ?s0] =>
      destruct (returns_std_sort c _ (returns_comparator _) l w0 s0)
        as (sorted & t1 & E1 & HP);
      rewrite E1;
      destruct (returns_for_each (reordered ChunkSize) (Pattern_sort c)
                  sorted
                  (fun e _ => returns_Pattern_sort _ _ (returns_comparator _) e)
                  w0 s0)
        as (sorted' & t2 & E2 & HF);
      rewrite E2
  end.
  eexists _, _. split; [reflexivity |]. cbn -[forallb].
  repeat split.
  - rewrite <- (Forall2_length _ _ _ HF).
    symmetry. exact (Permutation_length HP).
  - rewrite (forallb_reordered _ _ HF). symmetry.
    exact (forallb_Permutation _ _ _ HP).
Qed.

Lemma bind_get {B} (f : State Literal -> Draw Literal B) w s :
  bind get f w s
  = match f s w s with
    | Some (y, s2, t2) => Some (y, s2, t2)
    | None => None
    end.
Proof. reflexivity. Qed.

Lemma spec_for_each_draw (l : list (Pattern Literal)) :
  spec (0 < ChunkSize /\ forallb (fits ChunkSize) l = true)
    (⋃ (map nodes l)) (ignore (for_each (draw ChunkSize) l)).
Proof.
  apply spec_ignore. induction l as [| p l IH]; cbn [for_each].
  - apply spec_ret.
  - apply spec_bind.
    + eapply spec_weaken; [| | apply spec_draw].
      * intros [HC Hf]. cbn in Hf. apply andb_prop in Hf as [Hp _].
        now split.
      * cbn. set_solver.
    + intros y. apply spec_bind; [| intros ys; apply spec_ret].
      eapply spec_weaken; [| | apply IH].
      * intros [HC Hf]. cbn in Hf. apply andb_prop in Hf as [_ Hl].
        now split.
      * cbn. set_solver.
Qed.

(** The top-level draw in terms of its two halves. *)
Lemma draw_patterns_unfold patterns w s s1 t1 :
  beginPatternTable patterns w s = Some (answer w (asked s), s1, t1) ->
  draw_patterns patterns w s
  = if answer w (asked s) then
      match ignore (for_each (draw ChunkSize) (m_sortedPatterns s1)) w s1 with
      | Some (_, s2, t2) =>
          Some (tt, s2, t1 ++ TableHeadersRow :: t2 ++ [EndTable])
      | None => None
      end
    else Some (tt, s1, t1 ++ []).
Proof.
  intros E. unfold draw_patterns. rewrite (bind_eq _ _ _ _ _ _ _ E).
  destruct (answer w (asked s)); [| reflexivity].
  rewrite bind_call, bind_get. unfold bind.
  destruct (ignore _ w s1) as [[[u s2] t2] |]; reflexivity.
Qed.

(** One top-level draw on bounded input returns, keeps the cached order
    bounded and only lets entries of the disclosure table grow. *)
Lemma draw_patterns_sound patterns w s :
  0 < ChunkSize ->
  forallb (fits ChunkSize) (m_sortedPatterns s) = true ->
  forallb (fits ChunkSize) patterns = true ->
  exists s' t,
    draw_patterns patterns w s = Some (tt, s', t)
    /\ forallb (fits ChunkSize) (m_sortedPatterns s') = true
    /\ forall k v, m_displayEnd s !! k = Some v ->
         exists v', m_displayEnd s' !! k = Some v' /\ grows v v'.
Proof.
  intros HC Hs Hp.
  destruct (beginPatternTable_result patterns w s)
    as (s1 & t1 & E & Hm & _ & _ & Ho).
  rewrite (draw_patterns_unfold patterns w s s1 t1 E).
  unfold table_outcome in Ho.
  destruct (answer w (asked s)).
  - assert (Hs1 : forallb (fits ChunkSize) (m_sortedPatterns s1) = true).
    { destruct patterns as [| p patterns].
      - destruct Ho as (-> & _). reflexivity.
      - destruct (_ || _).
        + destruct Ho as (_ & _ & ->). exact Hp.
        + destruct Ho as (-> & _). exact Hs. }
    destruct (proj2 (spec_for_each_draw (m_sortedPatterns s1))
                (conj HC Hs1) w s1) as ([] & s2 & t2 & E2 & I).
    rewrite E2. eexists _, _. split; [reflexivity |]. split.
    + now rewrite (inv_sorted _ _ _ _ I).
    + intros k v Hv. apply (inv_step _ _ _ _ I). now rewrite Hm.
  - eexists _, _. split; [reflexivity |]. split.
    + destruct Ho as (-> & _). exact Hs.
    + intros k v Hv. exists v. rewrite Hm. split; [exact Hv |].
      apply grows_refl.
Qed.

(** One top-level draw, whatever the input: it enters the comparator and
    changes the cached order only in [beginPatternTable]. *)
Lemma draw_patterns_keeps patterns w s s1 t1 x s' t :
  beginPatternTable patterns w s = Some (answer w (asked s), s1, t1) ->
  draw_patterns patterns w s = Some (x, s', t) ->
  m_sortedPatterns s' = m_sortedPatterns s1
  /\ sortSpecs s' = sortSpecs s1
  /\ comparisons t = comparisons t1.
Proof.
  intros E. rewrite (draw_patterns_unfold patterns w s s1 t1 E).
  destruct (answer w (asked s)).
  - destruct (ignore _ w s1) as [[[u s2] t2] |] eqn:E2; [| discriminate].
    intros [= <- <- <-].
    destruct (proj1 (spec_for_each_draw (m_sortedPatterns s1))
                w s1 u s2 t2 E2) as [Ha Hb Hc].
    repeat split; [exact Ha | exact Hb |].
    change (TableHeadersRow :: t2 ++ [EndTable])
      with ([TableHeadersRow] ++ t2 ++ [EndTable]).
    rewrite !comparisons_app, Hc.
    change (comparisons [TableHeadersRow]) with 0%nat.
    change (comparisons [EndTable]) with 0%nat. lia.
  - intros [= <- <- <-]. rewrite comparisons_app.
    change (comparisons []) with 0%nat. repeat split. lia.
Qed.

Lemma is_empty_length (l : list (Pattern Literal)) :
  is_empty l = false <-> length l <> 0%nat.
Proof. destruct l; cbn; split; congruence. Qed.

(** A call that finds a cached order and a clean specification. *)
Lemma beginPatternTable_reuses patterns w s :
  is_empty patterns = false ->
  is_empty (m_sortedPatterns s) = false ->
  SpecsDirty (sortSpecs s) = false ->
  exists s' t,
    beginPatternTable patterns w s = Some (answer w (asked s), s', t)
    /\ comparisons t = 0%nat
    /\ m_sortedPatterns s' = m_sortedPatterns s
    /\ sortSpecs s' = sortSpecs s.
Proof.
  intros Hp Hs Hd.
  destruct (beginPatternTable_result patterns w s)
    as (s1 & t1 & E & _ & _ & _ & Ho).
  exists s1, t1. split; [exact E |].
  unfold table_outcome in Ho. rewrite Hs, Hd in Ho.
  destruct patterns; [discriminate |].
  destruct (answer w (asked s)); cbn in Ho; tauto.
Qed.

(** After a call that showed the table, the cached order is there and the
    specification is clean. *)
Lemma beginPatternTable_caches patterns w s s' t :
  is_empty patterns = false ->
  beginPatternTable patterns w s = Some (true, s', t) ->
  is_empty (m_sortedPatterns s') = false
  /\ SpecsDirty (sortSpecs s') = false.
Proof.
  intros Hp E.
  destruct (beginPatternTable_result patterns w s)
    as (s1 & t1 & E1 & _ & _ & _ & Ho).
  rewrite E in E1. injection E1 as Ha <- <-.
  unfold table_outcome in Ho. rewrite <- Ha in Ho.
  destruct patterns as [| p patterns]; [discriminate |].
  destruct (SpecsDirty (sortSpecs s)) eqn:Hd;
    [| destruct (is_empty (m_sortedPatterns s)) eqn:Hs]; cbn in Ho.
  - destruct Ho as (Hd' & Hl & _). split; [| exact Hd'].
    apply is_empty_length. now rewrite Hl.
  - destruct Ho as (Hd' & Hl & _). split; [| exact Hd'].
    apply is_empty_length. now rewrite Hl.
  - destruct Ho as (Hs' & Hd' & _). now rewrite Hs', Hd'.
Qed.

(** C5: a top-level draw that finds a cached order for a non-empty root
    sequence and a clean sort specification does not enter the comparator
    and leaves the cached order as it is; a draw that does enter the
    comparator or changes the cached order found the specification dirty
    or the cache empty; and so the second of two draws in a row, the first
    of which showed the table, does neither. *)
Theorem sort_cache_reused patterns w1 w2 s :
  is_empty patterns = false ->
  (is_empty (m_sortedPatterns s) = false ->
   SpecsDirty (sortSpecs s) = false ->
   (exists s' t,
      beginPatternTable patterns w2 s = Some (answer w2 (asked s), s', t)
      /\ comparisons t = 0%nat
      /\ m_sortedPatterns s' = m_sortedPatterns s)
   /\ forall x s' t,
        draw_patterns patterns w2 s = Some (x, s', t) ->
        comparisons t = 0%nat /\ m_sortedPatterns s' = m_sortedPatterns s)
  /\ (forall x s' t,
        draw_patterns patterns w1 s = Some (x, s', t) ->
        comparisons t <> 0%nat \/ m_sortedPatterns s' <> m_sortedPatterns s ->
        SpecsDirty (sortSpecs s) = true
        \/ is_empty (m_sortedPatterns s) = true)
  /\ (forall x1 s1 t1 x2 s2 t2,
        answer w1 (asked s) = true ->
        draw_patterns patterns w1 s = Some (x1, s1, t1) ->
        draw_patterns patterns w2 s1 = Some (x2, s2, t2) ->
        comparisons t2 = 0%nat /\ m_sortedPatterns s2 = m_sortedPatterns s1).
Proof.
  intros Hp.
  assert (Reuse : forall w s,
            is_empty (m_sortedPatterns s) = false ->
            SpecsDirty (sortSpecs s) = false ->
            forall x s' t,
              draw_patterns patterns w s = Some (x, s', t) ->
              comparisons t = 0%nat
              /\ m_sortedPatterns s' = m_sortedPatterns s).
  { intros w s0 Hs Hd x s' t E.
    destruct (beginPatternTable_reuses patterns w s0 Hp Hs Hd)
      as (s1 & t1 & E1 & Hc & Hs1 & _).
    destruct (draw_patterns_keeps patterns w s0 s1 t1 x s' t E1 E)
      as (Ha & _ & Hb).
    split; congruence. }
  split; [| split].
  - intros Hs Hd. split; [| exact (Reuse w2 s Hs Hd)].
    destruct (beginPatternTable_reuses patterns w2 s Hp Hs Hd)
      as (s1 & t1 & E1 & Hc & Hs1 & _).
    now exists s1, t1.
  - intros x s' t E Hchange.
    destruct (SpecsDirty (sortSpecs s)) eqn:Hd; [now left | right].
    destruct (is_empty (m_sortedPatterns s)) eqn:Hs; [reflexivity |].
    destruct (Reuse w1 s Hs Hd x s' t E) as [Hc Hsame].
    destruct Hchange; contradiction.
  - intros x1 s1 t1 x2 s2 t2 Hshown E1 E2.
    destruct (beginPatternTable_result patterns w1 s)
      as (s1' & t1' & Eb & _).
    destruct (draw_patterns_keeps patterns w1 s s1' t1' x1 s1 t1 Eb E1)
      as (Ha & Hb & _).
    rewrite Hshown in Eb.
    destruct (beginPatternTable_caches patterns w1 s s1' t1' Hp Eb)
      as [Hs Hd].
    apply (Reuse w2 s1) with (x := x2);
      [now rewrite Ha | now rewrite Hb | exact E2].
Qed.

Lemma sortPatterns_offset_ascending specs (l r : Attrs Literal) :
  ColumnUserID (Specs specs) = GetID "offset" ->
  GetID "offset" <> GetID "name" ->
  SortDirection (Specs specs) = ImGuiSortDirection_Ascending ->
  sortPatterns Literal_gtb Literal_ltb GetID specs l r
  = (getOffset r <? getOffset l).
Proof.
  intros Hc Hne Hd. unfold sortPatterns. rewrite Hc, Hd.
  apply N.eqb_neq in Hne. rewrite Hne, N.eqb_refl. reflexivity.
Qed.

Lemma sorted_three_test (specs : ImGuiTableSortSpecs)
    (a10 a5 a20 : Attrs Literal) w s :
  ColumnUserID (Specs specs) = GetID "offset" ->
  GetID "offset" <> GetID "name" ->
  SortDirection (Specs specs) = ImGuiSortDirection_Ascending ->
  getOffset a10 = 10 -> getOffset a5 = 5 -> getOffset a20 = 20 ->
  sortSpecs s = specs -> SpecsDirty specs = true ->
  answer w (asked s) = true ->
  exists s' t,
    beginPatternTable
      [PatternUnsigned a10; PatternUnsigned a5; PatternUnsigned a20] w s
    = Some (true, s', t)
    /\ m_sortedPatterns s'
       = [PatternUnsigned a20; PatternUnsigned a10; PatternUnsigned a5].
Proof.
  intros Hc Hne Hd H10 H5 H20 Hs Hdirty Hw.
  pose proof (fun l r => sortPatterns_offset_ascending specs l r Hc Hne Hd)
    as Hcmp.
  unfold beginPatternTable, setupColumns, comparator, bind, call, query,
    get, put, ret.
  cbn -[sortPatterns]. rewrite Hw. cbn -[sortPatterns].
  rewrite Hs, Hdirty. cbn -[sortPatterns].
  repeat (unfold bind, call, ret; cbn -[sortPatterns];
          rewrite ?Hcmp, ?H10, ?H5, ?H20; cbn -[sortPatterns]).
  eexists _, _. split; reflexivity.
Qed.

Lemma sorted_three_unique (specs : ImGuiTableSortSpecs)
    (a10 a5 a20 : Attrs Literal) l' :
  ColumnUserID (Specs specs) = GetID "offset" ->
  GetID "offset" <> GetID "name" ->
  SortDirection (Specs specs) = ImGuiSortDirection_Ascending ->
  getOffset a10 = 10 -> getOffset a5 = 5 -> getOffset a20 = 20 ->
  Permutation [PatternUnsigned a10; PatternUnsigned a5; PatternUnsigned a20]
    l' ->
  is_sorted
    (fun x y => sortPatterns Literal_gtb Literal_ltb GetID specs
                  (attrs x) (attrs y)) l' = true ->
  l' = [PatternUnsigned a20; PatternUnsigned a10; PatternUnsigned a5].
Proof.
  intros Hc Hne Hd H10 H5 H20 HP Hsorted.
  pose proof (fun l r => sortPatterns_offset_ascending specs l r Hc Hne Hd)
    as Hcmp.
  pose proof (Permutation_length HP) as Hlen.
  destruct l' as [| x [| y [| z [| ? ?]]]]; try discriminate Hlen.
  assert (Hx : In x [PatternUnsigned a10; PatternUnsigned a5;
                     PatternUnsigned a20]).
  { eapply Permutation_in; [symmetry; exact HP | now left]. }
  assert (Hy : In y [PatternUnsigned a10; PatternUnsigned a5;
                     PatternUnsigned a20]).
  { eapply Permutation_in; [symmetry; exact HP | right; now left]. }
  assert (Hz : In z [PatternUnsigned a10; PatternUnsigned a5;
                     PatternUnsigned a20]).
  { eapply Permutation_in; [symmetry; exact HP | right; right; now left]. }
  assert (ND : List.NoDup [x; y; z]).
  { eapply Permutation_NoDup; [exact HP |].
    repeat constructor; cbn; intros H;
      repeat (destruct H as [H | H]; [injection H as H; rewrite H in *; lia |]);
      exact H. }
  cbn in Hx, Hy, Hz.
  destruct Hx as [<- | [<- | [<- | []]]];
    destruct Hy as [<- | [<- | [<- | []]]];
    destruct Hz as [<- | [<- | [<- | []]]];
    try reflexivity;
    try (exfalso; inversion ND as [| ? ? Hn ND']; subst;
         first [ apply Hn; cbn; tauto
               | inversion ND' as [| ? ? Hn' ?]; subst; apply Hn'; cbn; tauto ]);
    cbn in Hsorted; rewrite !Hcmp, ?H10, ?H5, ?H20 in Hsorted;
    discriminate Hsorted.
Qed.

(** C1: with the sort set to the offset column and the direction called
    ascending, the comparator says yes exactly when the left offset is
    the greater one; nodes at offsets 10, 5 and 20 are therefore cached
    and drawn in the order 20, 10, 5, which is also the only order
    [std::sort] may return for this comparator. *)
Theorem sort_by_offset_ascending (specs : ImGuiTableSortSpecs)
    (l r a10 a5 a20 : Attrs Literal) w s :
  ColumnUserID (Specs specs) = GetID "offset" ->
  GetID "offset" <> GetID "name" ->
  SortDirection (Specs specs) = ImGuiSortDirection_Ascending ->
  getOffset a10 = 10 -> getOffset a5 = 5 -> getOffset a20 = 20 ->
  sortSpecs s = specs -> SpecsDirty specs = true ->
  answer w (asked s) = true ->
  let p10 := PatternUnsigned a10 in
  let p5 := PatternUnsigned a5 in
  let p20 := PatternUnsigned a20 in
  (sortPatterns Literal_gtb Literal_ltb GetID specs l r = true
   <-> getOffset r < getOffset l)
  /\ (exists s' t,
        beginPatternTable [p10; p5; p20] w s = Some (true, s', t)
        /\ m_sortedPatterns s' = [p20; p10; p5]
        /\ draw_patterns [p10; p5; p20] w s
           = match ignore (for_each (draw ChunkSize) [p20; p10; p5]) w s' with
             | Some (_, s2, t2) =>
                 Some (tt, s2, t ++ TableHeadersRow :: t2 ++ [EndTable])
             | None => None
             end)
  /\ (forall l',
        Permutation [p10; p5; p20] l' ->
        is_sorted
          (fun x y => sortPatterns Literal_gtb Literal_ltb GetID specs
                        (attrs x) (attrs y)) l' = true ->
        l' = [p20; p10; p5]).
Proof.
  intros Hc Hne Hd H10 H5 H20 Hs Hdirty Hw p10 p5 p20.
  subst p10 p5 p20. split; [| split].
  - rewrite (sortPatterns_offset_ascending specs l r Hc Hne Hd).
    apply N.ltb_lt.
  - destruct (sorted_three_test specs a10 a5 a20 w s Hc Hne Hd H10 H5 H20
                Hs Hdirty Hw) as (s' & t & E & Hsorted).
    exists s', t. split; [exact E |]. split; [exact Hsorted |].
    rewrite <- Hw in E.
    rewrite (draw_patterns_unfold _ w s s' t E), Hw, Hsorted. reflexivity.
  - intros l'. now apply sorted_three_unique.
Qed.

(** ** The disclosure count over frames *)

Lemma draw_repeat_reveals (p : Pattern Literal) a entries :
  p = PatternArrayDynamic a entries \/ p = PatternArrayStatic a entries ->
  isHidden a = false ->
  isInlined a || negb (isSealed a) = true ->
  bounded ChunkSize p ->
  addr a ∉ ⋃ (map nodes entries) ->
  forall clicks s,
    Forall eager clicks ->
    (forall j, j < N.of_nat (length clicks) ->
               revealed s a + DisplayEndStep * j
               < chunkTotal ChunkSize entries) ->
    exists s',
      draw_repeat ChunkSize p clicks s = Some s'
      /\ revealed s' a
         = revealed s a + DisplayEndStep * N.of_nat (length clicks).
Proof.
  intros Hp Hvis Hopen Hb Hout.
  induction clicks as [| w clicks IH]; intros s Hw Hshown; cbn [draw_repeat].
  - exists s. split; [reflexivity |]. cbn. lia.
  - inversion Hw as [| ? ? Hw1 Hws]; subst.
    destruct (draw_array_reveals p a entries w s Hp Hvis Hopen Hb Hout Hw1)
      as (s1 & t1 & E1 & Hr1).
    { specialize (Hshown 0). rewrite N.mul_0_r, N.add_0_r in Hshown.
      apply Hshown. cbn [length]. lia. }
    rewrite E1.
    destruct (IH s1 Hws) as (s' & E' & Hr').
    { intros j Hj. rewrite Hr1.
      specialize (Hshown (j + 1)).
      replace (revealed s a + DisplayEndStep + DisplayEndStep * j)
        with (revealed s a + DisplayEndStep * (j + 1)) by lia.
      apply Hshown. cbn [length]. lia. }
    exists s'. split; [exact E' |]. rewrite Hr', Hr1. cbn [length]. lia.
Qed.

Lemma draw_frames_grow (frames : list (Frame Literal)) : forall s,
  0 < ChunkSize ->
  forallb (fits ChunkSize) (m_sortedPatterns s) = true ->
  Forall (fun f => forallb (fits ChunkSize) (frame_patterns f) = true)
    frames ->
  exists s',
    draw_frames Literal_gtb Literal_ltb GetID ChunkSize frames s = Some s'
    /\ forall k v, m_displayEnd s !! k = Some v ->
         exists v', m_displayEnd s' !! k = Some v' /\ grows v v'.
Proof.
  induction frames as [| f frames IH]; intros s HC Hs Hf; cbn [draw_frames].
  - exists s. split; [reflexivity |]. intros k v Hv. exists v.
    split; [exact Hv | apply grows_refl].
  - inversion Hf as [| ? ? Hf1 Hfs]; subst.
    destruct (draw_patterns_sound (frame_patterns f) (frame_world f)
                (set_sortSpecs s (frame_specs f)) HC Hs Hf1)
      as (s1 & t1 & E1 & Hs1 & Hg1).
    rewrite E1.
    destruct (IH s1 HC Hs1 Hfs) as (s' & E' & Hg').
    exists s'. split; [exact E' |]. intros k v Hv.
    destruct (Hg1 k v Hv) as (v1 & Hv1 & G1).
    destruct (Hg' k v1 Hv1) as (v' & Hv' & G').
    exists v'. split; [exact Hv' | eapply grows_trans; eauto].
Qed.


End Table.

(** * Further properties of the drawer *)

(** ** What every call of a run satisfies *)

Section Emits.

Variable P : Call -> Prop.

Lemma emits_ret {A} (x : A) : emits P (ret (Literal:=Literal) x).
Proof. intros w s y s' t E. injection E as _ _ <-. constructor. Qed.

Lemma emits_call c : P c -> emits P (call (Literal:=Literal) c).
Proof.
  intros H w s y s' t E. injection E as _ _ <-.
  constructor; [exact H | constructor].
Qed.

Lemma emits_query c : P c -> emits P (query (Literal:=Literal) c).
Proof.
  intros H w s y s' t E. injection E as _ _ <-.
  constructor; [exact H | constructor].
Qed.

Lemma emits_get : emits P (get (Literal:=Literal)).
Proof. intros w s y s' t E. injection E as _ _ <-. constructor. Qed.

Lemma emits_put s0 : emits P (put (Literal:=Literal) s0).
Proof. intros w s y s' t E. injection E as _ _ <-. constructor. Qed.

Lemma emits_bind {A B} (m : Draw Literal A) (f : A -> Draw Literal B) :
  emits P m -> (forall x, emits P (f x)) -> emits P (bind m f).
Proof.
  intros Hm Hf w s y s' t E. unfold bind in E.
  destruct (m w s) as [[[x s1] t1] |] eqn:E1; [| discriminate].
  destruct (f x w s1) as [[[y' s2] t2] |] eqn:E2; [| discriminate].
  injection E as <- <- <-. apply Forall_app. split.
  - exact (Hm w s x s1 t1 E1).
  - exact (Hf x w s1 y' s2 t2 E2).
Qed.

Lemma emits_ignore {A} (m : Draw Literal A) : emits P m -> emits P (ignore m).
Proof.
  intros H w s x s' t E. unfold ignore in E.
  destruct (m w s) as [[[y s1] t1] |] eqn:E1; [| discriminate].
  injection E as <- <- <-. exact (H w s y s1 t1 E1).
Qed.

Lemma emits_when b (m : Draw Literal unit) : emits P m -> emits P (when b m).
Proof. intros H. destruct b; [exact H | apply emits_ret]. Qed.

Lemma emits_deref {A} (o : option A) : emits P (deref (Literal:=Literal) o).
Proof. destruct o; [apply emits_ret |]. intros w s x s' t [=]. Qed.

Lemma emits_stateless {A} (m : Draw Literal A) :
  (forall w s x s' t, m w s = Some (x, s', t) -> t = []) -> emits P m.
Proof. intros H w s x s' t E. rewrite (H w s x s' t E). constructor. Qed.

Lemma emits_isPatternSelected address size :
  emits P (isPatternSelected (Literal:=Literal) address size).
Proof.
  apply emits_stateless. intros w s x s' t. unfold isPatternSelected.
  destruct (currSelection w); now intros [= <- <- <-].
Qed.

Lemma emits_getDisplayEnd (a : Attrs Literal) : emits P (getDisplayEnd a).
Proof.
  apply emits_stateless. intros w s x s' t. unfold getDisplayEnd.
  destruct (m_displayEnd s !! addr a); now intros [= <- <- <-].
Qed.

Lemma emits_assignDisplayEnd (a : Attrs Literal) v :
  emits P (assignDisplayEnd a v).
Proof. apply emits_stateless. now intros w s x s' t [= <- <- <-]. Qed.

Variable comp : Pattern Literal -> Pattern Literal -> Draw Literal bool.
Hypothesis comp_emits : forall x y, emits P (comp x y).

Lemma emits_unguarded_linear_insert val before : forall behind,
  emits P (unguarded_linear_insert comp val before behind).
Proof using comp_emits.
  induction before as [| next before' IH]; intros behind; cbn.
  - intros w s x s' t [=].
  - apply emits_bind; [apply comp_emits |]. intros [].
    + apply IH.
    + apply emits_ret.
Qed.

Lemma emits_insertion_sort rest : forall sorted,
  emits P (insertion_sort comp sorted rest).
Proof using comp_emits.
  induction rest as [| val rest' IH]; intros sorted; cbn;
    [apply emits_ret |].
  apply emits_bind; [apply emits_deref |]. intros first.
  apply emits_bind; [apply comp_emits |]. intros less.
  apply emits_bind; [| intros sorted'; apply IH].
  destruct less; [apply emits_ret | apply emits_unguarded_linear_insert].
Qed.

Lemma emits_std_sort range : emits P (std_sort comp range).
Proof using comp_emits.
  destruct range as [| first rest]; cbn;
    [apply emits_ret | apply emits_insertion_sort].
Qed.

Lemma emits_for_each {A} (f : Pattern Literal -> Draw Literal A) range :
  (forall e, In e range -> emits P (f e)) -> emits P (for_each f range).
Proof.
  induction range as [| x rest IH]; intros H; cbn; [apply emits_ret |].
  apply emits_bind; [apply H; now left |]. intros y.
  apply emits_bind; [apply IH; intros e He; apply H; now right |].
  intros ys. apply emits_ret.
Qed.

Lemma emits_Pattern_sort (p : Pattern Literal) :
  emits P (Pattern_sort comp p).
Proof using comp_emits.
  induction p using Pattern_ind; cbn [Pattern_sort]; try apply emits_ret.
  1, 2, 5, 6: apply emits_bind;
    [apply emits_for_each; exact (list_all_In _ _ X) |];
    intros l'; (apply emits_bind; [apply emits_std_sort |]);
    intros l''; apply emits_ret.
  - apply emits_bind; [apply emits_for_each; exact (list_all_In _ _ X) |].
    intros l'. apply emits_ret.
  - apply emits_bind; [exact IHp | intros q; apply emits_ret].
Qed.

End Emits.

Lemma emits_weaken (P Q : Call -> Prop) {A} (m : Draw Literal A) :
  (forall c, P c -> Q c) -> emits P m -> emits Q m.
Proof.
  intros H Hm w s x s' t E.
  exact (List.Forall_impl Q H (Hm w s x s' t E)).
Qed.

Create HintDb emit.

Ltac emit_step :=
  first
    [ apply emits_ret
    | apply emits_get
    | apply emits_put
    | apply emits_call; first [intros ? ? [=] | split; reflexivity]
    | apply emits_query; first [intros ? ? [=] | split; reflexivity]
    | apply emits_ignore
    | apply emits_when
    | apply emits_deref
    | apply emits_isPatternSelected
    | apply emits_getDisplayEnd
    | apply emits_assignDisplayEnd
    | solve [auto with emit]
    | apply emits_bind; [| intros ?]
    | match goal with
      | |- emits _ (if ?b then _ else _) => destruct b
      end ].

Ltac emit := repeat emit_step.

(** ** The selection is set to the range of a node *)

Lemma selectsWithin_incl allowed allowed' c :
  incl allowed allowed' -> selectsWithin allowed c -> selectsWithin allowed' c.
Proof. intros Hi H address size E. apply Hi, H, E. Qed.

Section Within.

Variable allowed : list (N * N).

Lemma within_makeSelectable (a : Attrs Literal) :
  In (getOffset a, getSize a) allowed ->
  emits (selectsWithin allowed) (makeSelectable a).
Proof. intros Ha. unfold makeSelectable. emit. now subst. Qed.

Lemma within_highlightWhenSelected {A} address size
    (callback : Draw Literal A) :
  emits (selectsWithin allowed) callback ->
  emits (selectsWithin allowed) (highlightWhenSelected address size callback).
Proof. intros H. unfold highlightWhenSelected. emit. Qed.

(** The row routines of a node whose range is allowed. *)
Lemma within_row (a : Attrs Literal) :
  In (getOffset a, getSize a) allowed ->
  emits (selectsWithin allowed) (createDefaultEntry a)
  /\ emits (selectsWithin allowed) (visit_PatternEnum a)
  /\ (forall o z,
        emits (selectsWithin allowed) (visit_PatternBitfieldField a o z))
  /\ (forall keyword,
        emits (selectsWithin allowed) (header_PatternStruct a keyword))
  /\ emits (selectsWithin allowed) (header_PatternBitfield a)
  /\ emits (selectsWithin allowed) (header_PatternPointer a)
  /\ (forall (entries : list (Pattern Literal)) inlined,
        emits (selectsWithin allowed) (drawArray_header a entries inlined))
  /\ (forall d, emits (selectsWithin allowed) (drawArray_placeholder a d)).
Proof.
  intros Ha. pose proof (within_makeSelectable a Ha) as Hm.
  assert (Hh : forall A address size (callback : Draw Literal A),
            emits (selectsWithin allowed) callback ->
            emits (selectsWithin allowed)
              (highlightWhenSelected address size callback))
    by (intros; now apply within_highlightWhenSelected).
  repeat split; intros;
    unfold createDefaultEntry, visit_PatternEnum, visit_PatternBitfieldField,
      header_PatternStruct, header_PatternBitfield, header_PatternPointer,
      drawArray_header, drawArray_placeholder, createLeafNode,
      createTreeNode, drawCommentTooltip, drawNameColumn, drawColorColumn,
      drawOffsetColumn, drawSizeColumn, drawTypenameColumn,
      highlightWhenSelected_pattern;
    repeat first [exact Hm | apply Hh | emit_step].
Qed.

Variable fn : Pattern Literal -> Draw Literal unit.

Lemma within_forEachEntry_from start end_ entries :
  (forall e, In e entries -> emits (selectsWithin allowed) (fn e)) ->
  forall index,
    emits (selectsWithin allowed)
      (forEachEntry_from fn start end_ index entries).
Proof.
  induction entries as [| e rest IH]; intros H index; cbn.
  - apply emits_ret.
  - apply emits_bind.
    + apply emits_when, H. now left.
    + intros _. apply IH. intros e' He'. apply H. now right.
Qed.

Variable a : Attrs Literal.
Variable entries : list (Pattern Literal).
Hypothesis fn_within :
  forall e, In e entries -> emits (selectsWithin allowed) (fn e).
Hypothesis a_allowed : In (getOffset a, getSize a) allowed.

Lemma within_drawArray_chunk i :
  emits (selectsWithin allowed) (drawArray_chunk ChunkSize fn a entries i).
Proof using fn_within.
  unfold drawArray_chunk, drawColorColumn.
  pose proof (within_forEachEntry_from i
                (N.min (getEntryCount entries) (wrap64 (i + ChunkSize)))
                entries fn_within 0) as Hf.
  repeat first [apply within_highlightWhenSelected | exact Hf | emit_step].
Qed.

Lemma within_drawArray_loop fuel : forall i chunkCount,
  emits (selectsWithin allowed)
    (drawArray_loop ChunkSize fn a entries fuel i chunkCount).
Proof using fn_within a_allowed.
  induction fuel as [| fuel IH]; intros i chunkCount; cbn [drawArray_loop];
    destruct (i <? getEntryCount entries); try apply emits_ret.
  - intros w s x s' t [=].
  - destruct (within_row a a_allowed) as (_ & _ & _ & _ & _ & _ & _ & Hp).
    pose proof within_drawArray_chunk as Hc.
    repeat first [apply Hp | apply Hc | apply IH | emit_step].
Qed.

Lemma within_drawArray inlined :
  emits (selectsWithin allowed) (drawArray ChunkSize fn a entries inlined).
Proof using fn_within a_allowed.
  unfold drawArray.
  destruct (within_row a a_allowed) as (_ & _ & _ & _ & _ & _ & Hh & _).
  pose proof within_drawArray_loop as Hl.
  repeat first [apply Hh | apply Hl | emit_step].
Qed.

End Within.

Lemma ranges_self (p : Pattern Literal) :
  In (getOffset (attrs p), getSize (attrs p)) (ranges p).
Proof. destruct p; now left. Qed.

Lemma ranges_child (e : Pattern Literal) l :
  In e l -> incl (ranges e) (flat_map ranges l).
Proof. intros He r Hr. apply in_flat_map. now exists e. Qed.

Lemma within_accept (p : Pattern Literal) :
  emits (selectsWithin (ranges p)) (accept ChunkSize p).
Proof.
  assert (C : forall (l : list (Pattern Literal)) allowed,
            list_all (Pattern Literal)
              (fun q => emits (selectsWithin (ranges q)) (accept ChunkSize q))
              l ->
            incl (flat_map ranges l) allowed ->
            forall e, In e l ->
              emits (selectsWithin allowed) (draw ChunkSize e)).
  { intros l allowed H Hi e He. unfold draw.
    destruct (isHidden (attrs e)); [apply emits_ret |].
    eapply emits_weaken; [| exact (list_all_In _ _ H e He)].
    intros c. apply selectsWithin_incl.
    intros r Hr. apply Hi. exact (ranges_child e l He r Hr). }
  induction p using Pattern_ind; cbn [accept];
    change (fun p0 : Pattern Literal =>
              if isHidden (attrs p0) then ret tt else accept ChunkSize p0)
      with (draw (Literal:=Literal) ChunkSize);
    match goal with
    | |- emits (selectsWithin (ranges ?q)) _ =>
        destruct (within_row (ranges q) a (ranges_self q))
          as (H1 & H2 & H3 & H4 & H5 & H6 & H7 & H8)
    end;
    try solve [first [exact H1 | exact H2 | apply H3 | emit]].
  - apply within_drawArray;
      [| apply (ranges_self (PatternArrayDynamic a entries))].
    apply (C entries); [exact X |]. intros r Hr. now right.
  - apply within_drawArray;
      [| apply (ranges_self (PatternArrayStatic a entries))].
    apply (C entries); [exact X |]. intros r Hr. now right.
  - apply emits_bind; [exact H5 |]. intros open. destruct open; emit.
    apply within_forEachEntry_from, (C fields); [exact X |].
    intros r Hr. now right.
  - apply emits_bind; [exact H6 |]. intros open. destruct open; emit.
    eapply emits_weaken; [| exact IHp].
    intros c. apply selectsWithin_incl. intros r Hr. now right.
  - apply emits_bind; [apply H4 |]. intros open. destruct open; emit.
    apply within_forEachEntry_from, (C members); [exact X |].
    intros r Hr. now right.
  - apply emits_bind; [apply H4 |]. intros open. destruct open; emit.
    apply within_forEachEntry_from, (C members); [exact X |].
    intros r Hr. now right.
Qed.

(** X5: whatever the toolkit answers, a draw sets the selection of the
    editor to nothing but the byte range of the node or of a node below
    it: every call of [setSelection] carries the offset and the size of
    one of them. *)
Theorem draw_selects_a_node (p : Pattern Literal) w s s' t address size :
  draw ChunkSize p w s = Some (tt, s', t) ->
  In (SetSelection address size) t ->
  In (address, size) (ranges p).
Proof.
  intros E Hin.
  assert (H : emits (selectsWithin (ranges p)) (draw ChunkSize p)).
  { unfold draw. destruct (isHidden (attrs p));
      [apply emits_ret | apply within_accept]. }
  specialize (H w s tt s' t E). rewrite List.Forall_forall in H.
  exact (H _ Hin address size eq_refl).
Qed.

(** ** The stacks of the toolkit *)

Lemma replay_app w t1 t2 n k :
  replay w (t1 ++ t2) n k
  = match replay w t1 n k with
    | Some (n', k') => replay w t2 n' k'
    | None => None
    end.
Proof.
  revert n k. induction t1 as [| c t1 IH]; intros n k; cbn; [reflexivity |].
  destruct (effect c (answer w n) k); [apply IH | reflexivity].
Qed.

Lemma replay_quiet w t n k : Forall quiet t -> replay w t n k = Some (n, k).
Proof.
  induction 1 as [| c t [Ha He] _ IH]; cbn; [reflexivity |].
  now rewrite He, Ha.
Qed.

Lemma tracks_frame {A} pre (post : A -> Stacks -> Stacks) g
    (m : Draw Literal A) :
  tracks pre post m -> tracks (fun k => pre (g k)) (fun x k => post x (g k)) m.
Proof. intros H w s x s' t E k. exact (H w s x s' t E (g k)). Qed.

Lemma balanced_of_tracks {A} (m : Draw Literal A) :
  tracks (fun k => k) (fun _ k => k) m -> balanced m.
Proof. intros H pre w s x s' t E k. exact (H w s x s' t E (pre k)). Qed.

Lemma opens_of_tracks (m : Draw Literal bool) :
  tracks (fun k => k) treeOpened m -> opens m.
Proof. intros H pre. exact (tracks_frame _ _ pre m H). Qed.

Lemma tracks_ret {A} pre (post : A -> Stacks -> Stacks) (x : A) :
  (forall k, pre k = post x k) -> tracks pre post (ret (Literal:=Literal) x).
Proof. intros H w s y s' t [= <- <- <-] k. cbn. now rewrite H. Qed.

Lemma balanced_ret {A} (x : A) : balanced (ret (Literal:=Literal) x).
Proof. intros pre. now apply tracks_ret. Qed.

Lemma tracks_bind {A B} pre (mid : A -> Stacks -> Stacks)
    (post : B -> Stacks -> Stacks)
    (m : Draw Literal A) (f : A -> Draw Literal B) :
  tracks pre mid m -> (forall x, tracks (mid x) post (f x)) ->
  tracks pre post (bind m f).
Proof.
  intros Hm Hf w s y s' t E k. unfold bind in E.
  destruct (m w s) as [[[x s1] t1] |] eqn:E1; [| discriminate].
  destruct (f x w s1) as [[[y' s2] t2] |] eqn:E2; [| discriminate].
  injection E as <- <- <-.
  rewrite replay_app, (Hm w s x s1 t1 E1 k).
  exact (Hf x w s1 y' s2 t2 E2 k).
Qed.

Lemma balanced_bind {A B} (m : Draw Literal A) (f : A -> Draw Literal B) :
  balanced m -> (forall x, balanced (f x)) -> balanced (bind m f).
Proof.
  intros Hm Hf pre. eapply tracks_bind; [apply Hm |]. intros x. apply Hf.
Qed.

(** A balanced step in front of a computation. *)
Lemma tracks_after {A B} pre (post : B -> Stacks -> Stacks)
    (m : Draw Literal A) (f : A -> Draw Literal B) :
  balanced m -> (forall x, tracks pre post (f x)) ->
  tracks pre post (bind m f).
Proof. intros Hm Hf. eapply tracks_bind; [apply Hm | exact Hf]. Qed.

Lemma balanced_call c : quiet c -> balanced (call (Literal:=Literal) c).
Proof.
  intros [Ha He] pre w s x s' t [= <- <- <-] k. cbn. now rewrite He, Ha.
Qed.

(** A question that moves the tape and none of the stacks. *)
Lemma balanced_query c :
  asks c = true -> (forall yes k, effect c yes k = Some k) ->
  balanced (query (Literal:=Literal) c).
Proof.
  intros Ha He pre w s x s' t [= <- <- <-] k. cbn. now rewrite He, Ha.
Qed.

Lemma balanced_when b (m : Draw Literal unit) :
  balanced m -> balanced (when b m).
Proof. intros H. destruct b; [exact H | apply balanced_ret]. Qed.

Lemma balanced_ignore {A} (m : Draw Literal A) :
  balanced m -> balanced (ignore m).
Proof.
  intros H pre w s x s' t E k. unfold ignore in E.
  destruct (m w s) as [[[y s1] t1] |] eqn:E1; [| discriminate].
  injection E as <- <- <-. exact (H pre w s y s1 t1 E1 k).
Qed.

Lemma balanced_deref {A} (o : option A) : balanced (deref (Literal:=Literal) o).
Proof.
  destruct o; [apply balanced_ret |]. intros pre w s x s' t [=].
Qed.

Lemma balanced_stateless {A} (m : Draw Literal A) :
  (forall w s x s' t, m w s = Some (x, s', t) -> t = [] /\ asked s' = asked s) ->
  balanced m.
Proof.
  intros H pre w s x s' t E k. destruct (H w s x s' t E) as [-> ->].
  reflexivity.
Qed.

Lemma balanced_isPatternSelected address size :
  balanced (isPatternSelected (Literal:=Literal) address size).
Proof.
  apply balanced_stateless. intros w s x s' t. unfold isPatternSelected.
  destruct (currSelection w); intros [= <- <- <-]; now split.
Qed.

Lemma balanced_getDisplayEnd (a : Attrs Literal) : balanced (getDisplayEnd a).
Proof.
  apply balanced_stateless. intros w s x s' t. unfold getDisplayEnd.
  destruct (m_displayEnd s !! addr a); intros [= <- <- <-]; now split.
Qed.

Lemma balanced_assignDisplayEnd (a : Attrs Literal) v :
  balanced (assignDisplayEnd a v).
Proof.
  apply balanced_stateless. intros w s x s' t [= <- <- <-]. now split.
Qed.

(** What the highlight makes of its callback: the same run, between a
    push and a pop of the style colour when the range is selected. *)
Lemma highlightWhenSelected_result {A} address size
    (callback : Draw Literal A) w s :
  highlightWhenSelected address size callback w s
  = match callback w s with
    | Some (y, s2, t2) =>
        Some (y, s2,
              if match currSelection w with
                 | Some sel => Region.overlaps (Region.mk address size) sel
                 | None => false
                 end
              then PushStyleColor :: t2 ++ [PopStyleColor]
              else t2)
    | None => None
    end.
Proof.
  unfold highlightWhenSelected, bind, isPatternSelected, when, call, ret.
  destruct (currSelection w) as [sel |]; cbn;
    [destruct (Region.overlaps _ sel); cbn |];
    destruct (callback w s) as [[[y s2] t2] |]; cbn;
    rewrite ?app_nil_r; reflexivity.
Qed.

Lemma tracks_highlightWhenSelected {A} (post : A -> Stacks -> Stacks)
    address size (callback : Draw Literal A) :
  (forall x i c o b,
     post x {| ids := i; colors := S c; tooltips := o; tables := b |}
     = {| ids := ids (post x {| ids := i; colors := c; tooltips := o;
                                tables := b |});
          colors := S (colors (post x {| ids := i; colors := c;
                                         tooltips := o; tables := b |}));
          tooltips := tooltips (post x {| ids := i; colors := c;
                                          tooltips := o; tables := b |});
          tables := tables (post x {| ids := i; colors := c;
                                      tooltips := o; tables := b |}) |}) ->
  tracks (fun k => k) post callback ->
  tracks (fun k => k) post (highlightWhenSelected address size callback).
Proof.
  intros Hc H w s x s' t E k.
  rewrite highlightWhenSelected_result in E.
  destruct (callback w s) as [[[y s2] t2] |] eqn:Ec; [| discriminate].
  injection E as <- <- <-.
  destruct (match currSelection w with
            | Some sel => Region.overlaps (Region.mk address size) sel
            | None => false
            end).
  - destruct k as [i c o b]. cbn. rewrite replay_app.
    rewrite (H w s y s2 t2 Ec
               {| ids := i; colors := S c; tooltips := o; tables := b |}).
    rewrite Hc. cbn.
    destruct (post y {| ids := i; colors := c; tooltips := o; tables := b |}).
    reflexivity.
  - exact (H w s y s2 t2 Ec k).
Qed.

Lemma balanced_highlightWhenSelected {A} address size
    (callback : Draw Literal A) :
  balanced callback -> balanced (highlightWhenSelected address size callback).
Proof.
  intros H. apply balanced_of_tracks, tracks_highlightWhenSelected.
  - reflexivity.
  - apply (H (fun k => k)).
Qed.

Create HintDb bal.

Ltac bal_step :=
  first
    [ apply balanced_ret
    | apply balanced_call; split; reflexivity
    | apply balanced_query; [reflexivity | reflexivity]
    | apply balanced_ignore
    | apply balanced_when
    | apply balanced_deref
    | apply balanced_highlightWhenSelected
    | solve [auto with bal]
    | apply balanced_bind; [| intros ?]
    | match goal with
      | |- balanced (if ?b then _ else _) => destruct b
      end ].

Ltac bal := repeat bal_step.

Ltac track_step :=
  first
    [ apply tracks_ret; intros; reflexivity
    | apply tracks_after; [solve [bal] | intros ?] ].

Ltac track := repeat track_step.

Lemma balanced_makeSelectable (a : Attrs Literal) : balanced (makeSelectable a).
Proof.
  apply balanced_of_tracks. intros w s x s' t E k.
  unfold makeSelectable, bind, call, query, when, ret in E. cbn in E.
  destruct (answer w (asked s)); cbn in E; injection E as <- <- <-;
    destruct k; reflexivity.
Qed.

Lemma balanced_drawCommentTooltip (a : Attrs Literal) :
  balanced (drawCommentTooltip a).
Proof.
  apply balanced_of_tracks. intros w s x s' t E k.
  unfold drawCommentTooltip, bind, call, query, when, ret in E. cbn in E.
  destruct (answer w (asked s)); cbn in E;
    [destruct (String.eqb (getComment a) ""); cbn in E |];
    injection E as <- <- <-; destruct k; reflexivity.
Qed.

#[local] Hint Resolve balanced_makeSelectable balanced_drawCommentTooltip
  balanced_isPatternSelected balanced_getDisplayEnd
  balanced_assignDisplayEnd : bal.

Lemma balanced_createLeafNode (a : Attrs Literal) : balanced (createLeafNode a).
Proof. unfold createLeafNode. bal. Qed.

Lemma balanced_drawTypenameColumn (a : Attrs Literal) name :
  balanced (drawTypenameColumn a name).
Proof. unfold drawTypenameColumn. bal. Qed.

Lemma balanced_drawNameColumn (a : Attrs Literal) : balanced (drawNameColumn a).
Proof. unfold drawNameColumn, highlightWhenSelected_pattern. bal. Qed.

Lemma balanced_drawColorColumn (a : Attrs Literal) :
  balanced (drawColorColumn a).
Proof. unfold drawColorColumn. bal. Qed.

Lemma balanced_drawOffsetColumn (a : Attrs Literal) :
  balanced (drawOffsetColumn a).
Proof. unfold drawOffsetColumn. bal. Qed.

Lemma balanced_drawSizeColumn (a : Attrs Literal) : balanced (drawSizeColumn a).
Proof. unfold drawSizeColumn. bal. Qed.

#[local] Hint Resolve balanced_createLeafNode balanced_drawTypenameColumn
  balanced_drawNameColumn balanced_drawColorColumn balanced_drawOffsetColumn
  balanced_drawSizeColumn : bal.

Lemma balanced_createDefaultEntry (a : Attrs Literal) :
  balanced (createDefaultEntry a).
Proof. unfold createDefaultEntry. bal. Qed.

Lemma balanced_visit_PatternBitfieldField (a : Attrs Literal) o z :
  balanced (visit_PatternBitfieldField a o z).
Proof. unfold visit_PatternBitfieldField. bal. Qed.

Lemma balanced_visit_PatternEnum (a : Attrs Literal) :
  balanced (visit_PatternEnum a).
Proof. unfold visit_PatternEnum. bal. Qed.

Lemma balanced_drawArray_placeholder (a : Attrs Literal) d :
  balanced (drawArray_placeholder a d).
Proof. unfold drawArray_placeholder. bal. Qed.

#[local] Hint Resolve balanced_createDefaultEntry
  balanced_visit_PatternBitfieldField balanced_visit_PatternEnum
  balanced_drawArray_placeholder : bal.

Lemma opens_query_TreeNodeEx label args :
  tracks (fun k => k) treeOpened
    (query (Literal:=Literal) (TreeNodeEx label args SpanFullWidth)).
Proof. intros w s x s' t [= <- <- <-] k. reflexivity. Qed.

Lemma opens_highlighted_TreeNodeEx address size label args :
  opens (highlightWhenSelected (Literal:=Literal) address size
           (query (TreeNodeEx label args SpanFullWidth))).
Proof.
  apply opens_of_tracks.
  apply tracks_highlightWhenSelected; [| apply opens_query_TreeNodeEx].
  intros [] i c o b; reflexivity.
Qed.

(** A sealed node is drawn as text and opens nothing; any other node is a
    tree node, pushed when the toolkit reports it open. *)
Lemma opens_createTreeNode (a : Attrs Literal) : opens (createTreeNode a).
Proof.
  unfold createTreeNode, highlightWhenSelected_pattern. destruct (isSealed a).
  - intros pre. track.
  - apply opens_highlighted_TreeNodeEx.
Qed.

(** The header rows: not inlined, they return whether the node is open
    and have pushed it then. *)
Ltac track_header :=
  intros pre; track;
  (eapply tracks_bind; [apply opens_createTreeNode | intros ?]);
  track.

Lemma opens_header_PatternStruct (a : Attrs Literal) keyword :
  isInlined a = false -> opens (header_PatternStruct a keyword).
Proof. intros H. unfold header_PatternStruct. rewrite H. track_header. Qed.

Lemma opens_header_PatternBitfield (a : Attrs Literal) :
  isInlined a = false -> opens (header_PatternBitfield a).
Proof. intros H. unfold header_PatternBitfield. rewrite H. track_header. Qed.

Lemma opens_header_PatternPointer (a : Attrs Literal) :
  isInlined a = false -> opens (header_PatternPointer a).
Proof. intros H. unfold header_PatternPointer. rewrite H. track_header. Qed.

Lemma opens_drawArray_header (a : Attrs Literal) entries :
  opens (drawArray_header a entries false).
Proof. unfold drawArray_header. track_header. Qed.

(** A node: the header, then the body and the pop when the node is open. *)
Lemma balanced_node (inlined : bool) (header : Draw Literal bool)
    (body : Draw Literal unit) :
  (inlined = false -> opens header) ->
  (inlined = true -> header = ret true) ->
  balanced body ->
  balanced (open <- header ;;
            if open then body ;; when (negb inlined) (call TreePop)
            else ret tt).
Proof.
  intros Ho Hi Hb. destruct inlined; cbn [negb].
  - rewrite (Hi eq_refl). bal.
  - intros pre. eapply tracks_bind; [apply (Ho eq_refl) | intros open].
    destruct open; [| apply tracks_ret; intros; reflexivity].
    eapply tracks_bind; [apply (Hb (fun k => treeOpened true (pre k))) |].
    intros _ w s r s' t [= <- <- <-] k. cbn. destruct (pre k). reflexivity.
Qed.

Section BalancedEntries.

Variable fn : Pattern Literal -> Draw Literal unit.

Lemma balanced_forEachEntry_from start end_ entries :
  (forall e, In e entries -> balanced (fn e)) ->
  forall index, balanced (forEachEntry_from fn start end_ index entries).
Proof.
  induction entries as [| e rest IH]; intros H index; cbn.
  - apply balanced_ret.
  - apply balanced_bind.
    + apply balanced_when, H. now left.
    + intros _. apply IH. intros e' He'. apply H. now right.
Qed.

Lemma balanced_forEachEntry start end_ entries :
  (forall e, In e entries -> balanced (fn e)) ->
  balanced (forEachEntry fn entries start end_).
Proof. intros H. now apply balanced_forEachEntry_from. Qed.

Variable a : Attrs Literal.
Variable entries : list (Pattern Literal).
Hypothesis fn_balanced : forall e, In e entries -> balanced (fn e).

(** A chunk: its summary row is a tree node, popped after the entries
    when it is open. *)
Lemma balanced_drawArray_chunk i :
  balanced (drawArray_chunk ChunkSize fn a entries i).
Proof using fn_balanced.
  unfold drawArray_chunk.
  apply balanced_bind; [apply balanced_deref |]. intros first.
  apply balanced_bind; [apply balanced_deref |]. intros last. cbn zeta.
  intros pre.
  eapply tracks_bind; [apply opens_highlighted_TreeNodeEx |].
  intros chunkOpen. track.
  destruct chunkOpen; [| apply tracks_ret; intros; reflexivity].
  eapply tracks_bind.
  { apply (balanced_forEachEntry _ _ _ fn_balanced
             (fun k => treeOpened true (pre k))). }
  intros _ w s r s' t [= <- <- <-] k. cbn. destruct (pre k). reflexivity.
Qed.

Lemma balanced_drawArray_loop fuel : forall i chunkCount,
  balanced (drawArray_loop ChunkSize fn a entries fuel i chunkCount).
Proof using fn_balanced.
  induction fuel as [| fuel IH]; intros i chunkCount; cbn [drawArray_loop];
    destruct (i <? getEntryCount entries); try apply balanced_ret.
  - intros pre w s x s' t [=].
  - pose proof balanced_drawArray_chunk. bal.
Qed.

Lemma balanced_drawArray inlined :
  balanced (drawArray ChunkSize fn a entries inlined).
Proof using fn_balanced.
  unfold drawArray. destruct (getEntryCount entries =? 0);
    [apply balanced_ret |].
  apply balanced_node.
  - intros ->. apply opens_drawArray_header.
  - intros ->. reflexivity.
  - apply balanced_drawArray_loop.
Qed.

End BalancedEntries.

Lemma balanced_accept (p : Pattern Literal) : balanced (accept ChunkSize p).
Proof.
  assert (D : forall q : Pattern Literal,
            balanced (accept ChunkSize q) -> balanced (draw ChunkSize q)).
  { intros q H. unfold draw. destruct (isHidden (attrs q)); [bal | exact H]. }
  assert (C : forall l : list (Pattern Literal),
            list_all (Pattern Literal)
              (fun q => balanced (accept ChunkSize q)) l ->
            forall e, In e l -> balanced (draw ChunkSize e)).
  { intros l H e He. apply D. exact (list_all_In _ _ H e He). }
  induction p using Pattern_ind; cbn [accept];
    change (fun p0 : Pattern Literal =>
              if isHidden (attrs p0) then ret tt else accept ChunkSize p0)
      with (draw (Literal:=Literal) ChunkSize);
    try solve [bal].
  - apply balanced_drawArray, C, X.
  - apply balanced_drawArray, C, X.
  - apply balanced_node.
    + apply opens_header_PatternBitfield.
    + intros H. unfold header_PatternBitfield. now rewrite H.
    + apply balanced_forEachEntry, C, X.
  - apply balanced_node.
    + apply opens_header_PatternPointer.
    + intros H. unfold header_PatternPointer. now rewrite H.
    + exact IHp.
  - apply balanced_node.
    + apply opens_header_PatternStruct.
    + intros H. unfold header_PatternStruct. now rewrite H.
    + apply balanced_forEachEntry, C, X.
  - apply balanced_node.
    + apply opens_header_PatternStruct.
    + intros H. unfold header_PatternStruct. now rewrite H.
    + apply balanced_forEachEntry, C, X.
Qed.

Lemma balanced_draw (p : Pattern Literal) : balanced (draw ChunkSize p).
Proof.
  unfold draw. destruct (isHidden (attrs p)); [bal | apply balanced_accept].
Qed.

Lemma balanced_for_each_draw (l : list (Pattern Literal)) :
  balanced (for_each (draw ChunkSize) l).
Proof.
  induction l as [| p l IH]; cbn [for_each]; [apply balanced_ret |].
  apply balanced_bind; [apply balanced_draw |]. intros y.
  apply balanced_bind; [exact IH |]. intros ys. apply balanced_ret.
Qed.

(** X3: the draw of a node leaves the stacks of the toolkit as it found
    them, whatever the toolkit answers: every [PopID], [PopStyleColor],
    [EndTooltip] and [TreePop] finds what it pops, a tree node is popped
    exactly when the toolkit reported it open and it was not drawn as a
    leaf, and at the end the ID stack and the depths of the colour and
    tooltip stacks are what they were. *)
Theorem draw_balances_stacks (p : Pattern Literal) w s s' t k :
  draw ChunkSize p w s = Some (tt, s', t) ->
  replay w t (asked s) k = Some (asked s', k).
Proof. intros E. exact (balanced_draw p (fun k => k) w s tt s' t E k). Qed.

Section TableStacks.

Variable Literal_gtb : Literal -> Literal -> bool.
Variable Literal_ltb : Literal -> Literal -> bool.
Variable GetID : string -> N.

Lemma quiet_comparator specs x y :
  emits quiet (comparator Literal_gtb Literal_ltb GetID specs x y).
Proof. unfold comparator. emit. Qed.

(** The table is begun exactly when [BeginTable] says so; the calls that
    set it up and the comparisons of a rebuild touch no stack. *)
Lemma tracks_beginPatternTable patterns :
  tracks (fun k => k) tableBegun
    (beginPatternTable Literal_gtb Literal_ltb GetID patterns).
Proof.
  intros w s x s' t E k.
  destruct (beginPatternTable_result Literal_gtb Literal_ltb GetID
              patterns w s) as (s1 & t1 & E1 & _ & _ & Ha & _).
  rewrite E in E1. injection E1 as -> <- <-. rewrite Ha.
  unfold beginPatternTable in E. unfold bind at 1 in E.
  unfold query at 1 in E.
  destruct (answer w (asked s)) eqn:Hyes.
  - match type of E with
    | match ?m ?w0 ?s0 with _ => _ end = _ =>
        assert (Q : emits quiet m);
        [| destruct (m w0 s0) as [[[y s2] t2] |] eqn:E2; [| discriminate] ]
    end.
    { unfold setupColumns.
      pose proof (fun specs =>
                    emits_std_sort quiet _ (quiet_comparator specs)) as Hs.
      pose proof (fun specs range =>
                    emits_for_each quiet
                      (Pattern_sort
                         (comparator Literal_gtb Literal_ltb GetID specs))
                      range
                      (fun e _ => emits_Pattern_sort quiet _
                                    (quiet_comparator specs) e)) as Hf.
      repeat first [apply Hs | apply Hf | emit_step]. }
    injection E as _ _ <-. cbn. rewrite Hyes.
    now rewrite (replay_quiet w t2 _ _ (Q w _ y s2 t2 E2)).
  - cbn in E. injection E as _ <-. cbn. now rewrite Hyes.
Qed.

(** X4: the top-level draw leaves the stacks of the toolkit as it found
    them: [EndTable] is called exactly when [BeginTable] reported the
    table shown, and between the two the draws of the nodes have popped
    what they pushed. *)
Theorem draw_patterns_balances_stacks patterns w s s' t k :
  draw_patterns Literal_gtb Literal_ltb GetID ChunkSize patterns w s
  = Some (tt, s', t) ->
  replay w t (asked s) k = Some (asked s', k).
Proof.
  revert w s s' t k.
  assert (B : balanced
                (draw_patterns Literal_gtb Literal_ltb GetID ChunkSize
                   patterns)).
  { intros pre. unfold draw_patterns.
    eapply tracks_bind;
      [exact (tracks_frame (fun k => k) tableBegun pre _
                (tracks_beginPatternTable patterns)) |].
    intros []; [| apply tracks_ret; intros; reflexivity].
    eapply tracks_bind;
      [apply (balanced_call TableHeadersRow
                (conj eq_refl (fun _ _ => eq_refl))) |].
    intros u w s x s' t E k. rewrite bind_get in E.
    unfold bind, ignore in E.
    destruct (for_each (draw ChunkSize) (m_sortedPatterns s) w s)
      as [[[ys s2] t2] |] eqn:E2; [| discriminate].
    cbn in E. injection E as <- <- <-. rewrite replay_app.
    rewrite (balanced_for_each_draw _ (fun k => tableBegun true (pre k))
               w s ys s2 t2 E2 k).
    cbn. destruct (pre k). reflexivity. }
  intros w s s' t k E. exact (B (fun k => k) w s tt s' t E k).
Qed.

End TableStacks.

(** ** Rows *)

Ltac run_selection :=
  cbn;
  repeat match goal with
         | |- context [currSelection ?w] => destruct (currSelection w); cbn
         | |- context [Region.overlaps ?r ?o] =>
             destruct (Region.overlaps r o); cbn
         end.

Ltac unfold_rows :=
  unfold createDefaultEntry, visit_PatternEnum, visit_PatternBitfieldField,
    header_PatternStruct, header_PatternBitfield, header_PatternPointer,
    drawArray_header, createLeafNode, createTreeNode, makeSelectable,
    drawCommentTooltip, drawNameColumn, drawColorColumn, drawOffsetColumn,
    drawSizeColumn, drawTypenameColumn, highlightWhenSelected_pattern,
    highlightWhenSelected, isPatternSelected, bind, call, query, ignore,
    when, ret.


(** X6: a composite node that is not inlined and is sealed, or whose tree
    node the toolkit reports closed, draws its header row and nothing
    else: one row, no pop of the tree, and the disclosure table as it
    was, whatever is below the node. *)
Theorem closed_node_draws_header_only (a : Attrs Literal)
    (child : Pattern Literal) (children : list (Pattern Literal))
    (p : Pattern Literal) w s :
  In p (composites a child children) ->
  isInlined a = false ->
  isSealed a = true \/ answer w (asked s) = false ->
  exists s' t,
    accept ChunkSize p w s = Some (tt, s', t)
    /\ rows t = 1%nat
    /\ existsb isTreePop t = false
    /\ m_displayEnd s' = m_displayEnd s.
Proof.
  intros Hp Hin Hclosed.
  assert (H : forall (body : Draw Literal unit) header,
            In header [header_PatternStruct a "struct";
                       header_PatternStruct a "union";
                       header_PatternBitfield a; header_PatternPointer a;
                       drawArray_header a (child :: children) false] ->
            exists s' t,
              (open <- header ;;
               if open then body ;; when (negb false) (call TreePop)
               else ret tt) w s = Some (tt, s', t)
              /\ rows t = 1%nat
              /\ existsb isTreePop t = false
              /\ m_displayEnd s' = m_displayEnd s).
  { intros body header Hh. cbn in Hh.
    destruct Hh as [<- | [<- | [<- | [<- | [<- | []]]]]];
      unfold_rows; rewrite ?Hin;
      (destruct (isSealed a) eqn:Hs;
       [| destruct Hclosed as [Hc | Hc]; [congruence |]]);
      run_selection; rewrite ?Hc;
      run_row; eexists _, _; (split; [reflexivity |]);
      (split; [reflexivity |]); split; reflexivity. }
  cbn in Hp.
  destruct Hp as [<- | [<- | [<- | [<- | [<- | [<- | []]]]]]];
    cbn [accept]; unfold drawArray; cbn [getEntryCount length];
    rewrite ?Hin;
    try change (N.of_nat (S (length children)) =? 0) with false;
    cbv iota; apply H; cbn; tauto.
Qed.

Lemma forEachEntry_from_all (fn : Pattern Literal -> Draw Literal unit)
    (entries : list (Pattern Literal)) : forall index end_ w s,
  index + getEntryCount entries <= end_ ->
  forEachEntry_from fn 0 end_ index entries w s
  = ignore (for_each fn entries) w s.
Proof.
  induction entries as [| e rest IH]; intros index end_ w s Hi;
    [reflexivity |].
  cbn [forEachEntry_from for_each].
  unfold getEntryCount in Hi. cbn [length] in Hi.
  replace ((0 <=? index) && (index <? end_)) with true
    by (symmetry; apply andb_true_intro; split;
        [apply N.leb_le | apply N.ltb_lt]; lia).
  unfold when, bind, ignore.
  destruct (fn e w s) as [[[[] s1] t1] |]; [| reflexivity].
  rewrite IH by (unfold getEntryCount; lia). unfold ignore, ret.
  destruct (for_each fn rest w s1) as [[[ys s2] t2] |]; [| reflexivity].
  now rewrite app_nil_r.
Qed.

(** X7: an inlined composite has no row of its own and pops no tree node:
    an inlined struct, union or bitfield draws its members in order as if
    they stood in its place, an inlined pointer draws what its target
    draws, and an inlined array draws its chunk rows. *)
Theorem inlined_node_is_its_children (a : Attrs Literal)
    (child : Pattern Literal) (children : list (Pattern Literal)) w s :
  isInlined a = true ->
  let members := ignore (for_each (draw ChunkSize) children) w s in
  let loop :=
    drawArray_loop ChunkSize (draw ChunkSize) a (child :: children)
      (S (length (child :: children))) 0 0 w s in
  accept ChunkSize (PatternStruct a children) w s = members
  /\ accept ChunkSize (PatternUnion a children) w s = members
  /\ accept ChunkSize (PatternBitfield a children) w s = members
  /\ accept ChunkSize (PatternPointer a child) w s
     = accept ChunkSize child w s
  /\ accept ChunkSize (PatternArrayDynamic a (child :: children)) w s = loop
  /\ accept ChunkSize (PatternArrayStatic a (child :: children)) w s = loop.
Proof.
  intros Hin members loop.
  assert (M : forall (body : Draw Literal unit),
            (open <- ret (Literal:=Literal) true ;;
             if open then body ;; when false (call TreePop)
             else ret tt) w s = body w s).
  { intros body. unfold bind, ret, when. cbn.
    destruct (body w s) as [[[[] s1] t1] |]; [| reflexivity].
    now rewrite app_nil_r. }
  assert (F : forEachEntry (draw ChunkSize) children 0
                (getEntryCount children) w s = members).
  { apply forEachEntry_from_all. lia. }
  repeat split; cbn [accept];
    change (fun p0 : Pattern Literal =>
              if isHidden (attrs p0) then ret tt else accept ChunkSize p0)
      with (draw (Literal:=Literal) ChunkSize);
    unfold header_PatternStruct, header_PatternBitfield,
      header_PatternPointer, drawArray, drawArray_header;
    try change (getEntryCount (child :: children) =? 0) with false;
    rewrite ?Hin; cbv iota; cbn [negb]; rewrite M;
    first [exact F | reflexivity].
Qed.

(** X15: the offset column shows the first and the last address of the
    node: the last one is [offset + size - 1] even when [offset + size] is
    [2^64], and a node of size zero shows its offset twice instead of the
    address before it. *)
Theorem drawOffsetColumn_last_address (a : Attrs Literal) w s :
  getOffset a < u64_modulus ->
  getOffset a + getSize a <= u64_modulus ->
  drawOffsetColumn a w s
  = Some (tt, s,
          [TextFormatted "0x{0:08X} : 0x{1:08X}"
             [ArgU64 (getOffset a);
              ArgU64 (if getSize a =? 0 then getOffset a
                      else getOffset a + getSize a - 1)];
           TableNextColumn]).
Proof.
  intros Ho Hs. unfold drawOffsetColumn, bind, call. cbn.
  repeat f_equal.
  destruct (N.eqb_spec (getSize a) 0) as [E | E].
  - rewrite E, N.add_0_r, wrap64_small by exact Ho.
    rewrite sub64_small; lia.
  - destruct (N.eq_dec (getOffset a + getSize a) u64_modulus) as [E2 | E2].
    + rewrite E2. unfold wrap64. rewrite N.Div0.mod_same.
      unfold sub64. cbn. reflexivity.
    + rewrite wrap64_small by lia. rewrite sub64_small; lia.
Qed.

(** ** Hidden entries of an array *)

Lemma forEachEntry_from_ext (fn fn' : Pattern Literal -> Draw Literal unit)
    entries :
  (forall e, In e entries -> fn e = fn' e) ->
  forall start end_ index,
    forEachEntry_from fn start end_ index entries
    = forEachEntry_from fn' start end_ index entries.
Proof.
  induction entries as [| e rest IH]; intros H start end_ index; cbn;
    [reflexivity |].
  rewrite (H e) by now left.
  rewrite (IH (fun e' He' => H e' (or_intror He'))). reflexivity.
Qed.

Lemma drawArray_loop_ext (fn fn' : Pattern Literal -> Draw Literal unit)
    (a : Attrs Literal) entries :
  (forall e, In e entries -> fn e = fn' e) ->
  forall fuel i chunkCount,
    drawArray_loop ChunkSize fn a entries fuel i chunkCount
    = drawArray_loop ChunkSize fn' a entries fuel i chunkCount.
Proof.
  intros H. induction fuel as [| fuel IH]; intros i chunkCount;
    cbn [drawArray_loop]; [reflexivity |].
  rewrite IH. unfold drawArray_chunk, forEachEntry.
  rewrite (forEachEntry_from_ext fn fn' entries H). reflexivity.
Qed.


(** ** The draw of a node as a whole *)

(** X1: on a tree whose arrays leave the 64-bit counters room, the draw of
    a node returns, from every world and state: the chunk loop ends within
    one more iteration than the array has entries, and no chunk reads an
    entry that is not there. *)
Theorem draw_returns (p : Pattern Literal) w s :
  bounded ChunkSize p ->
  (exists s' t, draw ChunkSize p w s = Some (tt, s', t))
  /\ (exists s' t, accept ChunkSize p w s = Some (tt, s', t)).
Proof.
  intros Hb. split.
  - destruct (proj2 (spec_draw p) Hb w s) as ([] & s' & t & E & _).
    now exists s', t.
  - destruct (proj2 (spec_accept p) Hb w s) as ([] & s' & t & E & _).
    now exists s', t.
Qed.

(** X2: on a tree whose arrays leave the 64-bit counters room, the draw of
    a node keeps its hands off everything but the tape and the disclosure
    table: the cached order and the sort specification are
    as they were and the comparator is not entered; in the disclosure
    table only the entries of the node and of the nodes below it can
    change, no entry is removed, and none gets smaller. *)
Theorem draw_footprint (p : Pattern Literal) w s s' t :
  bounded ChunkSize p ->
  draw ChunkSize p w s = Some (tt, s', t) ->
  m_sortedPatterns s' = m_sortedPatterns s
  /\ sortSpecs s' = sortSpecs s
  /\ comparisons t = 0%nat
  /\ (asked s <= asked s')%nat
  /\ (forall k, k ∉ nodes p -> m_displayEnd s' !! k = m_displayEnd s !! k)
  /\ (forall k v, m_displayEnd s !! k = Some v ->
                  exists v', m_displayEnd s' !! k = Some v' /\ v <= v').
Proof.
  intros Hb E.
  destruct (proj2 (spec_draw p) Hb w s) as (x & s1 & t1 & E1 & I).
  rewrite E in E1. injection E1 as _ <- <-.
  destruct I as [I1 I2 I3 I4 I5 I6 _].
  split; [exact I1 |]. split; [exact I2 |]. split; [exact I4 |].
  split; [exact I3 |]. split; [exact I5 |].
  intros k v Hv. destruct (I6 k v Hv) as (v' & Hv' & G).
  exists v'. split; [exact Hv' | now apply grows_le].
Qed.

(** X14: the disclosure count is looked up by the address of the node: a
    second lookup returns what the first returned and changes nothing, a
    node at the same address shares the count, and the entries of nodes at
    other addresses are as they were. *)
Theorem getDisplayEnd_stable (a b : Attrs Literal) w w' s :
  exists d s1,
    getDisplayEnd a w s = Some (d, s1, [])
    /\ getDisplayEnd a w' s1 = Some (d, s1, [])
    /\ (if decide (addr b = addr a)
        then getDisplayEnd b w' s1 = Some (d, s1, [])
        else m_displayEnd s1 !! addr b = m_displayEnd s !! addr b).
Proof.
  destruct (getDisplayEnd_result a w s) as (d & s1 & E & Hd & I & _).
  exists d, s1. split; [exact E |].
  split; [now apply getDisplayEnd_present |].
  destruct (decide (addr b = addr a)) as [Hb | Hb].
  - apply getDisplayEnd_present. now rewrite Hb.
  - apply (inv_frame _ _ _ _ I). set_solver.
Qed.

(** ** The table and the comparator *)

Section TableEdges.

Variable Literal_gtb : Literal -> Literal -> bool.
Variable Literal_ltb : Literal -> Literal -> bool.
Variable GetID : string -> N.

(** X12: [beginPatternTable] returns what [BeginTable] answered, from
    every world and state; it leaves the disclosure table and the column
    and direction of the sort alone, and the dirty flag is cleared by a
    call that shows the table for a sequence of roots that is not empty,
    and by no other: on an empty sequence the flag stays as it is. *)
Theorem beginPatternTable_dirty_flag patterns w s :
  exists s' t,
    beginPatternTable Literal_gtb Literal_ltb GetID patterns w s
    = Some (answer w (asked s), s', t)
    /\ m_displayEnd s' = m_displayEnd s
    /\ Specs (sortSpecs s') = Specs (sortSpecs s)
    /\ asked s' = S (asked s)
    /\ SpecsDirty (sortSpecs s')
       = SpecsDirty (sortSpecs s)
         && (negb (answer w (asked s)) || is_empty patterns).
Proof.
  destruct (beginPatternTable_result Literal_gtb Literal_ltb GetID
              patterns w s) as (s' & t & E & H1 & H2 & H3 & Ho).
  exists s', t. split; [exact E |]. split; [exact H1 |].
  split; [exact H2 |]. split; [exact H3 |].
  unfold table_outcome in Ho.
  destruct (answer w (asked s)); cbn.
  - destruct patterns as [| p patterns]; cbn.
    + destruct Ho as (_ & -> & _). now rewrite andb_true_r.
    + rewrite andb_false_r.
      destruct (SpecsDirty (sortSpecs s)) eqn:Hd; cbn in Ho.
      * tauto.
      * destruct (is_empty (m_sortedPatterns s)); [tauto |].
        destruct Ho as (_ & -> & _). exact Hd.
  - destruct Ho as (_ & -> & _). now rewrite andb_true_r.
Qed.

(** X13: when the toolkit does not show the table, the top-level draw
    makes no other call, ends no table, and leaves the cached order as it
    is, also on an empty sequence of roots; when the table is shown for
    an empty sequence, the cached order is emptied, the header row is
    drawn and the table is ended, with no row in between. *)
Theorem draw_patterns_without_rows patterns w s :
  let asked1 (s0 : State Literal) :=
    {| m_displayEnd := m_displayEnd s0;
       m_sortedPatterns := m_sortedPatterns s0;
       sortSpecs := sortSpecs s0;
       asked := S (asked s0) |} in
  if answer w (asked s) then
    draw_patterns Literal_gtb Literal_ltb GetID ChunkSize [] w s
    = Some (tt,
            asked1 (set_sorted s [] (SpecsDirty (sortSpecs s))),
            [BeginTable; TableSetupScrollFreeze;
             TableSetupColumn "hex.builtin.pattern_drawer.var_name" false
               (GetID "name");
             TableSetupColumn "hex.builtin.pattern_drawer.color" false
               (GetID "color");
             TableSetupColumn "hex.builtin.pattern_drawer.offset" true
               (GetID "offset");
             TableSetupColumn "hex.builtin.pattern_drawer.size" false
               (GetID "size");
             TableSetupColumn "hex.builtin.pattern_drawer.type" false
               (GetID "type");
             TableSetupColumn "hex.builtin.pattern_drawer.value" false
               (GetID "value");
             TableGetSortSpecs; TableHeadersRow; EndTable])
  else
    draw_patterns Literal_gtb Literal_ltb GetID ChunkSize patterns w s
    = Some (tt, asked1 s, [BeginTable]).
Proof.
  intros asked1. destruct (answer w (asked s)) eqn:Ha.
  - unfold draw_patterns, beginPatternTable, setupColumns, bind,
      query, call, get, put, ret, ignore.
    rewrite Ha. reflexivity.
  - unfold draw_patterns, beginPatternTable, bind, query.
    rewrite Ha. reflexivity.
Qed.

Lemma swo_flip {A} (lt : A -> A -> bool) :
  StrictWeakOrder lt -> StrictWeakOrder (fun x y => lt y x).
Proof.
  intros [I T E]. split.
  - exact I.
  - intros x y z Hxy Hyz. exact (T z y x Hyz Hxy).
  - intros x y z H1 H2 H3 H4. destruct (E x y z H2 H1 H4 H3). now split.
Qed.

Lemma swo_on {A B} (key : B -> A) (lt : A -> A -> bool) :
  StrictWeakOrder lt -> StrictWeakOrder (fun x y => lt (key x) (key y)).
Proof.
  intros [I T E]. split.
  - intros x. apply I.
  - intros x y z. apply T.
  - intros x y z. apply E.
Qed.

Lemma swo_false {A} : StrictWeakOrder (fun _ _ : A => false).
Proof. split; auto. Qed.

Lemma swo_N_ltb : StrictWeakOrder N.ltb.
Proof.
  split.
  - intros x. apply N.ltb_irrefl.
  - intros x y z H1 H2. apply N.ltb_lt in H1, H2. apply N.ltb_lt. lia.
  - intros x y z H1 H2 H3 H4. apply N.ltb_ge in H1, H2, H3, H4.
    split; apply N.ltb_ge; lia.
Qed.

Lemma string_compare_refl (a : string) : String.compare a a = Eq.
Proof.
  pose proof (String.compare_antisym a a) as H.
  destruct (String.compare a a); cbn in H; congruence.
Qed.

Lemma string_compare_lt_trans (a : string) : forall b c,
  String.compare a b = Lt -> String.compare b c = Lt ->
  String.compare a c = Lt.
Proof.
  induction a as [| x a IH]; intros [| y b] [| z c]; cbn;
    try congruence.
  unfold Ascii.compare.
  destruct (N.compare_spec (N_of_ascii x) (N_of_ascii y)) as [Hxy | Hxy | Hxy];
    destruct (N.compare_spec (N_of_ascii y) (N_of_ascii z)) as [Hyz | Hyz | Hyz];
    try congruence; intros H1 H2.
  - rewrite Hxy, Hyz, N.compare_refl. now apply (IH b c).
  - rewrite Hxy. now rewrite (proj2 (N.compare_lt_iff _ _) Hyz).
  - rewrite <- Hyz. now rewrite (proj2 (N.compare_lt_iff _ _) Hxy).
  - assert (H : N_of_ascii x < N_of_ascii z) by lia.
    now rewrite (proj2 (N.compare_lt_iff _ _) H).
Qed.

Lemma string_ltb_unordered (a b : string) :
  String.ltb a b = false -> String.ltb b a = false -> a = b.
Proof.
  unfold String.ltb. intros H1 H2. apply String.compare_eq_iff.
  rewrite (String.compare_antisym b a) in H2.
  destruct (String.compare a b); cbn in *; congruence.
Qed.

Lemma swo_string_ltb : StrictWeakOrder String.ltb.
Proof.
  split.
  - intros x. unfold String.ltb. now rewrite string_compare_refl.
  - intros x y z. unfold String.ltb.
    destruct (String.compare x y) eqn:H1; try discriminate.
    destruct (String.compare y z) eqn:H2; try discriminate.
    intros _ _. now rewrite (string_compare_lt_trans x y z H1 H2).
  - intros x y z H1 H2 H3 H4.
    rewrite (string_ltb_unordered x y H1 H2). now split.
Qed.

(** X9: whatever the column and the direction the sort specification
    names, [sortPatterns] is a strict weak ordering of the nodes, which is
    what both [std::sort] and [Pattern::sort] need from it, provided the
    two comparisons of literals are. *)
Theorem sortPatterns_strict_weak_order (specs : ImGuiTableSortSpecs) :
  StrictWeakOrder Literal_gtb -> StrictWeakOrder Literal_ltb ->
  StrictWeakOrder (sortPatterns Literal_gtb Literal_ltb GetID specs).
Proof.
  intros Hg Hl. unfold sortPatterns, string_gtb, string_ltb. cbv zeta.
  repeat match goal with
         | |- StrictWeakOrder (fun l r => if ?b then _ else _) =>
             destruct b
         end;
    first
      [ apply swo_false
      | apply (swo_on getDisplayName), swo_string_ltb
      | apply (swo_on getDisplayName (fun x y => String.ltb y x)),
          swo_flip, swo_string_ltb
      | apply (swo_on getTypeName), swo_string_ltb
      | apply (swo_on getTypeName (fun x y => String.ltb y x)),
          swo_flip, swo_string_ltb
      | apply (swo_on getOffset), swo_N_ltb
      | apply (swo_on getOffset (fun x y => N.ltb y x)), swo_flip, swo_N_ltb
      | apply (swo_on getSize), swo_N_ltb
      | apply (swo_on getSize (fun x y => N.ltb y x)), swo_flip, swo_N_ltb
      | apply (swo_on getColor), swo_N_ltb
      | apply (swo_on getColor (fun x y => N.ltb y x)), swo_flip, swo_N_ltb
      | apply (swo_on getValue), Hg
      | apply (swo_on getValue), Hl ].
Qed.

(** X10: a direction other than ascending, be it descending or none,
    makes every column compare with [<]; and when [<] and [>] of literals
    mirror each other, the descending comparison is the ascending one
    with its two nodes exchanged.  A column id that is none of the six
    orders no pair. *)
Theorem sortPatterns_direction (column : N) (dirty : bool)
    (l r : Attrs Literal) :
  (forall a b, Literal_ltb a b = Literal_gtb b a) ->
  let specs d :=
    {| Specs := {| ColumnUserID := column; SortDirection := d |};
       SpecsDirty := dirty |} in
  sortPatterns Literal_gtb Literal_ltb GetID
    (specs ImGuiSortDirection_None) l r
  = sortPatterns Literal_gtb Literal_ltb GetID
      (specs ImGuiSortDirection_Descending) l r
  /\ sortPatterns Literal_gtb Literal_ltb GetID
       (specs ImGuiSortDirection_Descending) l r
     = sortPatterns Literal_gtb Literal_ltb GetID
         (specs ImGuiSortDirection_Ascending) r l
  /\ (~ In column (map GetID columnNames) ->
      forall d, sortPatterns Literal_gtb Literal_ltb GetID (specs d) l r
                = false).
Proof.
  intros Hm specs. split; [reflexivity |]. split.
  - unfold sortPatterns, string_gtb, string_ltb. cbn.
    rewrite Hm. reflexivity.
  - intros Hn d. unfold sortPatterns. cbn.
    repeat match goal with
           | |- context [column =? ?x] =>
               destruct (N.eqb_spec column x) as [-> | _];
               [exfalso; apply Hn; cbn; tauto |]
           end.
    reflexivity.
Qed.

Lemma is_sorted_Sorted {A} (comp : A -> A -> bool) (l : list A) :
  is_sorted comp l = true -> Sorted (fun x y => comp y x = false) l.
Proof.
  induction l as [| x [| y l] IH]; intros H.
  - constructor.
  - repeat constructor.
  - cbn in H. apply andb_prop in H as [H1 H2].
    constructor; [apply IH, H2 |]. constructor.
    now apply negb_true_iff.
Qed.

(** The comparison a number column makes, once the column is known. *)
Lemma sortPatterns_numberColumn specs name key (l r : Attrs Literal) :
  List.NoDup (map GetID columnNames) ->
  In (name, key) numberColumns ->
  ColumnUserID (Specs specs) = GetID name ->
  sortPatterns Literal_gtb Literal_ltb GetID specs l r
  = if ImGuiSortDirection_eqb (SortDirection (Specs specs))
         ImGuiSortDirection_Ascending
    then key r <? key l else key l <? key r.
Proof.
  intros Hnd Hin Hc. unfold sortPatterns. cbv zeta. rewrite Hc.
  cbn in Hnd.
  apply List.NoDup_cons_iff in Hnd as [N1 Hnd].
  apply List.NoDup_cons_iff in Hnd as [N2 Hnd].
  apply List.NoDup_cons_iff in Hnd as [N3 Hnd].
  apply List.NoDup_cons_iff in Hnd as [N4 Hnd].
  apply List.NoDup_cons_iff in Hnd as [N5 _].
  cbn in N1, N2, N3, N4, N5.
  destruct Hin as [[= <- <-] | [[= <- <-] | [[= <- <-] | []]]];
    repeat match goal with
           | |- context [GetID ?x =? GetID ?x] => rewrite N.eqb_refl
           | |- context [GetID ?x =? GetID ?y] =>
               destruct (N.eqb_spec (GetID x) (GetID y)) as [E | _];
               [exfalso; intuition congruence |]
           end;
    reflexivity.
Qed.

(** X11: whatever arrangement [std::sort] returns for the comparator of a
    number column (offset, size or colour), the arrangement lists the
    column from the greatest value down when the direction is called
    ascending, and from the least value up otherwise. *)
Theorem sorted_by_number_column specs name key
    (range : list (Pattern Literal)) :
  List.NoDup (map GetID columnNames) ->
  In (name, key) numberColumns ->
  ColumnUserID (Specs specs) = GetID name ->
  is_sorted (fun x y => sortPatterns Literal_gtb Literal_ltb GetID specs
                          (attrs x) (attrs y)) range = true ->
  StronglySorted
    (fun x y =>
       if ImGuiSortDirection_eqb (SortDirection (Specs specs))
            ImGuiSortDirection_Ascending
       then key (attrs y) <= key (attrs x)
       else key (attrs x) <= key (attrs y))
    range.
Proof.
  intros Hnd Hin Hc Hs. apply is_sorted_Sorted in Hs.
  apply Sorted_StronglySorted.
  - intros x y z. destruct (ImGuiSortDirection_eqb _ _); lia.
  - eapply Sorted_ind with (P := fun l => Sorted _ l); [| | exact Hs].
    + constructor.
    + intros x l _ IH Hd. constructor; [exact IH |].
      destruct Hd as [| y l Hxy]; constructor.
      rewrite (sortPatterns_numberColumn specs name key _ _ Hnd Hin Hc)
        in Hxy.
      destruct (ImGuiSortDirection_eqb _ _); now apply N.ltb_ge in Hxy.
Qed.

End TableEdges.

(** * The pagination of an array and its disclosure count *)

(** ** Computations that agree *)

Lemma same_refl {A} (m : Draw Literal A) : same m m.
Proof. now intros w s. Qed.

Lemma same_sym {A} (m m' : Draw Literal A) : same m m' -> same m' m.
Proof. now intros H w s. Qed.

Lemma same_trans {A} (m1 m2 m3 : Draw Literal A) :
  same m1 m2 -> same m2 m3 -> same m1 m3.
Proof. intros H1 H2 w s. now rewrite H1. Qed.

Lemma same_bind {A B} (m m' : Draw Literal A) (f f' : A -> Draw Literal B) :
  same m m' -> (forall x, same (f x) (f' x)) -> same (bind m f) (bind m' f').
Proof.
  intros Hm Hf w s. unfold bind. rewrite Hm.
  destruct (m' w s) as [[[x s1] t1] |]; [| reflexivity].
  now rewrite Hf.
Qed.

Lemma bind_assoc {A B C} (m : Draw Literal A) (f : A -> Draw Literal B)
    (g : B -> Draw Literal C) :
  same (bind (bind m f) g) (bind m (fun x => bind (f x) g)).
Proof.
  intros w s. unfold bind.
  destruct (m w s) as [[[x s1] t1] |]; [| reflexivity].
  destruct (f x w s1) as [[[y s2] t2] |]; [| reflexivity].
  destruct (g y w s2) as [[[z s3] t3] |]; [| reflexivity].
  now rewrite app_assoc.
Qed.

Lemma bind_ret_l {A B} (x : A) (f : A -> Draw Literal B) :
  same (bind (ret x) f) (f x).
Proof.
  intros w s. unfold bind, ret.
  now destruct (f x w s) as [[[y s2] t2] |].
Qed.

Lemma bind_ret_r (m : Draw Literal unit) : same (bind m (fun _ => ret tt)) m.
Proof.
  intros w s. unfold bind, ret.
  destruct (m w s) as [[[[] s1] t1] |]; [| reflexivity].
  now rewrite app_nil_r.
Qed.

Lemma same_seq {A B} (m m' : Draw Literal A) (k k' : Draw Literal B) :
  same m m' -> same k k' -> same (m ;; k) (m' ;; k').
Proof. intros Hm Hk. apply same_bind; [exact Hm | intros _; exact Hk]. Qed.

Lemma seq_assoc {A B C} (m : Draw Literal A) (k : Draw Literal B)
    (g : Draw Literal C) :
  same ((m ;; k) ;; g) (m ;; k ;; g).
Proof. apply bind_assoc. Qed.

(** ** The entries of a chunk *)

(** [forEachEntry] over the entries from [start] up to [end_] is a loop
    over that part of the list. *)
Lemma forEachEntry_from_take (fn : Pattern Literal -> Draw Literal unit)
    (entries : list (Pattern Literal)) : forall start end_ index,
  start <= index ->
  same (forEachEntry_from fn start end_ index entries)
    (ignore (for_each fn (take (N.to_nat (end_ - index)) entries))).
Proof.
  induction entries as [| e rest IH]; intros start end_ index Hi w s.
  - now rewrite take_nil.
  - cbn [forEachEntry_from].
    replace (start <=? index) with true by (symmetry; apply N.leb_le; lia).
    cbn [andb].
    destruct (N.ltb_spec index end_) as [Hlt | Hge].
    + replace (N.to_nat (end_ - index))
        with (S (N.to_nat (end_ - (index + 1)))) by lia.
      cbn [take for_each]. unfold when, bind, ignore.
      destruct (fn e w s) as [[[[] s1] t1] |]; [| reflexivity].
      rewrite (IH start end_ (index + 1)) by lia. unfold ignore, ret.
      destruct (for_each fn _ w s1) as [[[ys s2] t2] |]; [| reflexivity].
      now rewrite app_nil_r.
    + replace (N.to_nat (end_ - index)) with 0%nat by lia.
      unfold when. rewrite bind_ret_l.
      rewrite (IH start end_ (index + 1)) by lia.
      replace (N.to_nat (end_ - (index + 1))) with 0%nat by lia.
      now rewrite !take_0.
Qed.

Lemma forEachEntry_from_drop (fn : Pattern Literal -> Draw Literal unit)
    (entries : list (Pattern Literal)) : forall start end_ index,
  index <= start ->
  same (forEachEntry_from fn start end_ index entries)
    (ignore (for_each fn (take (N.to_nat (end_ - start))
                            (drop (N.to_nat (start - index)) entries)))).
Proof.
  induction entries as [| e rest IH]; intros start end_ index Hi w s.
  - now rewrite drop_nil, take_nil.
  - destruct (N.eq_dec index start) as [-> | Hne].
    + rewrite N.sub_diag. cbn [N.to_nat drop].
      apply forEachEntry_from_take. lia.
    + cbn [forEachEntry_from].
      replace (start <=? index) with false
        by (symmetry; apply N.leb_gt; lia).
      cbn [andb]. unfold when. rewrite bind_ret_l.
      rewrite (IH start end_ (index + 1)) by lia.
      replace (N.to_nat (start - index))
        with (S (N.to_nat (start - (index + 1)))) by lia.
      reflexivity.
Qed.

Lemma last_lookup_pred {A} (l : list A) (d : A) :
  l <> [] -> l !! pred (length l) = Some (List.last l d).
Proof.
  induction l as [| x [| y l] IH]; intros H; [congruence | reflexivity |].
  apply IH. discriminate.
Qed.

Lemma In_take {A} (x : A) l : forall n, In x (take n l) -> In x l.
Proof.
  induction l as [| y l IH]; intros [| n]; cbn; try tauto.
  intros [-> | H]; [now left | right; exact (IH n H)].
Qed.

Lemma In_drop {A} (x : A) l : forall n, In x (drop n l) -> In x l.
Proof.
  induction l as [| y l IH]; intros [| n]; cbn; try tauto.
  intros H. right. exact (IH n H).
Qed.

Section Chunks.

Variable fn : Pattern Literal -> Draw Literal unit.
Variable a : Attrs Literal.
Variable entries : list (Pattern Literal).

Hypothesis ChunkSize_pos : 0 < ChunkSize.
Hypothesis entries_headroom : headroom ChunkSize entries.

Lemma chunkEntries_length k :
  N.of_nat (length (specified_chunkEntries ChunkSize entries k))
  = N.min ChunkSize (getEntryCount entries - k * ChunkSize).
Proof using Type.
  clear ChunkSize_pos entries_headroom.
  unfold specified_chunkEntries, getEntryCount.
  rewrite length_take, length_drop. lia.
Qed.

Lemma chunkEntries_lookup k j :
  (j < N.to_nat ChunkSize)%nat ->
  specified_chunkEntries ChunkSize entries k !! j
  = entries !! (N.to_nat (k * ChunkSize) + j)%nat.
Proof using Type.
  intros Hj. unfold specified_chunkEntries.
  rewrite lookup_take_lt by exact Hj. apply lookup_drop.
Qed.

(** The body of the [else] branch of the loop, with the row it starts, is
    the chunk-summary row of the specification. *)
Lemma drawArray_chunk_same k :
  k * ChunkSize < getEntryCount entries ->
  same (call TableNextRow ;;
        call TableNextColumn ;;
        drawArray_chunk ChunkSize fn a entries (k * ChunkSize))
    (specified_chunkSummaryRow ChunkSize fn a k
       (specified_chunkEntries ChunkSize entries k)).
Proof using ChunkSize_pos entries_headroom.
  intros Hi.
  pose proof (chunkEntries_length k) as Hlen.
  pose proof (chunkEntries_lookup k) as Hlook.
  assert (Htake : take (N.to_nat (N.min (getEntryCount entries)
                                    (k * ChunkSize + ChunkSize)
                                  - k * ChunkSize))
                    (drop (N.to_nat (k * ChunkSize - 0)) entries)
                  = specified_chunkEntries ChunkSize entries k).
  { unfold specified_chunkEntries. rewrite N.sub_0_r.
    destruct (N.le_gt_cases (k * ChunkSize + ChunkSize)
                (getEntryCount entries)) as [Hle | Hgt].
    - f_equal. lia.
    - rewrite !take_ge; [reflexivity | |];
        rewrite length_drop; unfold getEntryCount in *; lia. }
  destruct (specified_chunkEntries ChunkSize entries k)
    as [| first rest] eqn:Hchunk.
  { cbn [length] in Hlen. lia. }
  assert (Hfirst : getEntry entries (k * ChunkSize) = Some first).
  { unfold getEntry. specialize (Hlook 0%nat). cbn in Hlook.
    rewrite Nat.add_0_r in Hlook. rewrite <- Hlook by lia. reflexivity. }
  unfold headroom, DisplayEndStep in entries_headroom.
  assert (Hwrap : wrap64 (k * ChunkSize + ChunkSize)
                  = k * ChunkSize + ChunkSize)
    by (apply wrap64_small; lia).
  assert (Hend : N.min (getEntryCount entries) (k * ChunkSize + ChunkSize)
                 = k * ChunkSize + N.of_nat (length (first :: rest)))
    by lia.
  assert (Hlast : getEntry entries
                    (k * ChunkSize + N.of_nat (length (first :: rest)) - 1)
                  = Some (List.last (first :: rest) first)).
  { unfold getEntry.
    rewrite <- (last_lookup_pred (first :: rest) first) by discriminate.
    rewrite Hlook by (cbn [length] in *; lia).
    f_equal. cbn [length] in *. lia. }
  assert (Hsub1 : sub64 (k * ChunkSize + N.of_nat (length (first :: rest))) 1
                  = k * ChunkSize + N.of_nat (length (first :: rest)) - 1).
  { apply sub64_small; cbn [length] in *; lia. }
  assert (Hsubi : sub64 (k * ChunkSize + N.of_nat (length (first :: rest)))
                    (k * ChunkSize)
                  = N.of_nat (length (first :: rest))).
  { rewrite sub64_small; cbn [length] in *; lia. }
  unfold specified_chunkSummaryRow, drawArray_chunk, drawColorColumn. cbv zeta.
  rewrite Hwrap. rewrite Hend in Htake |- *.
  rewrite Hsub1, Hsubi, Hfirst, Hlast. cbn [deref].
  apply same_bind; [apply same_refl | intros _].
  apply same_bind; [apply same_refl | intros _].
  eapply same_trans; [apply bind_ret_l |].
  eapply same_trans; [apply bind_ret_l |].
  apply same_bind; [apply same_refl | intros chunkOpen].
  apply same_bind; [apply same_refl | intros _].
  eapply same_trans; [apply bind_assoc |].
  repeat (apply same_bind; [apply same_refl | intros _]).
  unfold when. destruct chunkOpen; [| apply same_refl].
  apply same_bind; [| intros _; apply same_refl].
  unfold forEachEntry.
  eapply same_trans; [apply forEachEntry_from_drop; lia |].
  rewrite Htake. apply same_refl.
Qed.

End Chunks.

(** ** The tape and the paging rows of a trace *)

Lemma tape_app t1 t2 n : tape (t1 ++ t2) n = tape t2 (tape t1 n).
Proof. revert n. induction t1 as [| c t1 IH]; intros n; cbn; auto. Qed.

Lemma replay_tape w t : forall n k n' k',
  replay w t n k = Some (n', k') -> n' = tape t n.
Proof.
  induction t as [| c t IH]; intros n k n' k'; cbn.
  - now intros [= <- _].
  - destruct (effect c (answer w n) k); [apply IH | discriminate].
Qed.

(** A run whose stacks are tracked moves the tape by the questions of its
    trace. *)
Lemma tracks_tape {A} pre post (m : Draw Literal A) w s x s' t :
  tracks pre post m -> m w s = Some (x, s', t) -> asked s' = tape t (asked s).
Proof.
  intros H E.
  exact (replay_tape w t _ _ _ _
           (H w s x s' t E {| ids := []; colors := 0; tooltips := 0;
                              tables := 0 |})).
Qed.

Lemma doubleClicks_app w t1 t2 n :
  doubleClicks w (t1 ++ t2) n
  = doubleClicks w t1 n ++ doubleClicks w t2 (tape t1 n).
Proof.
  revert n. induction t1 as [| c t1 IH]; intros n; cbn; [reflexivity |].
  destruct (isPlaceholder c) eqn:E.
  - destruct c; try discriminate E. destruct kind; try discriminate E.
    cbn. now rewrite IH.
  - apply IH.
Qed.

Lemma doubleClicks_plain w t : Forall plain t ->
  forall n, doubleClicks w t n = [].
Proof.
  induction 1 as [| c t Hc _ IH]; intros n; cbn; [reflexivity |].
  destruct c; try apply IH.
  destruct kind; [discriminate Hc | apply IH].
Qed.

Lemma pagers_plain t : Forall plain t -> pagers t = [].
Proof.
  induction 1 as [| c t Hc _ IH]; [reflexivity |].
  unfold pagers in *. cbn. unfold plain in Hc. now rewrite Hc.
Qed.

Lemma pagers_app t1 t2 : pagers (t1 ++ t2) = pagers t1 ++ pagers t2.
Proof. apply omap_app. Qed.

(** The double-clicks of a trace are as many as the placeholder rows among
    its paging rows. *)
Lemma doubleClicks_length w t : forall n,
  length (doubleClicks w t n)
  = length (List.filter (fun row => negb (bool_decide (is_Some row)))
              (pagers t)).
Proof.
  induction t as [| c t IH]; intros n; [reflexivity |].
  unfold pagers in *. cbn [doubleClicks omap list_omap].
  destruct c; cbn; try apply IH.
  - destruct labelArgs as [| [] [| [] [|]]]; destruct kind; cbn; apply IH.
  - destruct kind; cbn; [f_equal |]; apply IH.
Qed.

Lemma pages_plain {A} (m : Draw Literal A) : emits plain m -> pages [] m.
Proof. intros H w s x s' t E. apply pagers_plain, (H w s x s' t E). Qed.

Lemma pages_bind {A B} l1 l2 (m : Draw Literal A) (f : A -> Draw Literal B) :
  pages l1 m -> (forall x, pages l2 (f x)) -> pages (l1 ++ l2) (bind m f).
Proof.
  intros Hm Hf w s y s' t E. unfold bind in E.
  destruct (m w s) as [[[x s1] t1] |] eqn:E1; [| discriminate].
  destruct (f x w s1) as [[[y' s2] t2] |] eqn:E2; [| discriminate].
  injection E as <- <- <-. rewrite pagers_app.
  now rewrite (Hm w s x s1 t1 E1), (Hf x w s1 y' s2 t2 E2).
Qed.

Lemma pages_same {A} l (m m' : Draw Literal A) :
  same m m' -> pages l m' -> pages l m.
Proof. intros Hs H w s x s' t E. rewrite Hs in E. exact (H w s x s' t E). Qed.

Lemma emits_plain_highlightWhenSelected {A} address size
    (callback : Draw Literal A) :
  emits plain callback ->
  emits plain (highlightWhenSelected address size callback).
Proof. intros H. unfold highlightWhenSelected. emit. Qed.

Lemma pages_highlightWhenSelected {A} l address size
    (callback : Draw Literal A) :
  pages l callback -> pages l (highlightWhenSelected address size callback).
Proof.
  intros H. unfold highlightWhenSelected.
  apply (pages_bind [] l); [apply pages_plain; emit | intros selected].
  apply (pages_bind [] l); [apply pages_plain; emit | intros _].
  replace l with (l ++ []) by apply app_nil_r.
  apply pages_bind; [exact H | intros result].
  apply pages_plain. emit.
Qed.

(** ** The loop of [drawArray] is the pagination *)

Section Paged.

Variable fn : Pattern Literal -> Draw Literal unit.
Variable K : gset N.
Variable a : Attrs Literal.
Variable entries : list (Pattern Literal).

Hypothesis ChunkSize_pos : 0 < ChunkSize.
Hypothesis entries_headroom : headroom ChunkSize entries.
Hypothesis fn_spec : forall e, In e entries -> spec True K (fn e).
Hypothesis fn_balanced : forall e, In e entries -> balanced (fn e).
Hypothesis a_outside : addr a ∉ K.

Lemma drawArray_placeholder_same d :
  d < chunkTotal ChunkSize entries ->
  same (call TableNextRow ;;
        call TableNextColumn ;;
        drawArray_placeholder a d)
    (specified_placeholderRow a d).
Proof using ChunkSize_pos entries_headroom.
  intros Hd. pose proof (chunkTotal_le entries ChunkSize_pos) as Hle.
  unfold headroom in entries_headroom.
  unfold drawArray_placeholder, specified_placeholderRow.
  rewrite wrap64_small by lia. apply same_refl.
Qed.

(** The unrolled loop, chunk by chunk. *)
Lemma paginate_same d count : forall k,
  k + N.of_nat count <= chunkTotal ChunkSize entries ->
  same (paginate ChunkSize fn a entries d count k)
    (specified_chunkSummaryRows ChunkSize fn a entries count k ;;
     when (d <? chunkTotal ChunkSize entries) (specified_placeholderRow a d)).
Proof using ChunkSize_pos entries_headroom.
  induction count as [| count IH]; intros k Hk;
    cbn [paginate specified_chunkSummaryRows].
  - eapply same_trans; [| apply same_sym, bind_ret_l].
    unfold when. destruct (N.ltb_spec d (chunkTotal ChunkSize entries));
      [now apply drawArray_placeholder_same | apply same_refl].
  - eapply same_trans; [| apply same_sym, seq_assoc].
    eapply same_trans;
      [| apply same_seq;
           [apply drawArray_chunk_same; try assumption;
            apply chunkTotal_lt; [assumption | lia]
           | apply IH; lia]].
    eapply same_trans; [| apply same_sym, seq_assoc].
    apply same_seq; [apply same_refl |].
    eapply same_trans; [| apply same_sym, seq_assoc].
    apply same_refl.
Qed.

(** The loop, as [drawArray] starts it on an array that has entries, is the
    pagination of the specification. *)
Lemma drawArray_loop_pagination :
  entries <> [] ->
  same (drawArray_loop ChunkSize fn a entries (S (length entries)) 0 0)
    (specified_pagination ChunkSize fn a entries).
Proof using ChunkSize_pos entries_headroom fn_spec a_outside.
  intros Hne w s.
  assert (Hpos : 0 < getEntryCount entries).
  { unfold getEntryCount. destruct (length entries) eqn:E; [| lia].
    apply length_zero_iff_nil in E. congruence. }
  assert (Hfuel : getEntryCount entries
                  <= 0 * ChunkSize + N.of_nat (S (length entries)) * ChunkSize).
  { unfold getEntryCount. nia. }
  assert (Main : forall d s0, m_displayEnd s0 !! addr a = Some d ->
            drawArray_loop ChunkSize fn a entries (S (length entries)) 0 0
              w s0
            = (specified_chunkSummaryRows ChunkSize fn a entries
                 (N.to_nat (N.min (chunkTotal ChunkSize entries) d)) 0 ;;
               when (d <? chunkTotal ChunkSize entries)
                 (specified_placeholderRow a d)) w s0).
  { intros d s0 Hd.
    rewrite <- paginate_same by lia.
    apply (drawArray_loop_paginate fn K a entries d ChunkSize_pos
             entries_headroom fn_spec a_outside _ 0 _ w s0 Hd); [lia |].
    exact Hfuel. }
  unfold specified_pagination, bind at 1, getDisplayEnd.
  destruct (m_displayEnd s !! addr a) as [d |] eqn:Hd.
  - rewrite (Main d s Hd).
    now destruct ((_ ;; _) w s) as [[[y s2] t2] |].
  - rewrite drawArray_loop_fresh by assumption.
    rewrite (Main DisplayEndDefault) by apply lookup_insert_eq.
    now destruct ((_ ;; _) w _) as [[[y s2] t2] |].
Qed.

(** A chunk-summary row leaves the disclosure count of the node as it is
    and moves the tape by the questions of its trace. *)
Lemma chunkSummaryRow_keeps d k w s :
  k < chunkTotal ChunkSize entries ->
  m_displayEnd s !! addr a = Some d ->
  exists s' t,
    specified_chunkSummaryRow ChunkSize fn a k
      (specified_chunkEntries ChunkSize entries k) w s
    = Some (tt, s', t)
    /\ m_displayEnd s' !! addr a = Some d
    /\ asked s' = tape t (asked s).
Proof using ChunkSize_pos entries_headroom fn_spec fn_balanced a_outside.
  intros Hk Hd.
  apply chunkTotal_lt in Hk; [| exact ChunkSize_pos].
  rewrite <- (drawArray_chunk_same fn a entries ChunkSize_pos
                entries_headroom k Hk).
  destruct (drawArray_chunk_keeps fn K a entries d ChunkSize_pos
              entries_headroom fn_spec a_outside (k * ChunkSize) w s Hk Hd)
    as (s' & t & E & Hd').
  rewrite !bind_call, E. eexists _, _.
  split; [reflexivity |]. split; [exact Hd' |].
  exact (tracks_tape _ _ _ w s tt s' t
           (balanced_drawArray_chunk fn a entries fn_balanced
              (k * ChunkSize) (fun k0 => k0)) E).
Qed.

Lemma chunkSummaryRows_keeps d count : forall k w s,
  k + N.of_nat count <= chunkTotal ChunkSize entries ->
  m_displayEnd s !! addr a = Some d ->
  exists s' t,
    specified_chunkSummaryRows ChunkSize fn a entries count k w s
    = Some (tt, s', t)
    /\ m_displayEnd s' !! addr a = Some d
    /\ asked s' = tape t (asked s).
Proof using ChunkSize_pos entries_headroom fn_spec fn_balanced a_outside.
  induction count as [| count IH]; intros k w s Hk Hd;
    cbn [specified_chunkSummaryRows].
  - now exists s, [].
  - destruct (chunkSummaryRow_keeps d k w s) as (s1 & t1 & E1 & Hd1 & A1);
      [lia | exact Hd |].
    destruct (IH (k + 1) w s1) as (s2 & t2 & E2 & Hd2 & A2);
      [lia | exact Hd1 |].
    rewrite (bind_eq _ _ _ _ _ _ _ E1), E2.
    eexists _, _. split; [reflexivity |]. split; [exact Hd2 |].
    now rewrite tape_app, <- A1.
Qed.

(** The placeholder row, spelled out. *)
Lemma placeholderRow_result d w s :
  let clicked := answer w (asked s) && answer w (S (asked s)) in
  exists s' t,
    specified_placeholderRow a d w s = Some (tt, s', t)
    /\ asked s' = tape t (asked s)
    /\ doubleClicks w t (asked s) = [clicked]
    /\ pagers t = [None]
    /\ rows t = 1%nat
    /\ m_displayEnd s'
       = if clicked then <[addr a := d + DisplayEndStep]> (m_displayEnd s)
         else m_displayEnd s.
Proof.
  unfold specified_placeholderRow, bind, call, query, when, ret,
    assignDisplayEnd.
  cbn.
  destruct (answer w (asked s)) eqn:H1; cbn;
    [destruct (answer w (S (asked s))) eqn:H2; cbn |];
    eexists _, _; (split; [reflexivity |]); cbn; rewrite ?H1, ?H2;
    repeat (split; [reflexivity |]); reflexivity.
Qed.

(** One frame of the pagination: it returns, and the disclosure count of
    the node goes up by one step exactly when the node has more chunks
    than it reveals and the last placeholder row of the frame, which is
    then the row of the node, was double-clicked. *)
Lemma pagination_frame w s :
  let d := revealed s a in
  exists s' t,
    specified_pagination ChunkSize fn a entries w s = Some (tt, s', t)
    /\ asked s' = tape t (asked s)
    /\ revealed s' a
       = d + (if (d <? chunkTotal ChunkSize entries)
                 && List.last (doubleClicks w t (asked s)) false
              then DisplayEndStep else 0).
Proof using ChunkSize_pos entries_headroom fn_spec fn_balanced a_outside.
  intros d.
  assert (Main : forall s0, m_displayEnd s0 !! addr a = Some d ->
            exists s' t,
              (specified_chunkSummaryRows ChunkSize fn a entries
                 (N.to_nat (N.min (chunkTotal ChunkSize entries) d)) 0 ;;
               when (d <? chunkTotal ChunkSize entries)
                 (specified_placeholderRow a d)) w s0 = Some (tt, s', t)
              /\ asked s' = tape t (asked s0)
              /\ revealed s' a
                 = d + (if (d <? chunkTotal ChunkSize entries)
                           && List.last (doubleClicks w t (asked s0)) false
                        then DisplayEndStep else 0)).
  { intros s0 Hd.
    destruct (chunkSummaryRows_keeps d
                (N.to_nat (N.min (chunkTotal ChunkSize entries) d)) 0 w s0)
      as (s1 & t1 & E1 & Hd1 & A1); [lia | exact Hd |].
    rewrite (bind_eq _ _ _ _ _ _ _ E1). unfold when.
    destruct (d <? chunkTotal ChunkSize entries).
    - destruct (placeholderRow_result d w s1)
        as (s2 & t2 & E2 & A2 & D2 & _ & _ & M2).
      rewrite E2. eexists _, _. split; [reflexivity |].
      split; [now rewrite tape_app, <- A1 |].
      rewrite doubleClicks_app, <- A1, D2, last_last. cbn [andb].
      unfold revealed. rewrite M2.
      destruct (answer w (asked s1) && answer w (S (asked s1))).
      + now rewrite lookup_insert_eq.
      + rewrite Hd1. lia.
    - eexists _, _. split; [reflexivity |].
      split; [now rewrite app_nil_r |].
      cbn [andb]. unfold revealed. rewrite Hd1. lia. }
  unfold specified_pagination, bind at 1, getDisplayEnd.
  unfold d, revealed in *.
  destruct (m_displayEnd s !! addr a) as [d0 |] eqn:Hd.
  - destruct (Main s Hd) as (s' & t & E & A & R).
    rewrite E. now exists s', t.
  - destruct (Main (set_displayEnd s
                      (<[addr a := DisplayEndDefault]> (m_displayEnd s))))
      as (s' & t & E & A & R); [apply lookup_insert_eq |].
    rewrite E. now exists s', t.
Qed.

(** The paging rows of the pagination, when no entry draws one. *)
Lemma pages_chunkSummaryRow k :
  (forall e, In e entries -> emits plain (fn e)) ->
  k < chunkTotal ChunkSize entries ->
  pages [Some (chunkBounds ChunkSize (getEntryCount entries) k)]
    (specified_chunkSummaryRow ChunkSize fn a k
       (specified_chunkEntries ChunkSize entries k)).
Proof using ChunkSize_pos.
  intros Hfn Hk.
  apply chunkTotal_lt in Hk; [| exact ChunkSize_pos].
  pose proof (chunkEntries_length entries k) as Hlen.
  assert (Hin : forall e, In e (specified_chunkEntries ChunkSize entries k) ->
                          emits plain (fn e)).
  { intros e He. apply Hfn. unfold specified_chunkEntries in He.
    eapply In_drop, In_take, He. }
  destruct (specified_chunkEntries ChunkSize entries k) as [| first rest].
  { cbn [length] in Hlen. lia. }
  unfold specified_chunkSummaryRow. cbv zeta.
  replace (chunkBounds ChunkSize (getEntryCount entries) k)
    with (k * ChunkSize,
          k * ChunkSize + N.of_nat (length (first :: rest)) - 1)
    by (unfold chunkBounds; f_equal; lia).
  apply (pages_bind [] [_]); [apply pages_plain; emit | intros _].
  apply (pages_bind [] [_]); [apply pages_plain; emit | intros _].
  apply (pages_bind [_] []).
  - apply pages_highlightWhenSelected.
    intros w s x s' t [= <- <- <-]. reflexivity.
  - intros open. apply pages_plain.
    pose proof (emits_for_each plain fn _ Hin) as Hf. emit.
Qed.

Lemma pages_chunkSummaryRows count : forall k,
  (forall e, In e entries -> emits plain (fn e)) ->
  k + N.of_nat count <= chunkTotal ChunkSize entries ->
  pages (map (fun j => Some (chunkBounds ChunkSize (getEntryCount entries)
                               (k + N.of_nat j)))
           (seq 0 count))
    (specified_chunkSummaryRows ChunkSize fn a entries count k).
Proof using ChunkSize_pos.
  induction count as [| count IH]; intros k Hfn Hk;
    cbn [specified_chunkSummaryRows].
  - apply pages_plain. emit.
  - cbn [seq map]. rewrite N.add_0_r.
    apply (pages_bind [_]); [apply pages_chunkSummaryRow; [exact Hfn | lia] |].
    intros _. rewrite <- seq_shift, map_map.
    erewrite map_ext; [apply (IH (k + 1)); [exact Hfn | lia] |].
    intros j. cbn beta. do 2 f_equal. lia.
Qed.

Lemma pages_pagination w s s' t :
  (forall e, In e entries -> emits plain (fn e)) ->
  specified_pagination ChunkSize fn a entries w s = Some (tt, s', t) ->
  pagers t = expectedPagers ChunkSize entries (revealed s a).
Proof using ChunkSize_pos.
  intros Hfn E. unfold specified_pagination, bind at 1 in E.
  assert (Hg : exists s1, getDisplayEnd a w s = Some (revealed s a, s1, [])).
  { unfold getDisplayEnd, revealed.
    destruct (m_displayEnd s !! addr a); eexists; reflexivity. }
  destruct Hg as (s1 & Hg). rewrite Hg in E.
  destruct ((_ ;; _) w s1) as [[[[] s2] t2] |] eqn:E2; [| discriminate].
  cbn [app] in E. injection E as <- <-.
  revert E2. unfold expectedPagers. cbv zeta.
  apply (pages_bind _ _).
  - eapply pages_chunkSummaryRows with (k := 0); [exact Hfn | lia].
  - intros _. unfold when.
    destruct (revealed s a <? chunkTotal ChunkSize entries).
    + intros w0 s0 x0 s0' t0 E0.
      destruct (placeholderRow_result (revealed s a) w0 s0)
        as (s3 & t3 & E3 & _ & _ & P3 & _).
      rewrite E3 in E0. now injection E0 as _ _ <-.
    + apply pages_plain. emit.
Qed.

(** When the node has more chunks than it reveals, the last paging row of
    the pagination is the placeholder, whatever the entries draw. *)
Lemma specified_pagination_ends w s s' t :
  specified_pagination ChunkSize fn a entries w s = Some (tt, s', t) ->
  revealed s a < chunkTotal ChunkSize entries ->
  exists l, pagers t = l ++ [None].
Proof.
  intros E Hlt. unfold specified_pagination, bind at 1 in E.
  assert (Hg : exists s1, getDisplayEnd a w s = Some (revealed s a, s1, [])).
  { unfold getDisplayEnd, revealed.
    destruct (m_displayEnd s !! addr a); eexists; reflexivity. }
  destruct Hg as (s1 & Hg). rewrite Hg in E.
  apply N.ltb_lt in Hlt. rewrite Hlt in E. unfold bind, when in E.
  destruct (specified_chunkSummaryRows _ _ a entries _ _ w s1)
    as [[[[] s2] t2] |]; [| discriminate].
  destruct (placeholderRow_result (revealed s a) w s2)
    as (s3 & t3 & E3 & _ & _ & P3 & _).
  rewrite E3 in E. injection E as <- <-.
  exists (pagers t2). cbn [app]. now rewrite pagers_app, P3.
Qed.

End Paged.

(** ** The draw of an array *)

(** The header row of an array, spelled out: the node is open when it is
    inlined, or when it is not sealed and the toolkit reports its tree
    node open, which is the first question of the row. *)
Lemma drawArray_header_result (a : Attrs Literal) entries inlined w s :
  exists s1 t1,
    drawArray_header a entries inlined w s
    = Some (inlined || (negb (isSealed a) && answer w (asked s)), s1, t1)
    /\ m_displayEnd s1 = m_displayEnd s
    /\ rows t1 = (if inlined then 0 else 1)%nat.
Proof.
  destruct inlined.
  { exists s, []. repeat split. }
  unfold drawArray_header. cbn [negb orb].
  unfold createTreeNode, makeSelectable, drawCommentTooltip,
    drawColorColumn, drawOffsetColumn, drawSizeColumn,
    highlightWhenSelected_pattern, highlightWhenSelected, isPatternSelected,
    bind, call, query, ignore, when, ret.
  destruct (isSealed a); run_selection; run_row;
    eexists _, _; (split; [reflexivity |]); split; reflexivity.
Qed.

Lemma emits_plain_drawArray_header (a : Attrs Literal) entries inlined :
  emits plain (drawArray_header a entries inlined).
Proof.
  unfold drawArray_header, createTreeNode, makeSelectable,
    drawCommentTooltip, drawColorColumn, drawOffsetColumn, drawSizeColumn,
    highlightWhenSelected_pattern.
  repeat first [apply emits_plain_highlightWhenSelected | emit_step].
Qed.

Lemma tape_drawArray_header (a : Attrs Literal) entries inlined w s x s1 t1 :
  drawArray_header a entries inlined w s = Some (x, s1, t1) ->
  asked s1 = tape t1 (asked s).
Proof.
  destruct inlined.
  - now intros [= <- <- <-].
  - apply (tracks_tape _ _ _ w s x s1 t1
             (opens_drawArray_header a entries (fun k => k))).
Qed.

Section DrawArray.

Variable p : Pattern Literal.
Variable a : Attrs Literal.
Variable entries : list (Pattern Literal).

Hypothesis p_array :
  p = PatternArrayDynamic a entries \/ p = PatternArrayStatic a entries.
Hypothesis p_bounded : bounded ChunkSize p.
Hypothesis a_outside : addr a ∉ ⋃ (map nodes entries).

Lemma draw_array_unfold w s :
  draw ChunkSize p w s
  = if isHidden a then Some (tt, s, [])
    else drawArray ChunkSize (draw ChunkSize) a entries (isInlined a) w s.
Proof using p_array.
  clear p_bounded.
  unfold draw. destruct p_array as [-> | ->]; cbn [attrs accept];
    now destruct (isHidden a).
Qed.

Lemma entries_spec e :
  In e entries -> spec True (⋃ (map nodes entries)) (draw ChunkSize e).
Proof using p_array p_bounded.
  destruct (bounded_array p a entries p_array p_bounded)
    as (HC & HN & Hfits).
  intros He. eapply spec_weaken; [| apply nodes_In, He | apply spec_draw].
  intros _. split; [exact HC | exact (fits_In e entries Hfits He)].
Qed.

(** The draw of an open array that has entries: the header row, the
    pagination of the specification, and the pop of the tree node. *)
Lemma draw_array_open w s :
  isHidden a = false ->
  entries <> [] ->
  isInlined a || (negb (isSealed a) && answer w (asked s)) = true ->
  draw ChunkSize p w s
  = (drawArray_header a entries (isInlined a) ;;
     specified_pagination ChunkSize (draw ChunkSize) a entries ;;
     when (negb (isInlined a)) (call TreePop)) w s.
Proof using p_array p_bounded a_outside.
  intros Hvis Hne Hopen.
  destruct (bounded_array p a entries p_array p_bounded)
    as (HC & HN & Hfits).
  rewrite draw_array_unfold, Hvis. unfold drawArray.
  replace (getEntryCount entries =? 0) with false.
  2: { symmetry. apply N.eqb_neq. unfold getEntryCount.
       destruct (length entries) eqn:El; [| lia].
       apply length_zero_iff_nil in El. congruence. }
  destruct (drawArray_header_result a entries (isInlined a) w s)
    as (s1 & t1 & E1 & _).
  rewrite Hopen in E1. rewrite !(bind_eq _ _ _ _ _ _ _ E1).
  rewrite (same_seq _ _ _ _
             (drawArray_loop_pagination (draw ChunkSize)
                (⋃ (map nodes entries)) a entries HC HN entries_spec
                a_outside Hne)
             (same_refl (when (negb (isInlined a)) (call TreePop)))).
  reflexivity.
Qed.

(** One frame: the draw returns, and the disclosure count of the node goes
    up by one step exactly when the frame saw a reveal-more action on the
    node. *)
Lemma draw_array_frame w s :
  exists s' t,
    draw ChunkSize p w s = Some (tt, s', t)
    /\ revealed s' a
       = revealed s a
         + (if revealAction ChunkSize a entries w s t
            then DisplayEndStep else 0).
Proof using p_array p_bounded a_outside.
  destruct (bounded_array p a entries p_array p_bounded)
    as (HC & HN & Hfits).
  unfold revealAction.
  destruct (isHidden a) eqn:Hvis.
  { rewrite draw_array_unfold, Hvis. exists s, [].
    split; [reflexivity |]. cbn. rewrite andb_false_r. lia. }
  destruct (list_eq_nil_dec entries) as [Hnil | Hne].
  { rewrite draw_array_unfold, Hvis. unfold drawArray.
    replace (getEntryCount entries =? 0) with true
      by (rewrite Hnil; reflexivity).
    exists s, []. split; [reflexivity |]. cbn. rewrite andb_false_r. lia. }
  destruct (drawArray_header_result a entries (isInlined a) w s)
    as (s1 & t1 & E1 & M1 & _).
  pose proof (tape_drawArray_header a entries _ w s _ s1 t1 E1) as A1.
  pose proof (emits_plain_drawArray_header a entries _ w s _ s1 t1 E1)
    as P1.
  assert (R1 : revealed s1 a = revealed s a)
    by (unfold revealed; now rewrite M1).
  destruct (isInlined a || (negb (isSealed a) && answer w (asked s)))
    eqn:Hopen.
  - rewrite (draw_array_open w s Hvis Hne Hopen).
    rewrite (bind_eq _ _ _ _ _ _ _ E1).
    destruct (pagination_frame (draw ChunkSize) (⋃ (map nodes entries))
                a entries HC HN entries_spec
                (fun e _ => balanced_draw e) a_outside w s1)
      as (s2 & t2 & E2 & A2 & R2).
    rewrite (bind_eq _ _ _ _ _ _ _ E2).
    rewrite R1 in R2.
    destruct (negb (isInlined a)); cbn [when];
      eexists _, _; (split; [reflexivity |]);
      rewrite !doubleClicks_app, (doubleClicks_plain w t1 P1);
      cbn [app doubleClicks isPlaceholder]; rewrite ?app_nil_r, <- A1;
      exact R2.
  - rewrite draw_array_unfold, Hvis. unfold drawArray.
    replace (getEntryCount entries =? 0) with false.
    2: { symmetry. apply N.eqb_neq. unfold getEntryCount.
         destruct (length entries) eqn:El; [| lia].
       apply length_zero_iff_nil in El. congruence. }
    rewrite (bind_eq _ _ _ _ _ _ _ E1). cbn.
    exists s1, (t1 ++ []). split; [reflexivity |].
    rewrite app_nil_r, (doubleClicks_plain w t1 P1). cbn.
    rewrite andb_false_r, R1. lia.
Qed.

(** Over any frames in which the node is drawn, its disclosure count goes
    up by one step per reveal-more action, and by nothing else. *)
Lemma draw_repeat_actions (frames : list World) : forall s,
  exists s',
    draw_repeat ChunkSize p frames s = Some s'
    /\ revealed s' a
       = revealed s a
         + DisplayEndStep
           * N.of_nat (revealActions ChunkSize p a entries frames s).
Proof using p_array p_bounded a_outside.
  induction frames as [| w frames IH]; intros s;
    cbn [draw_repeat revealActions].
  - exists s. split; [reflexivity | cbn; lia].
  - destruct (draw_array_frame w s) as (s1 & t1 & E1 & R1). rewrite E1.
    destruct (IH s1) as (s' & E' & R'). exists s'.
    split; [exact E' |]. rewrite R', R1.
    destruct (revealAction ChunkSize a entries w s t1);
      unfold DisplayEndStep; lia.
Qed.

(** A frame in which the node is open, has more chunks than it reveals
    and every question is answered yes is a reveal-more action. *)
Lemma eager_frames_act (clicks : list World) : forall s,
  isHidden a = false ->
  isInlined a || negb (isSealed a) = true ->
  Forall eager clicks ->
  (forall j, j < N.of_nat (length clicks) ->
             revealed s a + DisplayEndStep * j
             < chunkTotal ChunkSize entries) ->
  revealActions ChunkSize p a entries clicks s = length clicks.
Proof using p_array p_bounded a_outside.
  intros s Hvis Hopen.
  revert s. induction clicks as [| w clicks IH]; intros s Hw Hshown;
    cbn [revealActions length]; [reflexivity |].
  inversion Hw as [| ? ? Hw1 Hws]; subst.
  assert (Hlt : revealed s a < chunkTotal ChunkSize entries).
  { specialize (Hshown 0). rewrite N.mul_0_r, N.add_0_r in Hshown.
    apply Hshown. cbn [length]. lia. }
  destruct (draw_array_reveals p a entries w s p_array Hvis Hopen p_bounded
              a_outside Hw1 Hlt) as (s1 & t1 & E1 & R1).
  destruct (draw_array_frame w s) as (s1' & t1' & E1' & R1').
  rewrite E1 in E1' |- *. injection E1' as <- <-.
  destruct (revealAction ChunkSize a entries w s t1).
  - rewrite (IH s1 Hws); [reflexivity |].
    intros j Hj. rewrite R1.
    specialize (Hshown (j + 1)).
    replace (revealed s a + DisplayEndStep + DisplayEndStep * j)
      with (revealed s a + DisplayEndStep * (j + 1)) by lia.
    apply Hshown. cbn [length]. lia.
  - unfold DisplayEndStep in *. lia.
Qed.

(** The paging rows of an open array none of whose entries shows an
    array. *)
Lemma draw_array_pagers w s s' t :
  isHidden a = false ->
  isInlined a || (negb (isSealed a) && answer w (asked s)) = true ->
  (forall e, In e entries -> emits plain (draw ChunkSize e)) ->
  draw ChunkSize p w s = Some (tt, s', t) ->
  pagers t = expectedPagers ChunkSize entries (revealed s a).
Proof using p_array p_bounded a_outside.
  intros Hvis Hopen Hplain E.
  destruct (bounded_array p a entries p_array p_bounded)
    as (HC & HN & Hfits).
  destruct (list_eq_nil_dec entries) as [Hnil | Hne].
  { rewrite draw_array_unfold, Hvis in E. unfold drawArray in E.
    replace (getEntryCount entries =? 0) with true in E
      by (rewrite Hnil; reflexivity).
    injection E as <- <-. rewrite Hnil. unfold expectedPagers, chunkTotal.
    cbn [getEntryCount length N.of_nat].
    rewrite N.add_0_l, N.div_small by lia.
    destruct (revealed s a); reflexivity. }
  rewrite (draw_array_open w s Hvis Hne Hopen) in E.
  destruct (drawArray_header_result a entries (isInlined a) w s)
    as (s1 & t1 & E1 & M1 & _).
  pose proof (emits_plain_drawArray_header a entries _ w s _ s1 t1 E1)
    as P1.
  rewrite (bind_eq _ _ _ _ _ _ _ E1) in E.
  destruct ((_ ;; _) w s1) as [[[[] s2] t2] |] eqn:E2; [| discriminate].
  injection E as <- <-.
  unfold bind in E2.
  destruct (specified_pagination _ _ a entries w s1) as [[[[] s3] t3] |] eqn:E3;
    [| discriminate].
  assert (R1 : revealed s1 a = revealed s a)
    by (unfold revealed; now rewrite M1).
  pose proof (pages_pagination (draw ChunkSize) a entries HC w s1 s3 t3
                Hplain E3) as P3.
  rewrite R1 in P3.
  destruct (negb (isInlined a)); cbn in E2; injection E2 as <- <-;
    rewrite !pagers_app, (pagers_plain t1 P1), P3; cbn;
    now rewrite app_nil_r.
Qed.

(** When an open array has more chunks than it reveals, the last paging
    row of its draw is its placeholder, whatever its entries draw. *)
Lemma draw_array_ends w s s' t :
  isHidden a = false ->
  entries <> [] ->
  isInlined a || (negb (isSealed a) && answer w (asked s)) = true ->
  revealed s a < chunkTotal ChunkSize entries ->
  draw ChunkSize p w s = Some (tt, s', t) ->
  exists l, pagers t = l ++ [None].
Proof using p_array p_bounded a_outside.
  intros Hvis Hne Hopen Hlt E.
  rewrite (draw_array_open w s Hvis Hne Hopen) in E.
  destruct (drawArray_header_result a entries (isInlined a) w s)
    as (s1 & t1 & E1 & M1 & _).
  rewrite (bind_eq _ _ _ _ _ _ _ E1) in E.
  destruct ((_ ;; _) w s1) as [[[[] s2] t2] |] eqn:E2; [| discriminate].
  injection E as <- <-.
  unfold bind in E2.
  destruct (specified_pagination _ _ a entries w s1)
    as [[[[] s3] t3] |] eqn:E3; [| discriminate].
  assert (R1 : revealed s1 a = revealed s a)
    by (unfold revealed; now rewrite M1).
  destruct (specified_pagination_ends (draw ChunkSize) a entries w s1 s3 t3
              E3) as (l & Hl); [now rewrite R1 |].
  exists (pagers t1 ++ l).
  destruct (negb (isInlined a)); cbn in E2; injection E2 as <- <-;
    rewrite !pagers_app, Hl; cbn; now rewrite ?app_nil_r, ?app_assoc.
Qed.

(** When no entry shows an array of its own, the frame has at most one
    placeholder row, the one of the node, and a reveal-more action on the
    node is a double-click on a placeholder row of the frame. *)
Lemma draw_array_flat_action w s s' t :
  (forall e, In e entries -> emits plain (draw ChunkSize e)) ->
  draw ChunkSize p w s = Some (tt, s', t) ->
  revealAction ChunkSize a entries w s t
  = existsb (fun clicked => clicked) (doubleClicks w t (asked s)).
Proof using p_array p_bounded a_outside.
  intros Hplain E. unfold revealAction.
  assert (Hnone : doubleClicks w t (asked s) = [] ->
            (revealed s a <? chunkTotal ChunkSize entries)
            && List.last (doubleClicks w t (asked s)) false
            = existsb (fun clicked => clicked) (doubleClicks w t (asked s))).
  { intros ->. cbn. apply andb_false_r. }
  destruct (isHidden a) eqn:Hvis.
  { apply Hnone. rewrite draw_array_unfold, Hvis in E.
    now injection E as <- <-. }
  destruct (list_eq_nil_dec entries) as [Hnil | Hne].
  { apply Hnone. rewrite draw_array_unfold, Hvis in E. unfold drawArray in E.
    replace (getEntryCount entries =? 0) with true in E
      by (rewrite Hnil; reflexivity).
    now injection E as <- <-. }
  destruct (isInlined a || (negb (isSealed a) && answer w (asked s)))
    eqn:Hopen.
  - pose proof (draw_array_pagers w s s' t Hvis Hopen Hplain E) as P.
    pose proof (doubleClicks_length w t (asked s)) as L.
    rewrite P in L. unfold expectedPagers in L.
    rewrite List.filter_app, length_app in L.
    assert (Hmap : forall (f : nat -> N * N) l0,
              List.filter (fun row => negb (bool_decide (is_Some row)))
                (map (fun k => Some (f k)) l0) = [])
      by (intros f l0; induction l0; cbn; auto).
    rewrite Hmap in L.
    destruct (revealed s a <? chunkTotal ChunkSize entries);
      destruct (doubleClicks w t (asked s)) as [| b [| b' l]];
      cbn in L; try discriminate L; cbn;
      [symmetry; apply orb_false_r | reflexivity].
  - apply Hnone.
    rewrite draw_array_unfold, Hvis in E. unfold drawArray in E.
    replace (getEntryCount entries =? 0) with false in E.
    2: { symmetry. apply N.eqb_neq. unfold getEntryCount.
         destruct (length entries) eqn:El; [| lia].
         apply length_zero_iff_nil in El. congruence. }
    destruct (drawArray_header_result a entries (isInlined a) w s)
      as (s1 & t1 & E1 & _).
    pose proof (emits_plain_drawArray_header a entries _ w s _ s1 t1 E1)
      as P1.
    rewrite Hopen in E1. rewrite (bind_eq _ _ _ _ _ _ _ E1) in E. cbn in E.
    injection E as <- <-. rewrite app_nil_r.
    exact (doubleClicks_plain w t1 P1 _).
Qed.

End DrawArray.

(** ** Nodes that show no paging row *)

Lemma emits_forEachEntry_from (P : Call -> Prop)
    (fn : Pattern Literal -> Draw Literal unit) start end_ entries :
  (forall e, In e entries -> emits P (fn e)) ->
  forall index, emits P (forEachEntry_from fn start end_ index entries).
Proof.
  induction entries as [| e rest IH]; intros H index; cbn.
  - apply emits_ret.
  - apply emits_bind.
    + apply emits_when, H. now left.
    + intros _. apply IH. intros e' He'. apply H. now right.
Qed.

Lemma plain_accept (p : Pattern Literal) :
  arrayless p = true -> emits plain (accept ChunkSize p).
Proof.
  assert (C : forall l : list (Pattern Literal),
            list_all (Pattern Literal)
              (fun q => arrayless q = true ->
                        emits plain (accept ChunkSize q)) l ->
            forallb (fun e => isHidden (attrs e) || arrayless e) l = true ->
            forall start end_ index,
              emits plain
                (forEachEntry_from (draw ChunkSize) start end_ index l)).
  { intros l H Hl start end_ index. apply emits_forEachEntry_from.
    intros e He. unfold draw.
    rewrite forallb_forall in Hl. specialize (Hl e He).
    destruct (isHidden (attrs e)); [apply emits_ret |].
    exact (list_all_In _ _ H e He Hl). }
  induction p using Pattern_ind; intros Hp; cbn [arrayless] in Hp;
    cbn [accept];
    change (fun p0 : Pattern Literal =>
              if isHidden (attrs p0) then ret tt else accept ChunkSize p0)
      with (draw (Literal:=Literal) ChunkSize);
    try (destruct entries; [apply emits_ret | discriminate Hp]);
    try pose proof (C _ X Hp 0) as Hc;
    unfold forEachEntry, createDefaultEntry, visit_PatternEnum,
      visit_PatternBitfieldField, header_PatternStruct,
      header_PatternBitfield, header_PatternPointer, createLeafNode,
      createTreeNode, makeSelectable, drawCommentTooltip, drawNameColumn,
      drawColorColumn, drawOffsetColumn, drawSizeColumn, drawTypenameColumn,
      highlightWhenSelected_pattern, highlightWhenSelected;
    repeat first [apply Hc | apply (IHp Hp) | emit_step].
Qed.

Lemma plain_draw (p : Pattern Literal) :
  pagerless p = true -> emits plain (draw ChunkSize p).
Proof.
  unfold pagerless, draw.
  destruct (isHidden (attrs p)); [intros _; apply emits_ret |].
  apply plain_accept.
Qed.

(** The rows of the loop of an array all of whose entries are hidden. *)
Lemma drawArray_loop_hidden_rows (a : Attrs Literal) entries w s s' t :
  0 < ChunkSize ->
  headroom ChunkSize entries ->
  entries <> [] ->
  forallb (fun e => isHidden (attrs e)) entries = true ->
  drawArray_loop ChunkSize (draw ChunkSize) a entries (S (length entries))
    0 0 w s = Some (tt, s', t) ->
  let d := revealed s a in
  let chunks := chunkTotal ChunkSize entries in
  rows t = (N.to_nat (N.min chunks d) + if (d <? chunks)%N then 1 else 0)%nat.
Proof.
  intros HC HN Hne Hh E d chunks.
  rewrite (drawArray_loop_ext (draw ChunkSize) silent a entries) in E.
  2: { intros e He. rewrite forallb_forall in Hh.
       unfold draw, silent. now rewrite (Hh e He). }
  assert (Hsilent : forall e, In e entries -> spec True ∅ (silent e)).
  { intros e _. apply spec_ret. }
  assert (Hfuel : getEntryCount entries
                  <= 0 * ChunkSize + N.of_nat (S (length entries)) * ChunkSize).
  { unfold getEntryCount. nia. }
  assert (Hshown : 0 + N.of_nat (N.to_nat (N.min chunks d)) = N.min chunks d)
    by lia.
  assert (Hpos : 0 < getEntryCount entries).
  { unfold getEntryCount. destruct (length entries) eqn:El; [| lia].
    apply length_zero_iff_nil in El. congruence. }
  assert (Main : forall s0, m_displayEnd s0 !! addr a = Some d ->
            drawArray_loop ChunkSize silent a entries (S (length entries))
              0 0 w s0 = Some (tt, s', t) ->
            rows t
            = (N.to_nat (N.min chunks d)
               + if (d <? chunks)%N then 1 else 0)%nat).
  { intros s0 Hd E0.
    pose proof (drawArray_loop_paginate silent ∅ a entries d
                  HC HN Hsilent (not_elem_of_empty _)
                  (N.to_nat (N.min chunks d)) 0 _ w s0 Hd Hshown Hfuel) as P.
    change (0 * ChunkSize) with 0 in P. rewrite P in E0.
    exact (paginate_rows a entries d _ 0 w s0 tt s' t E0). }
  unfold d, revealed in *.
  destruct (m_displayEnd s !! addr a) as [d0 |] eqn:Hd.
  - exact (Main s Hd E).
  - rewrite drawArray_loop_fresh in E by assumption.
    exact (Main _ (lookup_insert_eq _ _ _) E).
Qed.

(** ** The claims on the pagination and on the disclosure count *)

(** C2: the draw of an open array is its header row, the pagination of the
    specification and the pop of its tree node: with [d] the disclosure
    count of the node, 50 for a node that has none yet, the chunk-summary
    rows of the first [min (chunks, d)] chunks, each with its entries when
    it is open, then one placeholder row exactly when there are more than
    [d] chunks, and nothing past the placeholder.  The draw returns.  When
    no entry shows an array of its own, the paging rows of the trace are,
    in this order, the summary rows of the chunks [0] to
    [min (chunks, d) - 1], chunk [k] labelled with the entries
    [k * ChunkSize] to [min (N, (k + 1) * ChunkSize) - 1], and then the
    placeholder if [d < chunks]; no chunk past the [d]-th is drawn.
    Whatever the entries draw, the last paging row of the trace is the
    placeholder when [d < chunks].  The node is open when it is inlined, or is not sealed and the toolkit
    reports its tree node open.  The chunk size is any positive
    [ChunkSize], 50 among them; entry counts are [u64] in the source: the
    node is [bounded]. *)
Theorem drawArray_pagination (p : Pattern Literal) (a : Attrs Literal)
    entries w s :
  p = PatternArrayDynamic a entries \/ p = PatternArrayStatic a entries ->
  isHidden a = false ->
  isInlined a || (negb (isSealed a) && answer w (asked s)) = true ->
  bounded ChunkSize p ->
  addr a ∉ ⋃ (map nodes entries) ->
  let d := revealed s a in
  let chunks := chunkTotal ChunkSize entries in
  let shown := N.to_nat (N.min chunks d) in
  (entries <> [] ->
   draw ChunkSize p w s
   = (drawArray_header a entries (isInlined a) ;;
      specified_pagination ChunkSize (draw ChunkSize) a entries ;;
      when (negb (isInlined a)) (call TreePop)) w s)
  /\ exists s' t,
       draw ChunkSize p w s = Some (tt, s', t)
       /\ (forallb pagerless entries = true ->
           pagers t
           = map (fun k =>
                    Some (N.of_nat k * ChunkSize,
                          N.min (getEntryCount entries)
                            ((N.of_nat k + 1) * ChunkSize) - 1))
               (seq 0 shown)
             ++ (if d <? chunks then [None] else []))
       /\ (entries <> [] -> d < chunks -> exists l, pagers t = l ++ [None]).
Proof.
  intros Hp Hvis Hopen Hb Hout d chunks shown. split.
  - intros Hne.
    exact (draw_array_open p a entries Hp Hb Hout w s Hvis Hne Hopen).
  - destruct (draw_array_frame p a entries Hp Hb Hout w s)
      as (s' & t & E & _).
    exists s', t. split; [exact E |]. split.
    + intros Hflat.
      apply (draw_array_pagers p a entries Hp Hb Hout w s s' t Hvis Hopen);
        [| exact E].
      intros e He. apply plain_draw.
      rewrite forallb_forall in Hflat. exact (Hflat e He).
    + intros Hne Hlt.
      exact (draw_array_ends p a entries Hp Hb Hout w s s' t Hvis Hne Hopen
               Hlt E).
Qed.

(** X16: hidden entries still fill the chunks of their array.  An open
    array with entries, all of them hidden, draws the paging rows an array
    of as many visible entries has: the summary rows of the first
    [min (chunks, d)] chunks, labelled with the indices of the hidden
    entries they stand for, and the placeholder if there are more than [d]
    chunks.  It draws no row for any entry, whether a chunk is open or
    not: its rows are the header row, unless the node is inlined, the
    chunk-summary rows and the placeholder row. *)
Theorem hidden_entries_are_paged (p : Pattern Literal) (a : Attrs Literal)
    entries w s :
  p = PatternArrayDynamic a entries \/ p = PatternArrayStatic a entries ->
  isHidden a = false ->
  isInlined a || (negb (isSealed a) && answer w (asked s)) = true ->
  bounded ChunkSize p ->
  entries <> [] ->
  forallb (fun e => isHidden (attrs e)) entries = true ->
  let d := revealed s a in
  let chunks := chunkTotal ChunkSize entries in
  let shown := N.to_nat (N.min chunks d) in
  exists s' t,
    draw ChunkSize p w s = Some (tt, s', t)
    /\ pagers t
       = map (fun k =>
                Some (N.of_nat k * ChunkSize,
                      N.min (getEntryCount entries)
                        ((N.of_nat k + 1) * ChunkSize) - 1))
           (seq 0 shown)
         ++ (if d <? chunks then [None] else [])
    /\ rows t
       = ((if isInlined a then 0 else 1) + shown
          + if (d <? chunks)%N then 1 else 0)%nat.
Proof.
  intros Hp Hvis Hopen Hb Hne Hh d chunks shown.
  destruct (bounded_array p a entries Hp Hb) as (HC & HN & Hfits).
  assert (Hdraw : forall e, In e entries -> draw ChunkSize e = silent e).
  { intros e He. rewrite forallb_forall in Hh.
    unfold draw, silent. now rewrite (Hh e He). }
  assert (E : draw ChunkSize p w s
              = drawArray ChunkSize silent a entries (isInlined a) w s).
  { rewrite (draw_array_unfold p a entries Hp), Hvis. unfold drawArray.
    now rewrite (drawArray_loop_ext (draw ChunkSize) silent a entries Hdraw). }
  assert (Hsilent : forall e, In e entries -> spec True ∅ (silent e)).
  { intros e _. apply spec_ret. }
  assert (Hbal : forall e, In e entries -> balanced (silent e)).
  { intros e _. apply balanced_ret. }
  assert (Hpos : (getEntryCount entries =? 0) = false).
  { apply N.eqb_neq. unfold getEntryCount.
    destruct (length entries) eqn:El; [| lia].
    apply length_zero_iff_nil in El. congruence. }
  destruct (drawArray_header_result a entries (isInlined a) w s)
    as (s1 & t1 & E1 & M1 & Hrows1).
  pose proof (emits_plain_drawArray_header a entries _ w s _ s1 t1 E1)
    as P1.
  rewrite Hopen in E1.
  assert (R1 : revealed s1 a = revealed s a)
    by (unfold revealed; now rewrite M1).
  destruct (pagination_frame silent ∅ a entries HC HN Hsilent Hbal
              (not_elem_of_empty _) w s1) as (s2 & t2 & E2 & _).
  pose proof (drawArray_loop_pagination silent ∅ a entries HC HN Hsilent
                (not_elem_of_empty _) Hne w s1) as L2.
  rewrite E2 in L2.
  pose proof (pages_pagination silent a entries HC w s1 s2 t2
                (fun e _ => emits_ret plain tt) E2) as P2.
  assert (Hl : drawArray_loop ChunkSize (draw ChunkSize) a entries
                 (S (length entries)) 0 0 w s1 = Some (tt, s2, t2)).
  { now rewrite (drawArray_loop_ext (draw ChunkSize) silent a entries Hdraw). }
  pose proof (drawArray_loop_hidden_rows a entries w s1 s2 t2 HC HN Hne Hh Hl)
    as Hrows2.
  cbv zeta in Hrows2. rewrite R1 in P2, Hrows2.
  rewrite E. unfold drawArray. rewrite Hpos.
  rewrite (bind_eq _ _ _ _ _ _ _ E1), (bind_eq _ _ _ _ _ _ _ L2).
  destruct (isInlined a); cbn [negb when];
    eexists _, _; (split; [reflexivity |]);
    rewrite !pagers_app, !rows_app, (pagers_plain t1 P1), P2, Hrows1,
      Hrows2;
    (split;
     [cbn; now rewrite app_nil_r
     | try change (rows [TreePop]) with 0%nat;
       try change (rows (@nil Call)) with 0%nat;
       unfold shown, chunks, d; lia]).
Qed.

Section Disclosure.

Variable Literal_gtb : Literal -> Literal -> bool.
Variable Literal_ltb : Literal -> Literal -> bool.
Variable GetID : string -> N.

(** C4: the disclosure count of a node is 50 when its entry is created.
    One draw of the node, whatever the toolkit answers, raises the count
    by 50 when the frame saw a reveal-more action on the node, a
    double-click on its placeholder row, and leaves it as it was when it
    did not; when no entry shows an array of its own, the action is a
    double-click on a placeholder row of the frame, of which there is at
    most one; so after frames with [k] such actions the count is [k] steps
    of 50 above what it was, 50 + 50 k for a node that had no entry.  A
    frame in which the node is open, shows its placeholder and every
    question is answered yes counts as an action.  Over any sequence of
    top-level draws an entry, once there, stays and never gets smaller.
    Entry counts are [u64] in the source: the nodes are [bounded]. *)
Theorem displayEnd_default_step_monotone (p : Pattern Literal)
    (a : Attrs Literal) entries (draws : list World)
    (frames : list (Frame Literal)) w s :
  p = PatternArrayDynamic a entries \/ p = PatternArrayStatic a entries ->
  bounded ChunkSize p ->
  addr a ∉ ⋃ (map nodes entries) ->
  forallb (fits ChunkSize) (m_sortedPatterns s) = true ->
  Forall (fun f => forallb (fits ChunkSize) (frame_patterns f) = true)
    frames ->
  (m_displayEnd s !! addr a = None ->
   revealed s a = 50
   /\ exists s1, getDisplayEnd a w s = Some (50, s1, [])
                 /\ m_displayEnd s1 !! addr a = Some 50)
  /\ (exists s' t,
        draw ChunkSize p w s = Some (tt, s', t)
        /\ revealed s' a
           = revealed s a
             + (if revealAction ChunkSize a entries w s t then 50 else 0)
        /\ (forallb pagerless entries = true ->
            revealAction ChunkSize a entries w s t
            = existsb (fun clicked => clicked)
                (doubleClicks w t (asked s))))
  /\ (exists s',
        draw_repeat ChunkSize p draws s = Some s'
        /\ revealed s' a
           = revealed s a
             + 50 * N.of_nat (revealActions ChunkSize p a entries draws s)
        /\ (m_displayEnd s !! addr a = None ->
            revealed s' a
            = 50 + 50 * N.of_nat
                          (revealActions ChunkSize p a entries draws s)))
  /\ (isHidden a = false ->
      isInlined a || negb (isSealed a) = true ->
      Forall eager draws ->
      (forall j, j < N.of_nat (length draws) ->
                 revealed s a + 50 * j < chunkTotal ChunkSize entries) ->
      revealActions ChunkSize p a entries draws s = length draws)
  /\ (exists s',
        draw_frames Literal_gtb Literal_ltb GetID ChunkSize frames s = Some s'
        /\ forall k v, m_displayEnd s !! k = Some v ->
             exists v', m_displayEnd s' !! k = Some v' /\ v <= v').
Proof.
  intros Hp Hb Hout Hs Hframes.
  split; [| split; [| split; [| split]]].
  - intros Hnone. unfold revealed, getDisplayEnd. rewrite Hnone.
    split; [reflexivity |]. eexists. split; [reflexivity |].
    apply lookup_insert_eq.
  - destruct (draw_array_frame p a entries Hp Hb Hout w s)
      as (s' & t & E & R).
    exists s', t. split; [exact E |]. split; [exact R |]. intros Hflat.
    apply (draw_array_flat_action p a entries Hp Hb Hout w s s' t);
      [| exact E].
    intros e He. apply plain_draw.
    rewrite forallb_forall in Hflat. exact (Hflat e He).
  - destruct (draw_repeat_actions p a entries Hp Hb Hout draws s)
      as (s' & E & R).
    exists s'. split; [exact E |]. split; [exact R |].
    intros Hnone. rewrite R. unfold revealed. now rewrite Hnone.
  - intros Hvis Hopen Hw Hshown.
    exact (eager_frames_act p a entries Hp Hb Hout draws s Hvis Hopen Hw
             Hshown).
  - destruct (draw_frames_grow Literal_gtb Literal_ltb GetID frames s
                (proj1 Hb) Hs Hframes) as (s' & E & Hg).
    exists s'. split; [exact E |]. intros k v Hv.
    destruct (Hg k v Hv) as (v' & Hv' & G).
    exists v'. split; [exact Hv' | now apply grows_le].
Qed.

End Disclosure.

(** ** Elements the comparator leaves unordered *)

(** A comparator that places nothing before anything moves nothing. *)
Lemma returns_insertion_sort_unordered
    (comp : Pattern Literal -> Pattern Literal -> Draw Literal bool) rest :
  (forall x y, returns (fun less => less = false) (comp x y)) ->
  forall sorted,
    sorted <> [] ->
    returns (fun l => l = sorted ++ rest) (insertion_sort comp sorted rest).
Proof.
  intros Hcomp.
  induction rest as [| val rest' IH]; intros sorted Hne;
    cbn [insertion_sort].
  - apply returns_ret. now rewrite app_nil_r.
  - destruct sorted as [| first sorted0] eqn:Hs; [congruence |].
    rewrite <- Hs in *. rewrite Hs at 1. cbn [head deref].
    eapply (returns_bind (fun x => x = first)); [now apply returns_ret |].
    intros ? ->.
    eapply returns_bind; [apply Hcomp |]. intros less ->.
    eapply (returns_bind (fun l => l = sorted ++ [val])).
    + destruct (rev sorted) as [| next before'] eqn:Hr.
      { apply (f_equal (@rev _)) in Hr. rewrite rev_involutive in Hr.
        cbn in Hr. congruence. }
      cbn [unguarded_linear_insert].
      eapply returns_bind; [apply Hcomp |]. intros less ->.
      apply returns_ret.
      now rewrite rev_append_rev, <- Hr, rev_involutive.
    + intros sorted' ->.
      eapply returns_weaken; [| apply IH].
      * intros l ->. now rewrite <- app_assoc.
      * destruct sorted; [congruence | discriminate].
Qed.

Lemma returns_std_sort_unordered
    (comp : Pattern Literal -> Pattern Literal -> Draw Literal bool) range :
  (forall x y, returns (fun less => less = false) (comp x y)) ->
  returns (fun l => l = range) (std_sort comp range).
Proof.
  intros Hcomp. destruct range as [| first rest]; cbn [std_sort].
  - now apply returns_ret.
  - apply (returns_insertion_sort_unordered comp rest Hcomp [first]).
    discriminate.
Qed.

Section Unordered.

Variable Literal_gtb : Literal -> Literal -> bool.
Variable Literal_ltb : Literal -> Literal -> bool.
Variable GetID : string -> N.

Lemma sortPatterns_unknown_column specs (l r : Attrs Literal) :
  (forall name, In name columnNames ->
                ColumnUserID (Specs specs) <> GetID name) ->
  sortPatterns Literal_gtb Literal_ltb GetID specs l r = false.
Proof.
  intros H. unfold sortPatterns. cbv zeta.
  repeat match goal with
         | |- context [ColumnUserID (Specs specs) =? GetID ?name] =>
             replace (ColumnUserID (Specs specs) =? GetID name) with false
               by (symmetry; apply N.eqb_neq, H; cbn; tauto)
         end.
  reflexivity.
Qed.

(** X17: a sort column the table does not know leaves the roots in the
    order they came in.  When the id of the sort column is none of the six
    the table set up, the comparator answers false for every pair, and a
    rebuild of the cached order, on a range of at most sixteen roots,
    where [std::sort] of libstdc++ sorts by insertion, lists the roots in
    the order of [patterns]. *)
Theorem unknown_column_keeps_input_order specs
    (patterns : list (Pattern Literal)) w s :
  (forall name, In name columnNames ->
                ColumnUserID (Specs specs) <> GetID name) ->
  patterns <> [] ->
  (length patterns <= 16)%nat ->
  sortSpecs s = specs ->
  SpecsDirty specs = true ->
  answer w (asked s) = true ->
  (forall l r : Attrs Literal,
     sortPatterns Literal_gtb Literal_ltb GetID specs l r = false)
  /\ exists s' t,
       beginPatternTable Literal_gtb Literal_ltb GetID patterns w s
       = Some (true, s', t)
       /\ map attrs (m_sortedPatterns s') = map attrs patterns.
Proof.
  intros Hunknown Hne _ Hs Hdirty Hw.
  pose proof (sortPatterns_unknown_column specs) as Hfalse.
  split; [intros l r; now apply Hfalse |].
  assert (Hcomp : forall x y,
            returns (fun less => less = false)
              (comparator Literal_gtb Literal_ltb GetID specs x y)).
  { intros x y w0 s0. eexists _, _. split; [reflexivity |].
    now apply Hfalse. }
  assert (Hcomp' : forall x y,
            returns (fun less => less = false)
              (comparator Literal_gtb Literal_ltb GetID specs x y)
            -> returns (fun less => less = (fun _ _ => false) x y)
                 (comparator Literal_gtb Literal_ltb GetID specs x y))
    by (intros x y H; exact H).
  unfold beginPatternTable, setupColumns, bind, call, query, get, put, ret.
  cbn -[std_sort for_each Pattern_sort]. rewrite Hw.
  destruct patterns as [| p0 patterns0] eqn:Hp; [congruence |].
  rewrite <- Hp in *.
  replace (is_empty patterns) with false by (rewrite Hp; reflexivity).
  cbn -[std_sort for_each Pattern_sort]. rewrite Hs, Hdirty.
  cbn -[std_sort for_each Pattern_sort].
  match goal with
  | |- context [std_sort ?c ?l ?w0 ?s0] =>
      destruct (returns_std_sort_unordered c l Hcomp w0 s0)
        as (sorted & t1 & E1 & ->);
      rewrite E1;
      destruct (returns_for_each (reordered ChunkSize) (Pattern_sort c)
                  l
                  (fun e _ => returns_Pattern_sort c (fun _ _ => false)
                                (fun x y => Hcomp' x y (Hcomp x y)) e)
                  w0 s0)
        as (sorted' & t2 & E2 & HF);
      rewrite E2
  end.
  eexists _, _. split; [reflexivity |]. cbn [m_sortedPatterns set_sorted].
  clear -HF. induction HF as [| x y l l' [Ha _] _ IH]; cbn; [reflexivity |].
  now rewrite Ha, IH.
Qed.

End Unordered.


End Properties.

(** * Instances *)

(** ** The three nodes of the sorting example *)




Lemma sort_by_offset_ascending_witness :
  exists s' t,
    beginPatternTable Z.gtb Z.ltb example_GetID example_roots example_idle
      (example_start example_ascending) = Some (true, s', t)
    /\ map (fun p => getOffset (attrs p)) (m_sortedPatterns s') = [20; 10; 5].
Proof.
  destruct (sort_by_offset_ascending 50 Z.gtb Z.ltb example_GetID
              example_ascending example_a10 example_a5
              example_a10 example_a5 example_a20
              example_idle (example_start example_ascending))
    as (_ & (s' & t & E & Hs & _) & _).
  - reflexivity.
  - vm_compute. discriminate.
  - reflexivity.
  - reflexivity.
  - reflexivity.
  - reflexivity.
  - reflexivity.
  - reflexivity.
  - reflexivity.
  - exists s', t. split; [exact E |]. rewrite Hs. reflexivity.
Defined.

(** The rows of the whole table come out in the order 20, 10, 5. *)
Example table_rows_in_sorted_order :
  texts (trace_of (draw_patterns Z.gtb Z.ltb example_GetID 50 example_roots
                     example_idle (example_start example_ascending)))
  = ["c"; "a"; "b"]%string.
Proof. vm_compute. reflexivity. Qed.

(** ** Pagination of 120 entries *)


Lemma drawArray_pagination_witness :
  let s := example_state {[ 1 := 1 ]} in
  exists s' t,
    draw 50 example_paged example_idle s = Some (tt, s', t)
    /\ pagers t = [Some (0, 49); None].
Proof.
  intros s.
  destruct (drawArray_pagination 50 example_paged example_array example_120
              example_idle s)
    as (_ & s' & t & E & P & _).
  - now left.
  - reflexivity.
  - reflexivity.
  - split; [reflexivity | vm_compute; reflexivity].
  - apply (bool_decide_unpack _). vm_compute. exact I.
  - exists s', t. split; [exact E |].
    rewrite P by (vm_compute; reflexivity). vm_compute. reflexivity.
Defined.

(** With every chunk closed, disclosure count 1 shows one chunk row and
    the placeholder row; disclosure count 3 shows the three chunk rows and
    no placeholder. *)
Example pagination_120_count_1 :
  let t := trace_of (drawArray_loop 50 (draw 50) example_array example_120
                       121 0 0 (example_idle_from 1000)
                       (example_state {[ 1 := 1 ]})) in
  rows t = 2%nat /\ placeholders t = 1%nat
  /\ List.last t TableNextRow = IsItemHovered.
Proof. vm_compute. repeat split. Qed.

Example pagination_120_count_3 :
  let t := trace_of (drawArray_loop 50 (draw 50) example_array example_120
                       121 0 0 (example_idle_from 1000)
                       (example_state {[ 1 := 3 ]})) in
  rows t = 3%nat /\ placeholders t = 0%nat.
Proof. vm_compute. repeat split. Qed.

(** With every chunk open, the 50 entries of the one revealed chunk are
    drawn between the chunk row and the placeholder row, and nothing of
    the other two chunks. *)
Example pagination_120_count_1_open :
  let t := trace_of (drawArray_loop 50 (draw 50) example_array example_120
                       121 0 0 example_clicking
                       (example_state {[ 1 := 1 ]})) in
  rows t = 52%nat /\ placeholders t = 1%nat.
Proof. vm_compute. repeat split. Qed.

(** The same at the level of the draw of the node, with every tree node
    but the one of the array closed: 120 entries in chunks of 50 show the
    chunk of the entries 0 to 49 and the placeholder when one chunk is
    revealed, and the three chunks and no placeholder when three are, or
    when the node has no disclosure count yet. *)
Example draw_120_count_1 :
  pagers (trace_of (draw 50 example_paged example_idle
                      (example_state {[ 1 := 1 ]})))
  = [Some (0, 49); None].
Proof. vm_compute. reflexivity. Qed.

Example draw_120_count_3 :
  pagers (trace_of (draw 50 example_paged example_idle
                      (example_state {[ 1 := 3 ]})))
  = [Some (0, 49); Some (50, 99); Some (100, 119)]
  /\ pagers (trace_of (draw 50 example_paged example_idle (example_state ∅)))
     = [Some (0, 49); Some (50, 99); Some (100, 119)].
Proof. vm_compute. split; reflexivity. Qed.

(** With every tree node open, the first chunk shows its 50 entries, and
    nothing of the chunks past the placeholder is drawn. *)
Example draw_120_count_1_open :
  let t := trace_of (draw 50 example_paged example_clicking
                       (example_state {[ 1 := 1 ]})) in
  pagers t = [Some (0, 49); None] /\ rows t = 53%nat.
Proof. vm_compute. split; reflexivity. Qed.

(** ** A hidden node above visible ones *)


Lemma draw_hidden_emits_nothing_witness :
  draw 50 example_hidden_struct example_clicking (example_state ∅)
  = Some (tt, example_state ∅, [])
  /\ forall start end_ index rest,
       forEachEntry_from (draw 50) start end_ index
         (example_hidden_struct :: rest) example_clicking (example_state ∅)
       = forEachEntry_from (draw 50) start end_ (index + 1) rest
           example_clicking (example_state ∅).
Proof.
  apply (draw_hidden_emits_nothing 50 example_hidden_struct). reflexivity.
Defined.

(** ** Header rows *)


Lemma header_swatch_witness :
  exists open s' t,
    header_PatternStruct example_header "struct" example_idle (example_state ∅)
    = Some (open, s', t)
    /\ rows t = 1%nat /\ hasSwatch t = false.
Proof.
  destruct (header_swatch example_header "struct" [] example_idle
              (example_state ∅)) as (H & _).
  - reflexivity.
  - exact H.
Defined.

(** A bitfield and a pointer that are neither inlined nor sealed: their
    header rows hold the colour swatch all the same. *)
Lemma header_swatch_counterexample :
  isInlined example_header = false
  /\ isSealed example_header = false
  /\ hasSwatch (trace_of (header_PatternBitfield example_header example_idle
                            (example_state ∅))) = true
  /\ hasSwatch (trace_of (header_PatternPointer example_header example_idle
                            (example_state ∅))) = true
  /\ hasSwatch (trace_of (header_PatternStruct example_header "struct"
                            example_idle (example_state ∅))) = false.
Proof. vm_compute. repeat split. Qed.

(** ** A pointer to a hidden node *)



(** C8, on the code: the pointee of an open pointer is visited through
    [accept], not through [draw], so a hidden pointee is drawn.  The
    dispatcher entry point draws nothing for the pointee; the visit of the
    pointer draws the row of the pointee, after the header row of the
    pointer when the pointer is not inlined. *)
Theorem pointer_draws_hidden_pointee :
  isHidden (attrs example_hidden_target) = true
  /\ draw 50 example_hidden_target example_clicking (example_state ∅)
     = Some (tt, example_state ∅, [])
  /\ (let t := trace_of (draw 50 (example_pointer true) example_clicking
                           (example_state ∅)) in
      rows t = 1%nat /\ texts t = ["target"]%string)
  /\ (let t := trace_of (draw 50 (example_pointer false) example_clicking
                           (example_state ∅)) in
      rows t = 2%nat /\ texts t = ["target"]%string).
Proof. vm_compute. repeat split. Qed.

(** ** Reveal steps and frames *)



(** Two frames on a node of 60 chunks that has no entry yet: in the first
    the placeholder is shown and nothing is clicked, in the second it is
    double-clicked. *)
Lemma displayEnd_default_step_monotone_witness :
  let draws := [example_idle; example_clicking] in
  let s := example_start example_ascending in
  exists s',
    draw_repeat 2 example_paged draws s = Some s'
    /\ revealActions 2 example_paged example_array example_120 draws s
       = 1%nat
    /\ revealed s' example_array = 100.
Proof.
  intros draws s.
  destruct (displayEnd_default_step_monotone 2 Z.gtb Z.ltb example_GetID
              example_paged example_array example_120 draws
              [example_frame] example_idle s)
    as (_ & _ & (s' & E & _ & R) & _).
  - now left.
  - split; [reflexivity | vm_compute; reflexivity].
  - apply (bool_decide_unpack _). vm_compute. exact I.
  - reflexivity.
  - repeat constructor.
  - assert (A : revealActions 2 example_paged example_array example_120
                  draws s = 1%nat) by (vm_compute; reflexivity).
    exists s'. split; [exact E |]. split; [exact A |].
    rewrite R by reflexivity. rewrite A. reflexivity.
Defined.

(** A frame without a double-click leaves the count alone, a frame with
    one raises it by 50, and a frame in which the node is closed does
    neither, whatever is clicked below the header. *)
Example reveal_needs_a_double_click :
  let s := example_start example_ascending in
  revealed (state_of (draw 2 example_paged example_idle s) s) example_array
  = 50
  /\ revealed (state_of (draw 2 example_paged example_clicking s) s)
       example_array = 100
  /\ revealed (state_of (draw 2 example_paged (example_idle_from 1) s) s)
       example_array = 50.
Proof. vm_compute. repeat split. Qed.

(** ** Two draws in a row *)

Lemma sort_cache_reused_witness :
  let first := draw_patterns Z.gtb Z.ltb example_GetID 50 example_roots
                 example_idle (example_start example_ascending) in
  let s1 := state_of first (example_start example_ascending) in
  let second := draw_patterns Z.gtb Z.ltb example_GetID 50 example_roots
                  (example_idle_from (asked s1)) s1 in
  returned first = true /\ returned second = true
  /\ comparisons (trace_of first) = 3%nat
  /\ comparisons (trace_of second) = 0%nat
  /\ m_sortedPatterns (state_of second s1) = m_sortedPatterns s1.
Proof.
  intros first s1 second.
  destruct first as [[[x1 s1'] t1] |] eqn:E1; [| vm_compute in E1; discriminate].
  assert (C1 : comparisons (trace_of first) = 3%nat)
    by (vm_compute; reflexivity).
  rewrite E1 in C1. cbn [state_of] in s1. subst s1.
  destruct second as [[[x2 s2] t2] |] eqn:E2.
  - destruct (sort_cache_reused 50 Z.gtb Z.ltb example_GetID example_roots
                example_idle (example_idle_from (asked s1'))
                (example_start example_ascending)) as (_ & _ & H).
    + reflexivity.
    + destruct (H x1 s1' t1 x2 s2 t2 eq_refl E1 E2) as [Hc Hs].
      repeat split; [exact C1 | exact Hc | exact Hs].
  - exfalso. subst first second.
    assert (R : returned
                  (draw_patterns Z.gtb Z.ltb example_GetID 50 example_roots
                     (example_idle_from
                        (asked (state_of
                                  (draw_patterns Z.gtb Z.ltb example_GetID 50
                                     example_roots example_idle
                                     (example_start example_ascending))
                                  (example_start example_ascending))))
                     (state_of
                        (draw_patterns Z.gtb Z.ltb example_GetID 50
                           example_roots example_idle
                           (example_start example_ascending))
                        (example_start example_ascending))) = true)
      by (vm_compute; reflexivity).
    rewrite E1 in R. cbn [state_of] in R. rewrite E2 in R. discriminate R.
Defined.

(** ** Further instances *)

(** A struct over a byte and an array, every row open and clicked. *)
Lemma draw_returns_witness :
  (exists s' t,
     draw 50 example_tree example_clicking (example_state ∅)
     = Some (tt, s', t))
  /\ (exists s' t,
        accept 50 example_tree example_clicking (example_state ∅)
        = Some (tt, s', t)).
Proof.
  apply (draw_returns 50 example_tree).
  split; [reflexivity | vm_compute; reflexivity].
Defined.

Lemma draw_footprint_witness :
  let r := draw 50 example_tree example_clicking (example_state ∅) in
  returned r = true
  /\ m_sortedPatterns (state_of r (example_state ∅)) = []
  /\ comparisons (trace_of r) = 0%nat
  /\ m_displayEnd (state_of r (example_state ∅)) !! 99 = None.
Proof.
  cbv zeta.
  destruct (draw 50 example_tree example_clicking (example_state ∅))
    as [[[[] s'] t] |] eqn:E; [| vm_compute in E; discriminate E].
  destruct (draw_footprint 50 example_tree example_clicking
              (example_state ∅) s' t (conj eq_refl eq_refl) E)
    as (H1 & _ & H3 & _ & H5 & _).
  split; [reflexivity |]. split; [exact H1 |]. split; [exact H3 |].
  cbn [state_of]. rewrite H5; [reflexivity |]. vm_compute. set_solver.
Defined.

Lemma draw_balances_stacks_witness :
  let r := draw 50 example_tree example_clicking (example_state ∅) in
  returned r = true
  /\ replay example_clicking (trace_of r) 0 example_stacks
     = Some (asked (state_of r (example_state ∅)), example_stacks).
Proof.
  cbv zeta.
  destruct (draw 50 example_tree example_clicking (example_state ∅))
    as [[[[] s'] t] |] eqn:E; [| vm_compute in E; discriminate E].
  split; [reflexivity |].
  exact (draw_balances_stacks 50 example_tree example_clicking
           (example_state ∅) s' t example_stacks E).
Defined.

Lemma draw_patterns_balances_stacks_witness :
  let r := draw_patterns Z.gtb Z.ltb example_GetID 50 [example_tree]
             example_clicking (example_start example_ascending) in
  returned r = true
  /\ replay example_clicking (trace_of r) 0 example_stacks
     = Some (asked (state_of r (example_start example_ascending)),
             example_stacks).
Proof.
  cbv zeta.
  destruct (draw_patterns Z.gtb Z.ltb example_GetID 50 [example_tree]
              example_clicking (example_start example_ascending))
    as [[[[] s'] t] |] eqn:E; [| vm_compute in E; discriminate E].
  split; [reflexivity |].
  exact (draw_patterns_balances_stacks 50 Z.gtb Z.ltb example_GetID
           [example_tree] example_clicking (example_start example_ascending)
           s' t example_stacks E).
Defined.

(** A click on the row of the byte at offset 10 selects that byte. *)
Lemma draw_selects_a_node_witness :
  In (10, 1) (ranges (PatternUnsigned example_a10)).
Proof.
  apply (draw_selects_a_node 50 (PatternUnsigned example_a10)
           example_clicking (example_state ∅) _ _ 10 1 eq_refl).
  simpl. tauto.
Defined.

(** A struct whose tree node is closed, over a byte that is not drawn. *)
Lemma closed_node_draws_header_only_witness :
  exists s' t,
    accept 50 (PatternStruct example_header [PatternUnsigned example_a5])
      (example_selecting 0 0) (example_state ∅)
    = Some (tt, s', t)
    /\ rows t = 1%nat
    /\ existsb isTreePop t = false
    /\ m_displayEnd s' = m_displayEnd (example_state ∅).
Proof.
  apply (closed_node_draws_header_only 50 example_header
           (PatternUnsigned example_a10) [PatternUnsigned example_a5]).
  - simpl. tauto.
  - reflexivity.
  - right. reflexivity.
Defined.

Lemma inlined_node_is_its_children_witness :
  accept 50
    (PatternStruct example_inlined
       [PatternUnsigned example_a10; PatternUnsigned example_a5])
    example_idle (example_state ∅)
  = ignore (for_each (draw 50)
              [PatternUnsigned example_a10; PatternUnsigned example_a5])
      example_idle (example_state ∅).
Proof.
  apply (inlined_node_is_its_children 50 example_inlined
           (PatternUnsigned example_a20)
           [PatternUnsigned example_a10; PatternUnsigned example_a5]
           example_idle (example_state ∅)).
  reflexivity.
Defined.


Lemma swo_Z_ltb : StrictWeakOrder Z.ltb.
Proof.
  split.
  - intros x. apply Z.ltb_irrefl.
  - intros x y z H1 H2. apply Z.ltb_lt in H1, H2. apply Z.ltb_lt. lia.
  - intros x y z H1 H2 H3 H4. apply Z.ltb_ge in H1, H2, H3, H4.
    split; apply Z.ltb_ge; lia.
Qed.

Lemma swo_Z_gtb : StrictWeakOrder Z.gtb.
Proof.
  split.
  - intros x. rewrite Z.gtb_ltb. apply Z.ltb_irrefl.
  - intros x y z. rewrite !Z.gtb_ltb. intros H1 H2.
    apply Z.ltb_lt in H1, H2. apply Z.ltb_lt. lia.
  - intros x y z. rewrite !Z.gtb_ltb. intros H1 H2 H3 H4.
    apply Z.ltb_ge in H1, H2, H3, H4. split; apply Z.ltb_ge; lia.
Qed.

Lemma sortPatterns_strict_weak_order_witness :
  StrictWeakOrder (sortPatterns Z.gtb Z.ltb example_GetID example_ascending).
Proof.
  apply (sortPatterns_strict_weak_order Z.gtb Z.ltb example_GetID
           example_ascending swo_Z_gtb swo_Z_ltb).
Defined.

Lemma sortPatterns_direction_witness :
  sortPatterns Z.gtb Z.ltb example_GetID
    (example_specs "size" ImGuiSortDirection_Descending false)
    example_a10 example_a5
  = sortPatterns Z.gtb Z.ltb example_GetID
      (example_specs "size" ImGuiSortDirection_Ascending false)
      example_a5 example_a10.
Proof.
  exact (proj1 (proj2
           (sortPatterns_direction Z.gtb Z.ltb example_GetID
              (example_GetID "size") false example_a10 example_a5
              (fun a b => eq_sym (Z.gtb_ltb b a))))).
Defined.

Lemma example_GetID_NoDup : List.NoDup (map example_GetID columnNames).
Proof.
  vm_compute.
  repeat (constructor; [simpl; intuition discriminate |]). constructor.
Qed.

Lemma sorted_by_number_column_witness :
  StronglySorted
    (fun x y : Pattern Z => getOffset (attrs y) <= getOffset (attrs x))
    [PatternUnsigned example_a20; PatternUnsigned example_a10;
     PatternUnsigned example_a5].
Proof.
  apply (sorted_by_number_column Z.gtb Z.ltb example_GetID example_ascending
           "offset" getOffset
           [PatternUnsigned example_a20; PatternUnsigned example_a10;
            PatternUnsigned example_a5]
           example_GetID_NoDup).
  - simpl. tauto.
  - reflexivity.
  - vm_compute. reflexivity.
Defined.

(** The last address of the byte at the top of the address space. *)
Lemma drawOffsetColumn_last_address_witness :
  drawOffsetColumn example_last example_idle (example_state ∅)
  = Some (tt, example_state ∅,
          [TextFormatted "0x{0:08X} : 0x{1:08X}"
             [ArgU64 (u64_modulus - 1); ArgU64 (u64_modulus - 1)];
           TableNextColumn]).
Proof.
  apply (drawOffsetColumn_last_address example_last example_idle
           (example_state ∅)).
  - reflexivity.
  - vm_compute. discriminate.
Defined.

(** Three hidden bytes in chunks of two, one chunk revealed: the header
    row, the row of the chunk of the entries 0 and 1, and the placeholder
    row, although every tree node is open. *)
Lemma hidden_entries_are_paged_witness :
  let p := PatternArrayDynamic example_array example_hidden_bytes in
  exists s' t,
    draw 2 p example_clicking (example_state {[ 1 := 1 ]})
    = Some (tt, s', t)
    /\ pagers t = [Some (0, 1); None]
    /\ rows t = 3%nat.
Proof.
  intros p.
  destruct (hidden_entries_are_paged 2 p example_array example_hidden_bytes
              example_clicking (example_state {[ 1 := 1 ]}))
    as (s' & t & E & P & R).
  - now left.
  - reflexivity.
  - reflexivity.
  - split; [reflexivity | vm_compute; reflexivity].
  - discriminate.
  - reflexivity.
  - exists s', t. split; [exact E |].
    split; [rewrite P | rewrite R]; vm_compute; reflexivity.
Defined.

(** ** A sort column the table does not know *)

(** Three roots at the offsets 10, 5 and 20 stay in this order. *)
Lemma unknown_column_keeps_input_order_witness :
  let specs := example_specs "bogus" ImGuiSortDirection_Ascending true in
  exists s' t,
    beginPatternTable Z.gtb Z.ltb example_GetID example_roots example_idle
      (example_start specs) = Some (true, s', t)
    /\ map (fun p => getOffset (attrs p)) (m_sortedPatterns s') = [10; 5; 20].
Proof.
  intros specs.
  destruct (unknown_column_keeps_input_order 50 Z.gtb Z.ltb example_GetID
              specs example_roots example_idle (example_start specs))
    as (_ & s' & t & E & M).
  - intros name Hin. cbn in Hin.
    destruct Hin as [<- | [<- | [<- | [<- | [<- | [<- | []]]]]]];
      vm_compute; discriminate.
  - discriminate.
  - cbn. lia.
  - reflexivity.
  - reflexivity.
  - reflexivity.
  - exists s', t. split; [exact E |].
    rewrite <- (map_map attrs getOffset), M. reflexivity.
Defined.

(** Roots with equal keys keep the order they came in: sorted by offset,
    the two roots at offset 10 stay in input order in front of the root
    at offset 5. *)
Example sort_ties_keep_input_order :
  let roots := [PatternUnsigned example_a10; PatternUnsigned example_a5;
                PatternUnsigned (example_node 4 10 1 "d")] in
  map (fun p => addr (attrs p))
    (m_sortedPatterns
       (state_of (beginPatternTable Z.gtb Z.ltb example_GetID roots
                    example_idle (example_start example_ascending))
          (example_start example_ascending)))
  = [1; 4; 2].
Proof. vm_compute. reflexivity. Qed.
